(** * Shallow embedding of the Glow interpreter kernels (InterpreterNodes.cpp)

    Element values ([FloatTy] in the source) are modelled by exact rationals
    [Q]; the library functions [std::exp], [std::sqrt] and [std::pow] are
    parameters of the kernels that use them.  A context maps every IR value
    to its weight tensor and its gradient tensor; kernels are functions from
    contexts to contexts, with the source's [for] loops as [forN]. *)

From Stdlib Require Import QArith ZArith Lia.
From stdpp Require Import base list.

(** ** Elements *)

#[global] Instance Q_inhabited : Inhabited Q := populate 0%Q.

(** Conversion of a [size_t] to [FloatTy]. *)
Definition float_of_size (n : nat) : Q := inject_Z (Z.of_nat n).

(** [size_t] view of an [ssize_t] (two's complement wrap-around, 64 bits). *)
Definition size_of_ssize (z : Z) : nat := Z.to_nat (z mod 2 ^ 64).

(** ** Tensors and handles *)

(** Modelled from the spec: the tensor storage (Tensor.h is not part of the
    sources).  A tensor has a shape and row-major storage; a handle of the
    floating-point kind sees [fdata], a handle of the index kind ([size_t])
    sees [idata]. *)
Record Tensor := mkTensor { dims : list nat; fdata : list Q; idata : list nat }.

Fixpoint product (ds : list nat) : nat :=
  match ds with [] => 1 | d :: ds' => d * product ds' end.

(** Modelled from the spec: [Handle::size()], the product of the extents. *)
Definition size (t : Tensor) : nat := product (dims t).

(** Modelled from the spec: the flat index of a coordinate (or of a
    coordinate prefix, as [getElementPtr] takes it) is
    [sum_i a_i * prod_{j>i} extent_j]. *)
Fixpoint flatIndex (ds cs : list nat) : nat :=
  match ds, cs with
  | _ :: ds', c :: cs' => c * product ds' + flatIndex ds' cs'
  | _, _ => 0
  end.

Definition getElementPtr (t : Tensor) (cs : list nat) : nat := flatIndex (dims t) cs.

(** Modelled from the spec: [getDimForPtr(dim, idx)], the coordinate along
    axis [dim] of the element at flat index [idx]. *)
Definition getDimForPtr (t : Tensor) (dim idx : nat) : nat :=
  (idx / product (drop (S dim) (dims t))) mod (nth dim (dims t) 0).

(** [raw(i)] and [at(coord)] of a [FloatTy] handle. *)
Definition raw (t : Tensor) (i : nat) : Q := fdata t !!! i.
Definition at' (t : Tensor) (cs : list nat) : Q := raw t (flatIndex (dims t) cs).

(** [at(coord)] of a [size_t] handle. *)
Definition atI (t : Tensor) (cs : list nat) : nat := idata t !!! flatIndex (dims t) cs.

(** Writes through a handle ([raw(i) = x], [at(coord) = x]).  A write out of
    range leaves the storage unchanged. *)
Definition setRaw (t : Tensor) (i : nat) (x : Q) : Tensor :=
  mkTensor (dims t) (<[i := x]> (fdata t)) (idata t).
Definition setAt (t : Tensor) (cs : list nat) (x : Q) : Tensor :=
  setRaw t (flatIndex (dims t) cs) x.
Definition setAtI (t : Tensor) (cs : list nat) (x : nat) : Tensor :=
  mkTensor (dims t) (fdata t) (<[flatIndex (dims t) cs := x]> (idata t)).

(** A freshly constructed tensor is zero-initialized. *)
Definition zeroTensor (ds : list nat) : Tensor :=
  mkTensor ds (repeat 0%Q (product ds)) (repeat 0 (product ds)).

(** ** Shapes *)

Record ShapeNHWC := mkShapeNHWC { sn : nat; sh : nat; sw : nat; sc : nat }.

Definition nhwc (ds : list nat) : ShapeNHWC :=
  mkShapeNHWC (nth 0 ds 0) (nth 1 ds 0) (nth 2 ds 0) (nth 3 ds 0).

(** Modelled from the spec: [flattenCdr] collapses a shape to
    (first extent, product of the remaining extents). *)
Definition flattenCdr (ds : list nat) : nat * nat :=
  match ds with [] => (0, 1) | d :: ds' => (d, product ds') end.

(** ** Execution context *)

Definition Value := nat.

Record Context := mkContext { weights : Value -> Tensor; grads : Value -> Tensor }.

Definition setWeight (ctx : Context) (v : Value) (t : Tensor) : Context :=
  mkContext (fun u => if decide (u = v) then t else weights ctx u) (grads ctx).
Definition setGrad (ctx : Context) (v : Value) (t : Tensor) : Context :=
  mkContext (weights ctx) (fun u => if decide (u = v) then t else grads ctx u).

(** Accesses through [getWeightHandle] / [getTensorForValue] ... *)
Definition wRaw (ctx : Context) (v : Value) (i : nat) : Q := raw (weights ctx v) i.
Definition wAt (ctx : Context) (v : Value) (cs : list nat) : Q := at' (weights ctx v) cs.
Definition wAtI (ctx : Context) (v : Value) (cs : list nat) : nat := atI (weights ctx v) cs.
Definition wSetRaw (ctx : Context) (v : Value) (i : nat) (x : Q) : Context :=
  setWeight ctx v (setRaw (weights ctx v) i x).
Definition wSetAt (ctx : Context) (v : Value) (cs : list nat) (x : Q) : Context :=
  setWeight ctx v (setAt (weights ctx v) cs x).
Definition wSetAtI (ctx : Context) (v : Value) (cs : list nat) (x : nat) : Context :=
  setWeight ctx v (setAtI (weights ctx v) cs x).

(** ... and through [getGradHandle]. *)
Definition gRaw (ctx : Context) (v : Value) (i : nat) : Q := raw (grads ctx v) i.
Definition gAt (ctx : Context) (v : Value) (cs : list nat) : Q := at' (grads ctx v) cs.
Definition gSetRaw (ctx : Context) (v : Value) (i : nat) (x : Q) : Context :=
  setGrad ctx v (setRaw (grads ctx v) i x).
Definition gSetAt (ctx : Context) (v : Value) (cs : list nat) (x : Q) : Context :=
  setGrad ctx v (setAt (grads ctx v) cs x).

(** [for (size_t i = 0; i < n; i++) body]. *)
Definition forN (n : nat) (body : nat -> Context -> Context) (ctx : Context) : Context :=
  fold_left (fun c i => body i c) (seq 0 n) ctx.

(** ** Spatial windows *)

(** The anchor [-pad + a * stride] of output position [a]; the source keeps
    it in an [ssize_t] incremented by [stride] per iteration. *)
Definition anchor (pad stride a : nat) : Z :=
  (- Z.of_nat pad + Z.of_nat a * Z.of_nat stride)%Z.

(** The padding test [ox < 0 || oy < 0 || ox >= h || oy >= w]. *)
Definition outside (ox oy : Z) (h w : nat) : bool :=
  (ox <? 0)%Z || (oy <? 0)%Z || (Z.of_nat h <=? ox)%Z || (Z.of_nat w <=? oy)%Z.

(** ** Convolution *)

Record ConvolutionInst := mkConvolutionInst {
  cv_src : Value; cv_dest : Value; cv_filter : Value; cv_bias : Value;
  cv_kernel : nat; cv_stride : nat; cv_pad : nat }.

(** The [fy]/[fx]/[fd] loops of [fwdConvolutionInst]; note that the padding
    test compares against the extents of the OUTPUT ([odim.h], [odim.w]). *)
Definition convWindowSum (ctx : Context) (I : ConvolutionInst)
    (odim idim : ShapeNHWC) (n d : nat) (x y : Z) : Q :=
  fold_left (fun sum fy =>
    fold_left (fun sum fx =>
      let ox := (x + Z.of_nat fx)%Z in
      let oy := (y + Z.of_nat fy)%Z in
      if outside ox oy (sh odim) (sw odim) then sum
      else fold_left (fun sum fd =>
             (sum + wAt ctx (cv_filter I) [d; fx; fy; fd]
                    * wAt ctx (cv_src I) [n; Z.to_nat ox; Z.to_nat oy; fd])%Q)
           (seq 0 (sc idim)) sum)
      (seq 0 (cv_kernel I)) sum)
    (seq 0 (cv_kernel I)) 0%Q.

Definition fwdConvolutionInst (ctx : Context) (I : ConvolutionInst) : Context :=
  let odim := nhwc (dims (weights ctx (cv_dest I))) in
  let idim := nhwc (dims (weights ctx (cv_src I))) in
  forN (sn idim) (fun n =>
    forN (sc odim) (fun d =>
      forN (sw odim) (fun ay =>
        forN (sh odim) (fun ax ctx =>
          let x := anchor (cv_pad I) (cv_stride I) ax in
          let y := anchor (cv_pad I) (cv_stride I) ay in
          let sum := convWindowSum ctx I odim idim n d x y in
          wSetAt ctx (cv_dest I) [n; ax; ay; d] (sum + wAt ctx (cv_bias I) [d])%Q))))
    ctx.

(** The backward kernel; [filterG] reads [src] at batch index 0. *)
Definition bwdConvolutionInst (ctx : Context) (I : ConvolutionInst) : Context :=
  let odim := nhwc (dims (weights ctx (cv_dest I))) in
  let idim := nhwc (dims (weights ctx (cv_src I))) in
  forN (sn odim) (fun n =>
    forN (sc odim) (fun d =>
      forN (sw odim) (fun ay =>
        forN (sh odim) (fun ax ctx =>
          let x := anchor (cv_pad I) (cv_stride I) ax in
          let y := anchor (cv_pad I) (cv_stride I) ay in
          let chainGrad := gAt ctx (cv_dest I) [n; ax; ay; d] in
          let ctx :=
            forN (cv_kernel I) (fun fy =>
              forN (cv_kernel I) (fun fx ctx =>
                let ox := (x + Z.of_nat fx)%Z in
                let oy := (y + Z.of_nat fy)%Z in
                if outside ox oy (sh odim) (sw odim) then ctx
                else forN (sc idim) (fun fd ctx =>
                  let ctx := gSetAt ctx (cv_filter I) [d; fx; fy; fd]
                    (gAt ctx (cv_filter I) [d; fx; fy; fd]
                     + wAt ctx (cv_src I) [0%nat; Z.to_nat ox; Z.to_nat oy; fd] * chainGrad)%Q in
                  gSetAt ctx (cv_src I) [n; Z.to_nat ox; Z.to_nat oy; fd]
                    (gAt ctx (cv_src I) [n; Z.to_nat ox; Z.to_nat oy; fd]
                     + wAt ctx (cv_filter I) [d; fx; fy; fd] * chainGrad)%Q) ctx)) ctx in
          gSetAt ctx (cv_bias I) [d] (gAt ctx (cv_bias I) [d] + chainGrad)%Q))))
    ctx.

(** The padding test of the claim (C1): a window position counts exactly
    when it lies inside the INPUT spatial range.  This follows the words of
    the spec, to be compared with [convWindowSum]. *)
Definition convClaimSum (ctx : Context) (I : ConvolutionInst)
    (idim : ShapeNHWC) (n d : nat) (x y : Z) : Q :=
  fold_left (fun sum fy =>
    fold_left (fun sum fx =>
      let ox := (x + Z.of_nat fx)%Z in
      let oy := (y + Z.of_nat fy)%Z in
      if outside ox oy (sh idim) (sw idim) then sum
      else fold_left (fun sum fd =>
             (sum + wAt ctx (cv_filter I) [d; fx; fy; fd]
                    * wAt ctx (cv_src I) [n; Z.to_nat ox; Z.to_nat oy; fd])%Q)
           (seq 0 (sc idim)) sum)
      (seq 0 (cv_kernel I)) sum)
    (seq 0 (cv_kernel I)) 0%Q.

(** ** Comparisons on [FloatTy] *)

Definition Qltb (a b : Q) : bool := negb (Qle_bool b a).

(** [std::max(a, b)], i.e. [(a < b) ? b : a]. *)
Definition std_max (a b : Q) : Q := if Qltb a b then b else a.

Section Kernels.

(** The C library functions the kernels call. *)
Variable std_exp : Q -> Q.
Variable std_sqrt : Q -> Q.
Variable std_pow : Q -> Q -> Q.

(** ** Copy *)

Record SrcDestInst := mkSrcDestInst { sd_src : Value; sd_dest : Value }.

Definition fwdCopyInst (ctx : Context) (I : SrcDestInst) : Context :=
  forN (size (weights ctx (sd_src I))) (fun i ctx =>
    wSetRaw ctx (sd_dest I) i (wRaw ctx (sd_src I) i)) ctx.

(** ** Pooling *)

Inductive PoolKind := PoolMax | PoolAvg.

Record PoolInst := mkPoolInst {
  pl_kind : PoolKind; pl_src : Value; pl_dest : Value; pl_srcXY : Value;
  pl_kernel : nat; pl_stride : nat; pl_pad : nat }.

(** The locals [first], [max], [maxX], [maxY] of the max-pooling scan. *)
Record MaxScan := mkMaxScan { ms_first : bool; ms_max : Q; ms_maxX : nat; ms_maxY : nat }.

Definition maxPoolStep (ctx : Context) (I : PoolInst) (idim : ShapeNHWC)
    (n z : nat) (x y : Z) (fy : nat) (st : MaxScan) (fx : nat) : MaxScan :=
  let ox := (x + Z.of_nat fx)%Z in
  let oy := (y + Z.of_nat fy)%Z in
  if outside ox oy (sh idim) (sw idim) then st
  else
    let val := wAt ctx (pl_src I) [n; Z.to_nat ox; Z.to_nat oy; z] in
    if ms_first st || Qle_bool (ms_max st) val
    then mkMaxScan false val (Z.to_nat ox) (Z.to_nat oy)
    else st.

Definition maxPoolScan (ctx : Context) (I : PoolInst) (idim : ShapeNHWC)
    (n z : nat) (x y : Z) : MaxScan :=
  fold_left (fun st fy =>
    fold_left (maxPoolStep ctx I idim n z x y fy) (seq 0 (pl_kernel I)) st)
    (seq 0 (pl_kernel I))
    (mkMaxScan true 0%Q (size_of_ssize x) (size_of_ssize y)).

Definition fwdPoolMax_impl (ctx : Context) (I : PoolInst) : Context :=
  let odim := nhwc (dims (weights ctx (pl_dest I))) in
  let idim := nhwc (dims (weights ctx (pl_src I))) in
  forN (sn odim) (fun n =>
    forN (sc idim) (fun z =>
      forN (sw odim) (fun ay =>
        forN (sh odim) (fun ax ctx =>
          let st := maxPoolScan ctx I idim n z
                      (anchor (pl_pad I) (pl_stride I) ax)
                      (anchor (pl_pad I) (pl_stride I) ay) in
          let ctx := wSetAtI ctx (pl_srcXY I) [n; ax; ay; z; 0] (ms_maxX st) in
          let ctx := wSetAtI ctx (pl_srcXY I) [n; ax; ay; z; 1] (ms_maxY st) in
          wSetAt ctx (pl_dest I) [n; ax; ay; z] (ms_max st))))) ctx.

Definition avgPoolSum (ctx : Context) (I : PoolInst) (idim : ShapeNHWC)
    (n z : nat) (x y : Z) : Q :=
  fold_left (fun sum fy =>
    fold_left (fun sum fx =>
      let ox := (x + Z.of_nat fx)%Z in
      let oy := (y + Z.of_nat fy)%Z in
      if outside ox oy (sh idim) (sw idim) then sum
      else (sum + wAt ctx (pl_src I) [n; Z.to_nat ox; Z.to_nat oy; z])%Q)
      (seq 0 (pl_kernel I)) sum)
    (seq 0 (pl_kernel I)) 0%Q.

Definition fwdPoolAvg_impl (ctx : Context) (I : PoolInst) : Context :=
  let odim := nhwc (dims (weights ctx (pl_dest I))) in
  let idim := nhwc (dims (weights ctx (pl_src I))) in
  let filterArea := float_of_size (pl_kernel I * pl_kernel I) in
  forN (sn odim) (fun n =>
    forN (sc idim) (fun z =>
      forN (sw odim) (fun ay =>
        forN (sh odim) (fun ax ctx =>
          let sum := avgPoolSum ctx I idim n z
                       (anchor (pl_pad I) (pl_stride I) ax)
                       (anchor (pl_pad I) (pl_stride I) ay) in
          wSetAt ctx (pl_dest I) [n; ax; ay; z] (sum / filterArea)%Q)))) ctx.

Definition fwdPoolInst (ctx : Context) (I : PoolInst) : Context :=
  match pl_kind I with
  | PoolMax => fwdPoolMax_impl ctx I
  | PoolAvg => fwdPoolAvg_impl ctx I
  end.

(** ** Fully connected *)

Record FullyConnectedInst := mkFullyConnectedInst {
  fc_src : Value; fc_dest : Value; fc_filter : Value; fc_bias : Value }.

Definition fwdFullyConnectedInst (ctx : Context) (I : FullyConnectedInst) : Context :=
  let odim := flattenCdr (dims (weights ctx (fc_dest I))) in
  let idim := flattenCdr (dims (weights ctx (fc_src I))) in
  let inputSize := idim.2 in
  forN odim.1 (fun n ctx =>
    let base := getElementPtr (weights ctx (fc_src I)) [n] in
    forN odim.2 (fun i ctx =>
      let sum := fold_left (fun sum j =>
                   (sum + wRaw ctx (fc_src I) (base + j) * wAt ctx (fc_filter I) [i; j])%Q)
                   (seq 0 inputSize) 0%Q in
      wSetAt ctx (fc_dest I) [n; i] (sum + wAt ctx (fc_bias I) [i])%Q) ctx) ctx.

(** ** Activations *)

Definition fwdReluInst (ctx : Context) (I : SrcDestInst) : Context :=
  forN (size (weights ctx (sd_src I))) (fun i ctx =>
    let val := wRaw ctx (sd_src I) i in
    wSetRaw ctx (sd_dest I) i (if Qltb val 0 then 0%Q else val)) ctx.

Definition bwdReluInst (ctx : Context) (I : SrcDestInst) : Context :=
  forN (size (weights ctx (sd_dest I))) (fun i ctx =>
    let val := wRaw ctx (sd_dest I) i in
    gSetRaw ctx (sd_src I) i
      (gRaw ctx (sd_src I) i + (if Qle_bool val 0 then 0%Q else gRaw ctx (sd_dest I) i))%Q)
    ctx.

Definition fwdSigmoidInst (ctx : Context) (I : SrcDestInst) : Context :=
  forN (size (weights ctx (sd_dest I))) (fun i ctx =>
    let val := wRaw ctx (sd_src I) i in
    wSetRaw ctx (sd_dest I) i (1 / (1 + std_exp (- val)))%Q) ctx.

Definition fwdTanhInst (ctx : Context) (I : SrcDestInst) : Context :=
  forN (size (weights ctx (sd_src I))) (fun i ctx =>
    let val := wRaw ctx (sd_src I) i in
    let exp_val := std_exp val in
    let exp_neg_val := std_exp (- val)%Q in
    wSetRaw ctx (sd_dest I) i ((exp_val - exp_neg_val) / (exp_val + exp_neg_val))%Q) ctx.

(** ** SoftMax and regression *)

Record SoftMaxInst := mkSoftMaxInst {
  sm_src : Value; sm_dest : Value; sm_E : Value; sm_selected : Value }.

(** The exponentiation loop of row [n]: it writes [E(n, i)] and returns the
    accumulated [sum] with the context. *)
Definition softMaxExpLoop (ctx : Context) (I : SoftMaxInst) (n M : nat) (max : Q)
    : Q * Context :=
  fold_left (fun acc i =>
    let e := std_exp (wAt acc.2 (sm_src I) [n; i] - max)%Q in
    ((acc.1 + e)%Q, wSetAt acc.2 (sm_E I) [n; i] e))
    (seq 0 M) (0%Q, ctx).

Definition fwdSoftMaxInst (ctx : Context) (I : SoftMaxInst) : Context :=
  let idim := dims (weights ctx (sm_src I)) in
  forN (nth 0 idim 0) (fun n ctx =>
    let max := fold_left (fun max i => std_max max (wAt ctx (sm_src I) [n; i]))
                 (seq 0 (nth 1 idim 0)) (wAt ctx (sm_src I) [n; 0]) in
    let r := softMaxExpLoop ctx I n (nth 1 idim 0) max in
    let sum := r.1 in
    forN (nth 1 idim 0) (fun i ctx =>
      let ctx := wSetAt ctx (sm_E I) [n; i] (wAt ctx (sm_E I) [n; i] / sum)%Q in
      wSetAt ctx (sm_dest I) [n; i] (wAt ctx (sm_E I) [n; i])) r.2) ctx.

(** [delta] is [(selectedH.at({n, 0}) == i)] converted to [FloatTy]. *)
Definition bwdSoftMaxInst (ctx : Context) (I : SoftMaxInst) : Context :=
  let idim := dims (grads ctx (sm_src I)) in
  forN (nth 0 idim 0) (fun n =>
    forN (nth 1 idim 0) (fun i ctx =>
      let delta := if Nat.eqb (wAtI ctx (sm_selected I) [n; 0]) i then 1%Q else 0%Q in
      let sigma := (wAt ctx (sm_E I) [n; i] - delta)%Q in
      gSetAt ctx (sm_src I) [n; i] (gAt ctx (sm_src I) [n; i] + sigma)%Q)) ctx.

Record RegressionInst := mkRegressionInst {
  rg_src : Value; rg_dest : Value; rg_expected : Value }.

Definition fwdRegressionInst (ctx : Context) (I : RegressionInst) : Context :=
  forN (size (weights ctx (rg_src I))) (fun i ctx =>
    wSetRaw ctx (rg_dest I) i (wRaw ctx (rg_src I) i)) ctx.

(** ** Shape operations *)

(** Modelled from the spec: the coordinate of a flat index (row-major). *)
Fixpoint unflatten (ds : list nat) (i : nat) : list nat :=
  match ds with
  | [] => []
  | d :: ds' => (i / product ds') mod d :: unflatten ds' i
  end.

(** Modelled from the spec: [Handle::transpose(dst, shuffle)] resets [dst]
    to the permuted shape, axis [k] of [dst] being axis [shuffle[k]] of the
    source, and writes every element at its permuted coordinate. *)
Definition transposeTensor (t : Tensor) (shuffle : list nat) : Tensor :=
  let newDims := map (fun s => nth s (dims t) 0) shuffle in
  fold_left (fun d i =>
    let cs := unflatten (dims t) i in
    setAt d (map (fun s => nth s cs 0) shuffle) (raw t i))
    (seq 0 (size t)) (zeroTensor newDims).

Record TransposeInst := mkTransposeInst {
  tr_src : Value; tr_dest : Value; tr_shuffle : list nat }.

Definition fwdTransposeInst (ctx : Context) (I : TransposeInst) : Context :=
  setWeight ctx (tr_dest I) (transposeTensor (weights ctx (tr_src I)) (tr_shuffle I)).

Definition fwdReshapeInst (ctx : Context) (I : SrcDestInst) : Context :=
  forN (size (weights ctx (sd_src I))) (fun i ctx =>
    wSetRaw ctx (sd_dest I) i (wRaw ctx (sd_src I) i)) ctx.

(** Modelled from the spec: [insertTensors(src, offset)] writes every
    element of [src] into the destination at its coordinate plus [offset]. *)
Definition insertTensors (dest src : Tensor) (offset : list nat) : Tensor :=
  fold_left (fun d i =>
    setAt d (zip_with Nat.add (unflatten (dims src) i) offset) (raw src i))
    (seq 0 (size src)) dest.

(** Operand 0 of a concat is its destination, operands 1.. its inputs. *)
Record ConcatInst := mkConcatInst { cc_dest : Value; cc_inputs : list Value; cc_dim : nat }.

Definition fwdConcatInst (ctx : Context) (I : ConcatInst) : Context :=
  let offset := repeat 0 (size (weights ctx (cc_dest I))) in
  (fold_left (fun acc v =>
     let ctx := acc.1 in
     let offset := acc.2 in
     let inW := weights ctx v in
     let ctx := setWeight ctx (cc_dest I)
                  (insertTensors (weights ctx (cc_dest I)) inW offset) in
     (ctx, <[cc_dim I := offset !!! cc_dim I + nth (cc_dim I) (dims inW) 0]> offset))
    (cc_inputs I) (ctx, offset)).1.

(** ** Batch normalization *)

Record BatchNormalizationInst := mkBatchNormalizationInst {
  bn_src : Value; bn_dest : Value; bn_scale : Value; bn_bias : Value;
  bn_mean : Value; bn_var : Value;
  bn_channelIdx : nat; bn_epsilon : Q; bn_momentum : Q }.

Definition fwdBatchNormalizationInst_infer (ctx : Context) (I : BatchNormalizationInst)
    : Context :=
  forN (size (weights ctx (bn_src I))) (fun i ctx =>
    let channelId := getDimForPtr (weights ctx (bn_src I)) (bn_channelIdx I) i in
    let x := wRaw ctx (bn_src I) i in
    let mu := wAt ctx (bn_mean I) [channelId] in
    let var := wAt ctx (bn_var I) [channelId] in
    let stdvar := (1 / std_sqrt (var + bn_epsilon I))%Q in
    let gamma := wAt ctx (bn_scale I) [channelId] in
    let beta := wAt ctx (bn_bias I) [channelId] in
    wSetRaw ctx (bn_dest I) i ((x - mu) * gamma * stdvar + beta)%Q) ctx.

(** The local tensors [localMean] and [localVar] of the training forward. *)
Definition bnLocalMeanSums (inW : Tensor) (chIdx : nat) (lm : Tensor) : Tensor :=
  fold_left (fun lm i =>
    let channelId := getDimForPtr inW chIdx i in
    setRaw lm channelId (raw lm channelId + raw inW i)%Q)
    (seq 0 (size inW)) lm.

Definition bnDivide (t : Tensor) (e : nat) (spc : nat) : Tensor :=
  fold_left (fun t i => setAt t [i] (at' t [i] / float_of_size spc)%Q) (seq 0 e) t.

Definition bnLocalVarSums (inW : Tensor) (chIdx : nat) (lm lv : Tensor) : Tensor :=
  fold_left (fun lv i =>
    let channelId := getDimForPtr inW chIdx i in
    let v := (raw inW i - at' lm [channelId])%Q in
    setRaw lv channelId (raw lv channelId + v * v)%Q)
    (seq 0 (size inW)) lv.

Definition bnLocalMean (inW : Tensor) (I : BatchNormalizationInst) (meanH : Tensor) : Tensor :=
  let numChannels := nth (bn_channelIdx I) (dims inW) 0 in
  let samplesPerChannel := size inW / numChannels in
  let lm := bnLocalMeanSums inW (bn_channelIdx I) (zeroTensor (dims meanH)) in
  bnDivide lm (size lm) samplesPerChannel.

Definition bnLocalVar (inW : Tensor) (I : BatchNormalizationInst) (meanH varH : Tensor)
    : Tensor :=
  let numChannels := nth (bn_channelIdx I) (dims inW) 0 in
  let samplesPerChannel := size inW / numChannels in
  let lm := bnLocalMean inW I meanH in
  let lv := bnLocalVarSums inW (bn_channelIdx I) lm (zeroTensor (dims varH)) in
  bnDivide lv (size lm) samplesPerChannel.

(** The update of the running statistics with momentum [P]. *)
Definition bnUpdateRunning (ctx : Context) (I : BatchNormalizationInst) (lm lv : Tensor)
    : Context :=
  let P := bn_momentum I in
  forN (size lm) (fun i ctx =>
    let ctx := wSetAt ctx (bn_mean I) [i]
                 (P * at' lm [i] + (1 - P) * wAt ctx (bn_mean I) [i])%Q in
    wSetAt ctx (bn_var I) [i]
      (P * at' lv [i] + (1 - P) * wAt ctx (bn_var I) [i])%Q) ctx.

Definition fwdBatchNormalizationInst_train (ctx : Context) (I : BatchNormalizationInst)
    : Context :=
  let inW := weights ctx (bn_src I) in
  let varH := weights ctx (bn_var I) in
  let meanH := weights ctx (bn_mean I) in
  let lm := bnLocalMean inW I meanH in
  let lv := bnLocalVar inW I meanH varH in
  fwdBatchNormalizationInst_infer (bnUpdateRunning ctx I lm lv) I.

Definition fwdBatchNormalizationInst (ctx : Context) (isTrain : bool)
    (I : BatchNormalizationInst) : Context :=
  if isTrain then fwdBatchNormalizationInst_train ctx I
  else fwdBatchNormalizationInst_infer ctx I.

(** ** Local response normalization *)

Record LocalResponseNormalizationInst := mkLocalResponseNormalizationInst {
  lrn_src : Value; lrn_dest : Value; lrn_scale : Value;
  lrn_halfWindowSize : nat; lrn_alpha : Q; lrn_beta : Q; lrn_k : Q }.

Definition lrnChannelLoop (ctx : Context) (I : LocalResponseNormalizationInst)
    (C n h w : nat) (normedAlpha : Q) (squareSum : Q) : Q * Context :=
  let half := lrn_halfWindowSize I in
  fold_left (fun acc c =>
    let squareSum := acc.1 in
    let ctx := acc.2 in
    let scale := (lrn_k I + normedAlpha * squareSum)%Q in
    let ctx := wSetAt ctx (lrn_scale I) [n; h; w; c] scale in
    let normFactor := std_pow scale (- lrn_beta I)%Q in
    let ctx := wSetAt ctx (lrn_dest I) [n; h; w; c]
                 (wAt ctx (lrn_src I) [n; h; w; c] * normFactor)%Q in
    let sub := if half <=? c then wAt ctx (lrn_src I) [n; h; w; c - half] else 0%Q in
    let add := if c + half + 1 <? C then wAt ctx (lrn_src I) [n; h; w; c + half + 1]
               else 0%Q in
    ((squareSum - sub * sub + add * add)%Q, ctx))
    (seq 0 C) (squareSum, ctx).

Definition fwdLocalResponseNormalizationInst (ctx : Context)
    (I : LocalResponseNormalizationInst) : Context :=
  let idim := nhwc (dims (weights ctx (lrn_src I))) in
  let half := lrn_halfWindowSize I in
  let windowSize := 2 * half + 1 in
  let normedAlpha := (lrn_alpha I / float_of_size windowSize)%Q in
  forN (sn idim) (fun n =>
    forN (sh idim) (fun h =>
      forN (sw idim) (fun w ctx =>
        let squareSum :=
          fold_left (fun s c =>
            let val := wAt ctx (lrn_src I) [n; h; w; c] in (s + val * val)%Q)
            (seq 1 (Nat.min half (sc idim - 1))) 0%Q in
        (lrnChannelLoop ctx I (sc idim) n h w normedAlpha squareSum).2))) ctx.

(** ** Arithmetic *)

Inductive ArithKind := ArithAdd | ArithMul.

Record ArithmeticInst := mkArithmeticInst {
  ar_kind : ArithKind; ar_dest : Value; ar_LHS : Value; ar_RHS : Value }.

Definition fwdArithmeticInst (ctx : Context) (I : ArithmeticInst) : Context :=
  match ar_kind I with
  | ArithAdd =>
      forN (size (weights ctx (ar_dest I))) (fun i ctx =>
        wSetRaw ctx (ar_dest I) i (wRaw ctx (ar_LHS I) i + wRaw ctx (ar_RHS I) i)%Q) ctx
  | ArithMul =>
      forN (size (weights ctx (ar_dest I))) (fun i ctx =>
        wSetRaw ctx (ar_dest I) i (wRaw ctx (ar_LHS I) i * wRaw ctx (ar_RHS I) i)%Q) ctx
  end.

Definition bwdArithmeticInst (ctx : Context) (I : ArithmeticInst) : Context :=
  match ar_kind I with
  | ArithAdd =>
      forN (size (grads ctx (ar_dest I))) (fun i ctx =>
        let ctx := gSetRaw ctx (ar_LHS I) i (gRaw ctx (ar_dest I) i) in
        gSetRaw ctx (ar_RHS I) i (gRaw ctx (ar_dest I) i)) ctx
  | ArithMul =>
      forN (size (grads ctx (ar_dest I))) (fun i ctx =>
        let ctx := gSetRaw ctx (ar_LHS I) i (wRaw ctx (ar_RHS I) i * gRaw ctx (ar_dest I) i)%Q in
        gSetRaw ctx (ar_RHS I) i (wRaw ctx (ar_LHS I) i * gRaw ctx (ar_dest I) i)%Q) ctx
  end.

(** ** Forward dispatch over the primitives *)

Inductive Instr :=
  | ICopy (I : SrcDestInst)
  | IConvolution (I : ConvolutionInst)
  | IPool (I : PoolInst)
  | IFullyConnected (I : FullyConnectedInst)
  | IRelu (I : SrcDestInst)
  | ISigmoid (I : SrcDestInst)
  | ITanh (I : SrcDestInst)
  | ISoftMax (I : SoftMaxInst)
  | IRegression (I : RegressionInst)
  | ITranspose (I : TransposeInst)
  | IReshape (I : SrcDestInst)
  | IConcat (I : ConcatInst)
  | IBatchNormalization (I : BatchNormalizationInst)
  | ILocalResponseNormalization (I : LocalResponseNormalizationInst)
  | IArithmetic (I : ArithmeticInst).

Definition fwdInstr (ctx : Context) (isTrain : bool) (i : Instr) : Context :=
  match i with
  | ICopy J => fwdCopyInst ctx J
  | IConvolution J => fwdConvolutionInst ctx J
  | IPool J => fwdPoolInst ctx J
  | IFullyConnected J => fwdFullyConnectedInst ctx J
  | IRelu J => fwdReluInst ctx J
  | ISigmoid J => fwdSigmoidInst ctx J
  | ITanh J => fwdTanhInst ctx J
  | ISoftMax J => fwdSoftMaxInst ctx J
  | IRegression J => fwdRegressionInst ctx J
  | ITranspose J => fwdTransposeInst ctx J
  | IReshape J => fwdReshapeInst ctx J
  | IConcat J => fwdConcatInst ctx J
  | IBatchNormalization J => fwdBatchNormalizationInst ctx isTrain J
  | ILocalResponseNormalization J => fwdLocalResponseNormalizationInst ctx J
  | IArithmetic J => fwdArithmeticInst ctx J
  end.

End Kernels.

(** ** Scenario S1 of the spec: input (1,3,3,1) of ones, filter (1,2,2,1) of
    ones, bias [0], K = 2, S = 1, P = 0, dest of shape (1,2,2,1). *)

Definition emptyTensor : Tensor := mkTensor [] [] [].

Definition ones (ds : list nat) : Tensor := mkTensor ds (repeat 1%Q (product ds)) [].
Definition zeros (ds : list nat) : Tensor := mkTensor ds (repeat 0%Q (product ds)) [].

Definition s1_conv : ConvolutionInst := mkConvolutionInst 0 1 2 3 2 1 0.

Definition s1_weights (v : Value) : Tensor :=
  match v with
  | 0 => ones [1; 3; 3; 1]
  | 1 => zeros [1; 2; 2; 1]
  | 2 => ones [1; 2; 2; 1]
  | 3 => zeros [1]
  | _ => emptyTensor
  end.

Definition s1_grads (v : Value) : Tensor :=
  match v with
  | 0 => zeros [1; 3; 3; 1]
  | 1 => ones [1; 2; 2; 1]
  | 2 => zeros [1; 2; 2; 1]
  | 3 => zeros [1]
  | _ => emptyTensor
  end.

Definition s1_ctx : Context := mkContext s1_weights s1_grads.

(** Scenario S6 of the spec: LHS = [2], RHS = [3], outG = [1], and a
    pre-existing LHSG = [99]; value 0 is the destination, 1 the LHS, 2 the RHS. *)
Definition s6_mul : ArithmeticInst := mkArithmeticInst ArithMul 0 1 2.

Definition s6_ctx : Context :=
  mkContext
    (fun v => match v with
              | 0 => mkTensor [1] [6%Q] []
              | 1 => mkTensor [1] [2%Q] []
              | 2 => mkTensor [1] [3%Q] []
              | _ => emptyTensor end)
    (fun v => match v with
              | 0 => mkTensor [1] [1%Q] []
              | 1 => mkTensor [1] [99%Q] []
              | 2 => mkTensor [1] [0%Q] []
              | _ => emptyTensor end).

(** Scenario S4 of the spec: src = [-1, 0, 2], outG = [5, 7, 9], inG = 0. *)
Definition s4_relu : SrcDestInst := mkSrcDestInst 0 1.

Definition s4_ctx : Context :=
  mkContext
    (fun v => match v with
              | 0 => mkTensor [3] [(-1)%Q; 0%Q; 2%Q] []
              | 1 => zeros [3]
              | _ => emptyTensor end)
    (fun v => match v with
              | 0 => zeros [3]
              | 1 => mkTensor [3] [5%Q; 7%Q; 9%Q] []
              | _ => emptyTensor end).

(** Scenario S5: src (1,3) = [1,1,1], Sel = [0], zero inG. *)
Definition s5_sm : SoftMaxInst := mkSoftMaxInst 0 1 2 3.
Definition s5_ctx : Context :=
  mkContext
    (fun v => match v with
              | 0 => mkTensor [1; 3] [1%Q; 1%Q; 1%Q] []
              | 1 => zeros [1; 3]
              | 2 => zeros [1; 3]
              | 3 => mkTensor [1; 1] [] [0]
              | _ => emptyTensor end)
    (fun v => match v with
              | 0 => zeros [1; 3]
              | _ => emptyTensor end).


(** ** Loop nests as index lists *)

Definition nest {X : Type} (A : nat) (L : list X) : list (nat * X) :=
  flat_map (fun a => map (pair a) L) (seq 0 A).

(** Four nested loops [for a < A, b < B, c < C, d < D] as one loop over the
    tuples [(a, (b, (c, d)))] in lexicographic order. *)
Definition idx4 (A B C D : nat) : list (nat * (nat * (nat * nat))) :=
  nest A (nest B (nest C (seq 0 D))).


(** The window of output position [(x, y)] as the claims read it: the
    positions [(x + fx, y + fy)] in scan order ([fy] outer, [fx] inner), and
    those that lie inside the input. *)
Definition windowPositions (K : nat) (x y : Z) : list (Z * Z) :=
  flat_map (fun fy => map (fun fx => (x + Z.of_nat fx, y + Z.of_nat fy)%Z) (seq 0 K))
    (seq 0 K).

Definition inInput (idim : ShapeNHWC) (p : Z * Z) : bool :=
  (0 <=? p.1)%Z && (p.1 <? Z.of_nat (sh idim))%Z &&
  (0 <=? p.2)%Z && (p.2 <? Z.of_nat (sw idim))%Z.

Definition validWindow (idim : ShapeNHWC) (K : nat) (x y : Z) : list (Z * Z) :=
  List.filter (inInput idim) (windowPositions K x y).

(** The sum of [f] over a list, accumulated from 0 in list order. *)
Definition sumQ {X : Type} (f : X -> Q) (l : list X) : Q :=
  fold_left (fun s p => (s + f p)%Q) l 0%Q.

(** Scenario: AvgPool with K = 2, S = 1, P = 1 on a 2x2 all-ones input. *)
Definition s9_pool : PoolInst := mkPoolInst PoolAvg 0 1 2 2 1 1.
Definition s9_ctx : Context :=
  mkContext
    (fun v => match v with
              | 0 => ones [1; 2; 2; 1]
              | 1 => zeros [1; 3; 3; 1]
              | _ => emptyTensor end)
    (fun _ => emptyTensor).


(** The update of the max-pooling scan at a valid position [p] whose value
    is [f p]. *)
Definition maxSelect (f : Z * Z -> Q) (st : MaxScan) (p : Z * Z) : MaxScan :=
  if ms_first st || Qle_bool (ms_max st) (f p)
  then mkMaxScan false (f p) (Z.to_nat p.1) (Z.to_nat p.2) else st.

(** Scenario: MaxPool with K = 2, S = 1, P = 0 on a 2x2 input with a tie. *)
Definition s10_pool : PoolInst := mkPoolInst PoolMax 0 1 2 2 1 0.
Definition s10_ctx : Context :=
  mkContext
    (fun v => match v with
              | 0 => mkTensor [1; 2; 2; 1] [1%Q; 3%Q; 3%Q; 2%Q] []
              | 1 => zeros [1; 1; 1; 1]
              | 2 => mkTensor [1; 1; 1; 1; 2] [] [0; 0]
              | _ => emptyTensor end)
    (fun _ => emptyTensor).

(** The per-channel statistics as the claim states them: the sum of [g i]
    over the flat indices [i] of [t] whose coordinate along axis [chIdx] is
    [c], and the local mean and variance of channel [c] over
    [samplesPerChannel = size / numChannels] samples. *)
Definition chanSum (t : Tensor) (chIdx c : nat) (g : nat -> Q) : Q :=
  fold_left (fun s i => if Nat.eqb (getDimForPtr t chIdx i) c then (s + g i)%Q else s)
    (seq 0 (size t)) 0%Q.

Definition samplesPerChannel (t : Tensor) (chIdx : nat) : nat :=
  size t / nth chIdx (dims t) 0.

Definition localMeanSpec (t : Tensor) (chIdx c : nat) : Q :=
  (chanSum t chIdx c (raw t) / float_of_size (samplesPerChannel t chIdx))%Q.

Definition localVarSpec (t : Tensor) (chIdx c : nat) : Q :=
  (chanSum t chIdx c (fun i => (raw t i - localMeanSpec t chIdx c) *
                               (raw t i - localMeanSpec t chIdx c))
   / float_of_size (samplesPerChannel t chIdx))%Q.
(** Scenario for the batch-normalization training step: a (2,1) input
    [1; 3] with one channel along axis 1, unit scale, zero bias, zero running
    statistics, momentum 1/2 and epsilon 0. *)

Definition s3_bn : BatchNormalizationInst :=
  mkBatchNormalizationInst 0 1 2 3 4 5 1 0 (1 # 2).

Definition s3_ctx : Context :=
  mkContext
    (fun v => match v with
              | 0 => mkTensor [2; 1] [1%Q; 3%Q] []
              | 1 => zeros [2; 1]
              | 2 => ones [1]
              | 3 => zeros [1]
              | 4 => zeros [1]
              | 5 => zeros [1]
              | _ => emptyTensor end)
    (fun _ => emptyTensor).

(** Row [n] of the SoftMax input as [fwdSoftMaxInst] reads it: the running
    maximum (started at element [0]) and the sum of the exponentials of the
    shifted elements. *)
Definition smRowMax (ctx : Context) (I : SoftMaxInst) (n M : nat) : Q :=
  fold_left (fun max i => std_max max (wAt ctx (sm_src I) [n; i]))
    (seq 0 M) (wAt ctx (sm_src I) [n; 0]).

Definition smRowSum (std_exp : Q -> Q) (ctx : Context) (I : SoftMaxInst) (n M : nat) : Q :=
  fold_left (fun s i => (s + std_exp (wAt ctx (sm_src I) [n; i] - smRowMax ctx I n M))%Q)
    (seq 0 M) 0%Q.

(** [c'] differs from [c] at most in the elements [(n, j)], [j < M], of the
    SoftMax outputs [dest] and [E], both of shape [(N, M)]. *)
Definition smRowFrame (I : SoftMaxInst) (N M n : nat) (c c' : Context) : Prop :=
  (forall u, u <> sm_dest I -> u <> sm_E I -> weights c' u = weights c u) /\
  (forall v, v = sm_dest I \/ v = sm_E I ->
     dims (weights c' v) = dims (weights c v) /\
     length (fdata (weights c' v)) = length (fdata (weights c v)) /\
     forall n' i, n' <> n -> i < M -> wAt c' v [n'; i] = wAt c v [n'; i]).

(** Scenario S5 with every element of row 0 of the input raised by 2. *)
Definition s5_shifted_ctx : Context :=
  mkContext
    (fun v => match v with
              | 0 => mkTensor [1; 3] [3%Q; 3%Q; 3%Q] []
              | _ => weights s5_ctx v end)
    (grads s5_ctx).


(** ** Backward kernels not used by the forward dispatch *)

Section BackwardKernels.

Variable std_sqrt : Q -> Q.
Variable std_pow : Q -> Q -> Q.

Definition bwdCopyInst (ctx : Context) (I : SrcDestInst) : Context :=
  forN (size (grads ctx (sd_dest I))) (fun i ctx =>
    gSetRaw ctx (sd_src I) i (gRaw ctx (sd_src I) i + gRaw ctx (sd_dest I) i)%Q) ctx.

Definition bwdSigmoidInst (ctx : Context) (I : SrcDestInst) : Context :=
  forN (size (weights ctx (sd_dest I))) (fun i ctx =>
    let val := wRaw ctx (sd_dest I) i in
    gSetRaw ctx (sd_src I) i
      (gRaw ctx (sd_src I) i + val * (1 - val) * gRaw ctx (sd_dest I) i)%Q) ctx.

Definition bwdTanhInst (ctx : Context) (I : SrcDestInst) : Context :=
  forN (size (weights ctx (sd_dest I))) (fun i ctx =>
    let val := wRaw ctx (sd_dest I) i in
    gSetRaw ctx (sd_src I) i
      (gRaw ctx (sd_src I) i + (1 - val * val) * gRaw ctx (sd_dest I) i)%Q) ctx.

Definition bwdReshapeInst (ctx : Context) (I : SrcDestInst) : Context :=
  forN (size (weights ctx (sd_dest I))) (fun i ctx =>
    gSetRaw ctx (sd_src I) i (gRaw ctx (sd_src I) i + gRaw ctx (sd_dest I) i)%Q) ctx.

(** The [assert] on the rank of the input is not part of a release build. *)
Definition bwdRegressionInst (ctx : Context) (I : RegressionInst) : Context :=
  let idim := dims (weights ctx (rg_src I)) in
  forN (nth 0 idim 0) (fun n =>
    forN (nth 1 idim 0) (fun i ctx =>
      let dy := (wAt ctx (rg_src I) [n; i] - wAt ctx (rg_expected I) [n; i])%Q in
      gSetAt ctx (rg_src I) [n; i] (gAt ctx (rg_src I) [n; i] + dy)%Q)) ctx.

Definition bwdFullyConnectedInst (ctx : Context) (I : FullyConnectedInst) : Context :=
  let odim := flattenCdr (dims (weights ctx (fc_dest I))) in
  let idim := flattenCdr (dims (weights ctx (fc_src I))) in
  let inSize := idim.2 in
  forN odim.1 (fun n ctx =>
    let base := getElementPtr (weights ctx (fc_src I)) [n] in
    forN odim.2 (fun i ctx =>
      let chainGrad := gAt ctx (fc_dest I) [n; i] in
      let ctx :=
        forN inSize (fun j ctx =>
          let ctx := gSetRaw ctx (fc_src I) (base + j)
                       (gRaw ctx (fc_src I) (base + j) + wAt ctx (fc_filter I) [i; j] * chainGrad)%Q in
          gSetAt ctx (fc_filter I) [i; j]
            (gAt ctx (fc_filter I) [i; j] + wRaw ctx (fc_src I) (base + j) * chainGrad)%Q) ctx in
      gSetAt ctx (fc_bias I) [i] (gAt ctx (fc_bias I) [i] + chainGrad)%Q) ctx) ctx.




(** [reverseShuffle[shuffle[i]] = i] over a copy of [shuffle]. *)
Definition reverseShuffle (shuffle : list nat) : list nat :=
  fold_left (fun rs i => <[shuffle !!! i := i]> rs) (seq 0 (length shuffle)) shuffle.

(** [outG.transpose(inG, reverseShuffle)] replaces the gradient of the
    source. *)
Definition bwdTransposeInst (ctx : Context) (I : TransposeInst) : Context :=
  setGrad ctx (tr_src I)
    (transposeTensor (grads ctx (tr_dest I)) (reverseShuffle (tr_shuffle I))).

(** The per-channel accumulators [dyhmu] and [sumDy], fresh zero tensors of
    the shape of [mean]. *)
Definition bnSumDyHmu (ctx : Context) (I : BatchNormalizationInst) : Tensor :=
  let inW := weights ctx (bn_src I) in
  let meanH := weights ctx (bn_mean I) in
  fold_left (fun t i =>
    let channelId := getDimForPtr inW (bn_channelIdx I) i in
    let cx := (raw inW i - at' meanH [channelId])%Q in
    setAt t [channelId] (at' t [channelId] + gRaw ctx (bn_dest I) i * cx)%Q)
    (seq 0 (size inW)) (zeroTensor (dims meanH)).

Definition bnSumDy (ctx : Context) (I : BatchNormalizationInst) : Tensor :=
  let inW := weights ctx (bn_src I) in
  let meanH := weights ctx (bn_mean I) in
  fold_left (fun t i =>
    let channelId := getDimForPtr inW (bn_channelIdx I) i in
    setAt t [channelId] (at' t [channelId] + gRaw ctx (bn_dest I) i)%Q)
    (seq 0 (size inW)) (zeroTensor (dims meanH)).

Definition bwdBatchNormalizationInst (ctx : Context) (I : BatchNormalizationInst) : Context :=
  let inW := weights ctx (bn_src I) in
  let channelIdx := bn_channelIdx I in
  let epsilon := bn_epsilon I in
  let dyhmuH := bnSumDyHmu ctx I in
  let sumDyH := bnSumDy ctx I in
  let numChannels := nth channelIdx (dims inW) 0 in
  let samplesPerChannel := size inW / numChannels in
  let ctx :=
    forN (size inW) (fun i ctx =>
      let channelId := getDimForPtr inW channelIdx i in
      let invN := (1 / float_of_size samplesPerChannel)%Q in
      let gamma := wAt ctx (bn_scale I) [channelId] in
      let var := wAt ctx (bn_var I) [channelId] in
      let mu := wAt ctx (bn_mean I) [channelId] in
      let invVarSqrt := (1 / std_sqrt (var + epsilon))%Q in
      let invVar := (1 / (var + epsilon))%Q in
      let dy := gRaw ctx (bn_dest I) i in
      let hmu := (wRaw ctx (bn_src I) i - mu)%Q in
      let sdy := at' sumDyH [channelId] in
      let sdyhmu := at' dyhmuH [channelId] in
      gSetRaw ctx (bn_src I) i
        (gRaw ctx (bn_src I) i + invN * gamma * invVarSqrt *
           (float_of_size samplesPerChannel * dy - sdy - hmu * invVar * sdyhmu))%Q) ctx in
  forN (size inW) (fun i ctx =>
    let channelId := getDimForPtr inW channelIdx i in
    let mu := wAt ctx (bn_mean I) [channelId] in
    let var := wAt ctx (bn_var I) [channelId] in
    let invVarSqrt := (1 / std_sqrt (var + epsilon))%Q in
    let ctx := gSetAt ctx (bn_bias I) [channelId]
                 (gAt ctx (bn_bias I) [channelId] + gRaw ctx (bn_dest I) i)%Q in
    gSetAt ctx (bn_scale I) [channelId]
      (gAt ctx (bn_scale I) [channelId] +
       (wRaw ctx (bn_src I) i - mu) * invVarSqrt * gRaw ctx (bn_dest I) i)%Q) ctx.

(** The channel loop of the LRN backward: the running [sum] with the
    context. *)
Definition lrnBwdChannelLoop (ctx : Context) (I : LocalResponseNormalizationInst)
    (C n h w : nat) (normedAlpha : Q) (sum : Q) : Q * Context :=
  let half := lrn_halfWindowSize I in
  let beta := lrn_beta I in
  fold_left (fun acc c =>
    let sum := acc.1 in
    let ctx := acc.2 in
    let outg := gAt ctx (lrn_dest I) [n; h; w; c] in
    let scale := wAt ctx (lrn_scale I) [n; h; w; c] in
    let inw := wAt ctx (lrn_src I) [n; h; w; c] in
    let ctx := gSetAt ctx (lrn_src I) [n; h; w; c]
                 (outg * std_pow scale (- beta) - 2 * normedAlpha * beta * inw * sum)%Q in
    let sum :=
      if half <=? c then
        let outw := wAt ctx (lrn_dest I) [n; h; w; c - half] in
        let scale := wAt ctx (lrn_scale I) [n; h; w; c - half] in
        let outg := gAt ctx (lrn_dest I) [n; h; w; c - half] in
        (sum - outg * (outw / scale))%Q
      else sum in
    let sum :=
      if c + half + 1 <? C then
        let outw := wAt ctx (lrn_dest I) [n; h; w; c + half + 1] in
        let scale := wAt ctx (lrn_scale I) [n; h; w; c + half + 1] in
        let outg := gAt ctx (lrn_dest I) [n; h; w; c + half + 1] in
        (sum + outg * (outw / scale))%Q
      else sum in
    (sum, ctx))
    (seq 0 C) (sum, ctx).

Definition bwdLocalResponseNormalizationInst (ctx : Context)
    (I : LocalResponseNormalizationInst) : Context :=
  let odim := nhwc (dims (weights ctx (lrn_dest I))) in
  let half := lrn_halfWindowSize I in
  let windowSize := 2 * half + 1 in
  let normedAlpha := (lrn_alpha I / float_of_size windowSize)%Q in
  forN (sn odim) (fun n =>
    forN (sh odim) (fun h =>
      forN (sw odim) (fun w ctx =>
        let sum :=
          fold_left (fun s c =>
            let outw := wAt ctx (lrn_dest I) [n; h; w; c] in
            let scale := wAt ctx (lrn_scale I) [n; h; w; c] in
            let outg := gAt ctx (lrn_dest I) [n; h; w; c] in
            (s + outg * (outw / scale))%Q)
            (seq 1 (Nat.min half (sc odim - 1))) 0%Q in
        (lrnBwdChannelLoop ctx I (sc odim) n h w normedAlpha sum).2))) ctx.

End BackwardKernels.

(** Scenario: a Regression of the rows [3, 5] against [1, 1]; value 0 is the
    input, 1 the output, 2 the expected values. *)
Definition ex_regr : RegressionInst := mkRegressionInst 0 1 2.

Definition ex_regr_ctx : Context :=
  mkContext
    (fun v => match v with
              | 0 => mkTensor [1; 2] [3%Q; 5%Q] []
              | 1 => zeros [1; 2]
              | 2 => mkTensor [1; 2] [1%Q; 1%Q] []
              | _ => emptyTensor end)
    (fun v => match v with
              | 0 => zeros [1; 2]
              | 1 => zeros [1; 2]
              | _ => emptyTensor end).

(** Scenario: a FullyConnected layer from a (1, 2) input [1, 2] to a (1, 2)
    output, filter [[1, 2], [3, 4]], bias [10, 20], output gradient [1, 1];
    values 0 to 3 are the input, output, filter and bias. *)
Definition ex_fc : FullyConnectedInst := mkFullyConnectedInst 0 1 2 3.

Definition ex_fc_ctx : Context :=
  mkContext
    (fun v => match v with
              | 0 => mkTensor [1; 2] [1%Q; 2%Q] []
              | 1 => zeros [1; 2]
              | 2 => mkTensor [2; 2] [1%Q; 2%Q; 3%Q; 4%Q] []
              | 3 => mkTensor [2] [10%Q; 20%Q] []
              | _ => emptyTensor end)
    (fun v => match v with
              | 0 => zeros [1; 2]
              | 1 => mkTensor [1; 2] [1%Q; 1%Q] []
              | 2 => zeros [2; 2]
              | 3 => zeros [2]
              | _ => emptyTensor end).

(** Scenario: the BatchNormalization of S3 with output gradient [1, 2] and
    zero input, scale and bias gradients. *)
Definition ex_bn_ctx : Context :=
  mkContext (weights s3_ctx)
    (fun v => match v with
              | 0 => zeros [2; 1]
              | 1 => mkTensor [2; 1] [1%Q; 2%Q] []
              | 2 => zeros [1]
              | 3 => zeros [1]
              | _ => emptyTensor end).

(** Scenario: a Transpose of a (2, 3) tensor [1 .. 6] with shuffle (1, 0),
    and an output gradient of shape (3, 2). *)
Definition ex_tr : TransposeInst := mkTransposeInst 0 1 [1; 0].

Definition ex_tr_ctx : Context :=
  mkContext
    (fun v => match v with
              | 0 => mkTensor [2; 3] [1%Q; 2%Q; 3%Q; 4%Q; 5%Q; 6%Q] []
              | 1 => zeros [3; 2]
              | _ => emptyTensor end)
    (fun v => match v with
              | 0 => zeros [2; 3]
              | 1 => mkTensor [3; 2] [1%Q; 2%Q; 3%Q; 4%Q; 5%Q; 6%Q] []
              | _ => emptyTensor end).




(** Scenario: Add backward with both operands the value 1 (computing
    [x + x]), on the contexts of Scenario S6. *)
Definition ex_add_self : ArithmeticInst := mkArithmeticInst ArithAdd 0 1 1.


(** Scenario: Concat along axis 0 of the inputs [1, 2] and [3, 4, 5] into a
    destination of shape (5). *)
Definition ex_concat : ConcatInst := mkConcatInst 0 [1; 2] 0.

Definition ex_concat_ctx : Context :=
  mkContext
    (fun v => match v with
              | 0 => zeros [5]
              | 1 => mkTensor [2] [1%Q; 2%Q] []
              | 2 => mkTensor [3] [3%Q; 4%Q; 5%Q] []
              | _ => emptyTensor end)
    (fun _ => emptyTensor).

Definition ex_lrn : LocalResponseNormalizationInst :=
  mkLocalResponseNormalizationInst 0 2 1 1 3 1 1.

Definition ex_lrn_ctx : Context :=
  mkContext
    (fun v => match v with
              | 0 => mkTensor [1; 1; 1; 3] [1%Q; 2%Q; 3%Q] []
              | 1 => zeros [1; 1; 1; 3]
              | 2 => zeros [1; 1; 1; 3]
              | _ => emptyTensor end)
    (fun _ => emptyTensor).

(** A coordinate within the extents [ds]. *)
Definition inBounds (ds cs : list nat) : Prop :=
  length cs = length ds /\ forall k, k < length ds -> nth k cs 0 < nth k ds 0.

(** * Generic lemmas *)

Lemma fold_left_grads {A B : Type} (g : A -> Context) (f : A -> B -> A) (l : list B) (a : A) :
  (forall a b, grads (g (f a b)) = grads (g a)) ->
  grads (g (fold_left f l a)) = grads (g a).
Proof.
  intros Hf. revert a. induction l as [|b l IH]; intros a; simpl; [done|].
  rewrite IH. apply Hf.
Qed.

Lemma forN_grads (n : nat) (body : nat -> Context -> Context) (ctx : Context) :
  (forall i c, grads (body i c) = grads c) -> grads (forN n body ctx) = grads ctx.
Proof. intros Hb. apply (fold_left_grads id). intros; apply Hb. Qed.

Lemma forN_S (n : nat) (body : nat -> Context -> Context) (ctx : Context) :
  forN (S n) body ctx = body n (forN n body ctx).
Proof. unfold forN. rewrite seq_S, fold_left_app. reflexivity. Qed.

(** Loop invariants. *)
Lemma forN_inv (P : Context -> Prop) (n : nat) (body : nat -> Context -> Context)
    (ctx : Context) :
  P ctx -> (forall i c, i < n -> P c -> P (body i c)) -> P (forN n body ctx).
Proof.
  intros H0 Hb. induction n as [|n IH]; [exact H0|].
  rewrite forN_S. apply Hb; [lia|]. apply IH. intros i c Hi. apply Hb. lia.
Qed.

(** The iteration [i0] of a loop establishes [Q]; the other iterations keep it. *)
Lemma forN_point (Inv Q : Context -> Prop) (n i0 : nat)
    (body : nat -> Context -> Context) (ctx : Context) :
  i0 < n -> Inv ctx ->
  (forall i c, i < n -> Inv c -> Inv (body i c)) ->
  (forall c, Inv c -> Q (body i0 c)) ->
  (forall i c, i < n -> i <> i0 -> Inv c -> Q c -> Q (body i c)) ->
  Q (forN n body ctx).
Proof.
  intros Hi0 H0 Hinv Hset Hkeep. induction n as [|n IH]; [lia|].
  rewrite forN_S. destruct (decide (n = i0)) as [->|Hne].
  - apply Hset. apply forN_inv; [done|]. intros i c Hi. apply Hinv. lia.
  - apply Hkeep; [lia|done| |].
    + apply forN_inv; [done|]. intros i c Hi. apply Hinv. lia.
    + apply IH; [lia| |].
      * intros i c Hi. apply Hinv. lia.
      * intros i c Hi. apply Hkeep. lia.
Qed.

Ltac grads_tac :=
  repeat first
    [ progress cbv beta zeta
    | progress cbn [grads setWeight wSetAt wSetAtI wSetRaw fst snd]
    | reflexivity
    | rewrite forN_grads; [| intros ? ?]
    | match goal with
      | |- grads (fold_left ?f ?l ?a).2 = _ =>
          rewrite (fold_left_grads snd f l a); [| intros [? ?] ?]
      | |- grads (fold_left ?f ?l ?a).1 = _ =>
          rewrite (fold_left_grads fst f l a); [| intros [? ?] ?]
      | |- grads (fold_left ?f ?l ?a) = _ =>
          rewrite (fold_left_grads id f l a); [| intros ? ?]
      | |- grads (if ?b then _ else _) = _ => destruct b
      | |- grads (match ?b with _ => _ end) = _ => destruct b
      end ].

Lemma fwdConvolutionInst_grads (ctx : Context) (I : ConvolutionInst) :
  grads (fwdConvolutionInst ctx I) = grads ctx.
Proof. unfold fwdConvolutionInst. grads_tac. Qed.

Theorem fwd_kernels_leave_gradients_unchanged
    (std_exp std_sqrt : Q -> Q) (std_pow : Q -> Q -> Q)
    (ctx : Context) (isTrain : bool) (i : Instr) :
  grads (fwdInstr std_exp std_sqrt std_pow ctx isTrain i) = grads ctx.
Proof.
  destruct i as [J|J|J|J|J|J|J|J|J|J|J|J|J|J|J]; cbn [fwdInstr].
  - unfold fwdCopyInst. grads_tac.
  - apply fwdConvolutionInst_grads.
  - unfold fwdPoolInst. destruct (pl_kind J).
    + unfold fwdPoolMax_impl. grads_tac.
    + unfold fwdPoolAvg_impl. grads_tac.
  - unfold fwdFullyConnectedInst. grads_tac.
  - unfold fwdReluInst. grads_tac.
  - unfold fwdSigmoidInst. grads_tac.
  - unfold fwdTanhInst. grads_tac.
  - unfold fwdSoftMaxInst. grads_tac. all: unfold softMaxExpLoop; grads_tac.
  - unfold fwdRegressionInst. grads_tac.
  - unfold fwdTransposeInst. grads_tac.
  - unfold fwdReshapeInst. grads_tac.
  - unfold fwdConcatInst. grads_tac.
  - unfold fwdBatchNormalizationInst. destruct isTrain.
    + unfold fwdBatchNormalizationInst_train, fwdBatchNormalizationInst_infer,
        bnUpdateRunning. grads_tac.
    + unfold fwdBatchNormalizationInst_infer. grads_tac.
  - unfold fwdLocalResponseNormalizationInst. grads_tac.
    all: unfold lrnChannelLoop; grads_tac.
  - unfold fwdArithmeticInst. destruct (ar_kind J); grads_tac.
Qed.

(** C1 (code_bug): on scenario S1 (input 3x3, filter 2x2, stride 1, no
    padding, output 2x2) the forward skips the window positions with
    [x + fx = 2] or [y + fy = 2], although they lie inside the 3x3 input:
    the padding test compares against the output extents.  The code writes
    [4, 2, 2, 1]; the claim's rule (every position inside the input range,
    then the bias) gives 4 at [dest(0, 1, 0, 0)], where the code writes 2. *)
Theorem conv_fwd_s1_skips_input_positions :
  fdata (weights (fwdConvolutionInst s1_ctx s1_conv) 1) = [4; 2; 2; 1]%Q /\
  wAt (fwdConvolutionInst s1_ctx s1_conv) 1 [0; 1; 0; 0] = 2%Q /\
  Qplus (convClaimSum s1_ctx s1_conv (nhwc (dims (s1_weights 0))) 0 0
           (anchor 0 1 1) (anchor 0 1 0)) (wAt s1_ctx 3 [0]) = 4%Q.
Proof. vm_compute. repeat split. Qed.

(** C2 (code_bug): the backward uses the same padding test against the
    output extents.  On scenario S1 with an upstream gradient of ones, the
    filter gradient becomes [4, 2, 2, 1] (the claim's rule gives 4 for every
    filter position) and the input gradient at the in-range position
    (0, 0, 2, 0) stays 0 (the claim's rule adds filter(0, 1, 1, 0) * 1 = 1
    from the window at ax = 0, ay = 1). *)
Theorem conv_bwd_s1_skips_input_positions :
  fdata (grads (bwdConvolutionInst s1_ctx s1_conv) 2) = [4; 2; 2; 1]%Q /\
  fdata (grads (bwdConvolutionInst s1_ctx s1_conv) 0) = [1; 2; 0; 2; 4; 0; 0; 0; 0]%Q.
Proof. vm_compute. split; reflexivity. Qed.

(** * Accessor lemmas *)

Lemma weights_setGrad (c : Context) (v : Value) (t : Tensor) :
  weights (setGrad c v t) = weights c.
Proof. reflexivity. Qed.

Lemma grads_setWeight (c : Context) (v : Value) (t : Tensor) :
  grads (setWeight c v t) = grads c.
Proof. reflexivity. Qed.

Lemma grads_setGrad_eq (c : Context) (v : Value) (t : Tensor) :
  grads (setGrad c v t) v = t.
Proof. cbn. by rewrite decide_True. Qed.

Lemma grads_setGrad_ne (c : Context) (u v : Value) (t : Tensor) :
  u <> v -> grads (setGrad c v t) u = grads c u.
Proof. intros H. cbn. by rewrite decide_False. Qed.

Lemma weights_setWeight_eq (c : Context) (v : Value) (t : Tensor) :
  weights (setWeight c v t) v = t.
Proof. cbn. by rewrite decide_True. Qed.

Lemma weights_setWeight_ne (c : Context) (u v : Value) (t : Tensor) :
  u <> v -> weights (setWeight c v t) u = weights c u.
Proof. intros H. cbn. by rewrite decide_False. Qed.

Lemma raw_setRaw_eq (t : Tensor) (i : nat) (x : Q) :
  i < length (fdata t) -> raw (setRaw t i x) i = x.
Proof. intros H. unfold raw, setRaw. cbn. by apply list_lookup_total_insert_eq. Qed.

Lemma raw_setRaw_ne (t : Tensor) (i j : nat) (x : Q) :
  i <> j -> raw (setRaw t i x) j = raw t j.
Proof. intros H. unfold raw, setRaw. cbn. by apply list_lookup_total_insert_ne. Qed.

Lemma length_setRaw (t : Tensor) (i : nat) (x : Q) :
  length (fdata (setRaw t i x)) = length (fdata t).
Proof. unfold setRaw. cbn. apply length_insert. Qed.

Lemma dims_setRaw (t : Tensor) (i : nat) (x : Q) : dims (setRaw t i x) = dims t.
Proof. reflexivity. Qed.

Lemma dims_setAtI (t : Tensor) (cs : list nat) (x : nat) : dims (setAtI t cs x) = dims t.
Proof. reflexivity. Qed.

Lemma fdata_setAtI (t : Tensor) (cs : list nat) (x : nat) : fdata (setAtI t cs x) = fdata t.
Proof. reflexivity. Qed.

Lemma gRaw_gSetRaw (c : Context) (u v : Value) (i j : nat) (x : Q) :
  gRaw (gSetRaw c v i x) u j =
  if decide (u = v) then raw (setRaw (grads c v) i x) j else gRaw c u j.
Proof.
  unfold gRaw, gSetRaw. destruct (decide (u = v)) as [->|Hne].
  - by rewrite grads_setGrad_eq.
  - by rewrite grads_setGrad_ne.
Qed.

Lemma length_gSetRaw (c : Context) (u v : Value) (i : nat) (x : Q) :
  length (fdata (grads (gSetRaw c v i x) u)) = length (fdata (grads c u)).
Proof.
  unfold gSetRaw. destruct (decide (u = v)) as [->|Hne].
  - rewrite grads_setGrad_eq. apply length_setRaw.
  - by rewrite grads_setGrad_ne.
Qed.

(** * C8: Arithmetic Mul backward *)

(** C8: for every flat index [i], the Mul backward sets
    [LHSG(i) = RHS(i) * outG(i)] and [RHSG(i) = LHS(i) * outG(i)],
    whatever the gradients held before (the destination being an IR value
    other than the operands and the three gradients having one shape); on
    scenario S6 (LHS = [2], RHS = [3], outG = [1], LHSG = [99]) it leaves
    LHSG = [3] and RHSG = [2]. *)
Theorem arith_mul_bwd_overwrites :
  (forall (ctx : Context) (I : ArithmeticInst) (i : nat),
     ar_kind I = ArithMul ->
     ar_dest I <> ar_LHS I -> ar_dest I <> ar_RHS I ->
     length (fdata (grads ctx (ar_LHS I))) = size (grads ctx (ar_dest I)) ->
     length (fdata (grads ctx (ar_RHS I))) = size (grads ctx (ar_dest I)) ->
     i < size (grads ctx (ar_dest I)) ->
     gRaw (bwdArithmeticInst ctx I) (ar_LHS I) i
       = (wRaw ctx (ar_RHS I) i * gRaw ctx (ar_dest I) i)%Q /\
     gRaw (bwdArithmeticInst ctx I) (ar_RHS I) i
       = (wRaw ctx (ar_LHS I) i * gRaw ctx (ar_dest I) i)%Q) /\
  fdata (grads (bwdArithmeticInst s6_ctx s6_mul) 1) = [3%Q] /\
  fdata (grads (bwdArithmeticInst s6_ctx s6_mul) 2) = [2%Q].
Proof.
  split; [|vm_compute; split; reflexivity].
  intros ctx I i0 Hk HdL HdR HL HR Hi0.
  unfold bwdArithmeticInst. rewrite Hk.
  set (n := size (grads ctx (ar_dest I))) in *.
  set (L := ar_LHS I) in *. set (R := ar_RHS I) in *. set (D := ar_dest I) in *.
  apply (forN_point
    (fun c => weights c = weights ctx /\ grads c D = grads ctx D /\
              length (fdata (grads c L)) = n /\ length (fdata (grads c R)) = n)
    (fun c => gRaw c L i0 = (wRaw ctx R i0 * gRaw ctx D i0)%Q /\
              gRaw c R i0 = (wRaw ctx L i0 * gRaw ctx D i0)%Q)
    n i0); [done|done| | |].
  - intros i c Hi (Hw & Hd & HcL & HcR). cbv beta zeta. split_and!.
    + done.
    + unfold gSetRaw. rewrite !grads_setGrad_ne; done.
    + rewrite !length_gSetRaw. done.
    + rewrite !length_gSetRaw. done.
  - intros c (Hw & Hd & HcL & HcR). cbv beta zeta.
    unfold wRaw, gRaw, gSetRaw. rewrite !weights_setGrad, Hw.
    destruct (decide (L = R)) as [E|NE].
    + rewrite <- E in *. rewrite !grads_setGrad_eq.
      rewrite grads_setGrad_ne by done. rewrite Hd.
      rewrite raw_setRaw_eq by (rewrite ?length_setRaw; lia). split; reflexivity.
    + rewrite grads_setGrad_ne by done. rewrite !grads_setGrad_eq.
      rewrite !grads_setGrad_ne by done.
      rewrite !raw_setRaw_eq by (rewrite ?length_setRaw; lia).
      rewrite Hd. split; reflexivity.
  - intros i c Hi Hne (Hw & Hd & HcL & HcR) [HQL HQR]. cbv beta zeta.
    unfold gRaw, gSetRaw in *.
    fold wRaw in *. rewrite ?weights_setGrad.
    destruct (decide (L = R)) as [E|NE].
    + rewrite <- E in *.
      repeat first [rewrite grads_setGrad_eq | rewrite grads_setGrad_ne by congruence].
      rewrite !raw_setRaw_ne by congruence. split; assumption.
    + repeat first [rewrite grads_setGrad_eq | rewrite grads_setGrad_ne by congruence].
      rewrite !raw_setRaw_ne by congruence. split; assumption.
Qed.

(** A stronger form of [forN_point]: [U] (the target position untouched)
    holds until iteration [i0], which turns it into [Q]. *)
Lemma forN_point_from (Inv U Q : Context -> Prop) (n i0 : nat)
    (body : nat -> Context -> Context) (ctx : Context) :
  i0 < n -> Inv ctx -> U ctx ->
  (forall i c, i < n -> Inv c -> Inv (body i c)) ->
  (forall i c, i < n -> i <> i0 -> Inv c -> U c -> U (body i c)) ->
  (forall c, Inv c -> U c -> Q (body i0 c)) ->
  (forall i c, i < n -> i <> i0 -> Inv c -> Q c -> Q (body i c)) ->
  Q (forN n body ctx).
Proof.
  intros Hi0 H0 HU0 Hinv HU Hset Hkeep.
  assert (Hall : forall m, m <= n ->
            Inv (forN m body ctx) /\ (m <= i0 -> U (forN m body ctx)) /\
            (i0 < m -> Q (forN m body ctx))).
  { induction m as [|m IH]; intros Hm.
    - split_and!; [done|done|lia].
    - destruct IH as (Hi & Hu & Hq); [lia|]. rewrite forN_S. split_and!.
      + apply Hinv; [lia|done].
      + intros Hle. apply HU; [lia|lia|done|]. apply Hu. lia.
      + intros Hlt. destruct (decide (m = i0)) as [->|Hne].
        * apply Hset; [done|]. apply Hu. lia.
        * apply Hkeep; [lia|done|done|]. apply Hq. lia. }
  apply (Hall n); lia.
Qed.

Lemma weights_gSetAt (c : Context) (v : Value) (cs : list nat) (x : Q) :
  weights (gSetAt c v cs x) = weights c.
Proof. reflexivity. Qed.

Lemma grads_wSetAt (c : Context) (v : Value) (cs : list nat) (x : Q) :
  grads (wSetAt c v cs x) = grads c.
Proof. reflexivity. Qed.

Lemma dims_gSetAt (c : Context) (u v : Value) (cs : list nat) (x : Q) :
  dims (grads (gSetAt c v cs x) u) = dims (grads c u).
Proof.
  unfold gSetAt. destruct (decide (u = v)) as [->|Hne].
  - by rewrite grads_setGrad_eq.
  - by rewrite grads_setGrad_ne.
Qed.

Lemma length_gSetAt (c : Context) (u v : Value) (cs : list nat) (x : Q) :
  length (fdata (grads (gSetAt c v cs x) u)) = length (fdata (grads c u)).
Proof.
  unfold gSetAt. destruct (decide (u = v)) as [->|Hne].
  - rewrite grads_setGrad_eq. apply length_setRaw.
  - by rewrite grads_setGrad_ne.
Qed.

Lemma gAt_gSetAt_eq (c : Context) (v : Value) (cs : list nat) (x : Q) :
  flatIndex (dims (grads c v)) cs < length (fdata (grads c v)) ->
  gAt (gSetAt c v cs x) v cs = x.
Proof.
  intros H. unfold gAt, gSetAt, at', setAt. rewrite grads_setGrad_eq. cbn.
  by apply raw_setRaw_eq.
Qed.

Lemma gAt_gSetAt_ne (c : Context) (v : Value) (cs cs' : list nat) (x : Q) :
  flatIndex (dims (grads c v)) cs <> flatIndex (dims (grads c v)) cs' ->
  gAt (gSetAt c v cs x) v cs' = gAt c v cs'.
Proof.
  intros H. unfold gAt, gSetAt, at', setAt. rewrite grads_setGrad_eq. cbn.
  by apply raw_setRaw_ne.
Qed.

Lemma gAt_gSetAt_other (c : Context) (u v : Value) (cs cs' : list nat) (x : Q) :
  u <> v -> gAt (gSetAt c v cs x) u cs' = gAt c u cs'.
Proof. intros H. unfold gAt, gSetAt. by rewrite grads_setGrad_ne. Qed.

Lemma weights_wSetAt_other (c : Context) (u v : Value) (cs : list nat) (x : Q) :
  u <> v -> weights (wSetAt c v cs x) u = weights c u.
Proof. intros H. unfold wSetAt. by rewrite weights_setWeight_ne. Qed.

Lemma weights_wSetAtI_other (c : Context) (u v : Value) (cs : list nat) (x : nat) :
  u <> v -> weights (wSetAtI c v cs x) u = weights c u.
Proof. intros H. unfold wSetAtI. by rewrite weights_setWeight_ne. Qed.

Lemma weights_wSetRaw_other (c : Context) (u v : Value) (i : nat) (x : Q) :
  u <> v -> weights (wSetRaw c v i x) u = weights c u.
Proof. intros H. unfold wSetRaw. by rewrite weights_setWeight_ne. Qed.

Lemma flatIndex_2 (N M n i : nat) : flatIndex [N; M] [n; i] = n * M + i.
Proof. cbn. lia. Qed.

Lemma gRaw_gSetRaw_eq (c : Context) (v : Value) (i : nat) (x : Q) :
  i < length (fdata (grads c v)) -> gRaw (gSetRaw c v i x) v i = x.
Proof. intros H. unfold gRaw, gSetRaw. rewrite grads_setGrad_eq. by apply raw_setRaw_eq. Qed.

Lemma gRaw_gSetRaw_ne (c : Context) (v : Value) (i j : nat) (x : Q) :
  i <> j -> gRaw (gSetRaw c v i x) v j = gRaw c v j.
Proof. intros H. unfold gRaw, gSetRaw. rewrite grads_setGrad_eq. by apply raw_setRaw_ne. Qed.

Lemma gRaw_gSetRaw_other (c : Context) (u v : Value) (i j : nat) (x : Q) :
  u <> v -> gRaw (gSetRaw c v i x) u j = gRaw c u j.
Proof. intros H. unfold gRaw, gSetRaw. by rewrite grads_setGrad_ne. Qed.

(** * C7: ReLU backward *)

(** C7: the ReLU backward adds to [inG(i)] the value [outG(i)] when the
    forward OUTPUT [y = dest(i)] is positive and 0 otherwise (so [y = 0]
    contributes 0); on scenario S4 (src = [-1, 0, 2], outG = [5, 7, 9],
    inG = 0) the forward writes [0, 0, 2] and the backward adds exactly
    [0, 0, 9] to inG. *)
Theorem relu_bwd_gates_on_output :
  (forall (ctx : Context) (I : SrcDestInst) (i : nat),
     sd_src I <> sd_dest I ->
     length (fdata (grads ctx (sd_src I))) = size (weights ctx (sd_dest I)) ->
     i < size (weights ctx (sd_dest I)) ->
     gRaw (bwdReluInst ctx I) (sd_src I) i =
       (gRaw ctx (sd_src I) i +
        (if Qltb 0 (wRaw ctx (sd_dest I) i) then gRaw ctx (sd_dest I) i else 0))%Q) /\
  fdata (weights (fwdReluInst s4_ctx s4_relu) 1) = [0%Q; 0%Q; 2%Q] /\
  fdata (grads (bwdReluInst (fwdReluInst s4_ctx s4_relu) s4_relu) 0)
    = [(0 + 0)%Q; (0 + 0)%Q; (0 + 9)%Q].
Proof.
  split; [|vm_compute; split; reflexivity].
  intros ctx I i0 Hsd HL Hi0. unfold bwdReluInst.
  set (S := sd_src I) in *. set (D := sd_dest I) in *.
  set (n := size (weights ctx D)) in *.
  apply (forN_point_from
    (fun c => weights c = weights ctx /\ grads c D = grads ctx D /\
              length (fdata (grads c S)) = n)
    (fun c => gRaw c S i0 = gRaw ctx S i0)
    (fun c => gRaw c S i0 =
       (gRaw ctx S i0 + (if Qltb 0 (wRaw ctx D i0) then gRaw ctx D i0 else 0))%Q)
    n i0); [done|done|done| | | |].
  - intros i c Hi (Hw & Hd & Hl). cbv beta zeta. split_and!.
    + done.
    + unfold gSetRaw. by rewrite grads_setGrad_ne.
    + by rewrite length_gSetRaw.
  - intros i c Hi Hne (Hw & Hd & Hl) HU. cbv beta zeta.
    by rewrite gRaw_gSetRaw_ne.
  - intros c (Hw & Hd & Hl) HU. cbv beta zeta.
    rewrite gRaw_gSetRaw_eq by lia. rewrite HU.
    unfold wRaw, gRaw. rewrite Hw, Hd. fold (wRaw ctx D i0) (gRaw ctx D i0).
    unfold Qltb. destruct (Qle_bool (wRaw ctx D i0) 0); reflexivity.
  - intros i c Hi Hne (Hw & Hd & Hl) HQ. cbv beta zeta.
    by rewrite gRaw_gSetRaw_ne.
Qed.

Lemma relu_bwd_gates_on_output_witness :
  gRaw (bwdReluInst (fwdReluInst s4_ctx s4_relu) s4_relu) 0 2 =
    Qplus (gRaw (fwdReluInst s4_ctx s4_relu) 0 2)
      (if Qltb 0 (wRaw (fwdReluInst s4_ctx s4_relu) 1 2)
       then gRaw (fwdReluInst s4_ctx s4_relu) 1 2 else 0%Q).
Proof.
  apply (proj1 relu_bwd_gates_on_output (fwdReluInst s4_ctx s4_relu) s4_relu 2).
  - vm_compute. discriminate.
  - vm_compute. reflexivity.
  - vm_compute. lia.
Defined.

Lemma arith_mul_bwd_overwrites_witness :
  gRaw (bwdArithmeticInst s6_ctx s6_mul) 1 0 = Qmult (wRaw s6_ctx 2 0) (gRaw s6_ctx 0 0) /\
  gRaw (bwdArithmeticInst s6_ctx s6_mul) 2 0 = Qmult (wRaw s6_ctx 1 0) (gRaw s6_ctx 0 0).
Proof.
  apply (proj1 arith_mul_bwd_overwrites s6_ctx s6_mul 0).
  - reflexivity.
  - vm_compute. discriminate.
  - vm_compute. discriminate.
  - vm_compute. reflexivity.
  - vm_compute. reflexivity.
  - vm_compute. lia.
Defined.
Lemma flat_row_ne (M n i n' i' : nat) :
  i < M -> i' < M -> (n, i) <> (n', i') -> n * M + i <> n' * M + i'.
Proof.
  intros Hi Hi' Hne Heq. apply Hne.
  destruct (decide (n = n')) as [->|Hn]; [f_equal; lia|].
  exfalso. destruct (decide (n < n')) as [Hlt|Hge].
  - assert (n * M + M <= n' * M) by nia. lia.
  - assert (n' * M + M <= n * M) by nia. lia.
Qed.

Lemma flat_row_lt (N M n i : nat) : n < N -> i < M -> n * M + i < N * M.
Proof. intros Hn Hi. nia. Qed.

(** * C6: SoftMax backward *)

(** C6: for every [(n, i)] the SoftMax backward adds to [inG(n, i)] the value
    [E(n, i) - delta(Sel(n, 0), i)], reading [E] and [Sel] from the weights;
    on scenario S5 (src (1,3) = [1,1,1], Sel = [0], with [exp 0 = 1]) the
    forward writes [1/3, 1/3, 1/3] to dest and the backward adds
    [-2/3, 1/3, 1/3] to a zero inG. *)
Theorem softmax_bwd_accumulates_delta :
  (forall (ctx : Context) (I : SoftMaxInst) (N M n i : nat),
     dims (grads ctx (sm_src I)) = [N; M] ->
     length (fdata (grads ctx (sm_src I))) = N * M ->
     n < N -> i < M ->
     gAt (bwdSoftMaxInst ctx I) (sm_src I) [n; i] =
       Qplus (gAt ctx (sm_src I) [n; i])
        (Qminus (wAt ctx (sm_E I) [n; i])
         (if Nat.eqb (wAtI ctx (sm_selected I) [n; 0%nat]) i then 1%Q else 0%Q))) /\
  (forall std_exp : Q -> Q, std_exp 0%Q = 1%Q ->
     fdata (weights (fwdSoftMaxInst std_exp s5_ctx s5_sm) 1) = [1 # 3; 1 # 3; 1 # 3] /\
     fdata (grads (bwdSoftMaxInst (fwdSoftMaxInst std_exp s5_ctx s5_sm) s5_sm) 0)
       = [-2 # 3; 1 # 3; 1 # 3]).
Proof.
  split.
  2:{ intros e He. split; vm_compute; rewrite He; vm_compute; reflexivity. }
  intros ctx I N M n0 i0 Hd Hl Hn0 Hi0. unfold bwdSoftMaxInst. rewrite Hd. cbn [nth].
  set (S := sm_src I) in *.
  set (Inv := fun c => weights c = weights ctx /\ dims (grads c S) = [N; M] /\
                       length (fdata (grads c S)) = N * M).
  assert (Hbody : forall n i c, Inv c -> Inv (
      let delta := if Nat.eqb (wAtI c (sm_selected I) [n; 0]) i then 1%Q else 0%Q in
      let sigma := (wAt c (sm_E I) [n; i] - delta)%Q in
      gSetAt c S [n; i] (gAt c S [n; i] + sigma)%Q)).
  { intros n i c (Hw & Hdc & Hlc). cbv beta zeta. split_and!.
    - done.
    - by rewrite dims_gSetAt.
    - by rewrite length_gSetAt. }
  assert (Hrow : forall n c, Inv c -> Inv (forN M (fun i ctx =>
      let delta := if Nat.eqb (wAtI ctx (sm_selected I) [n; 0]) i then 1%Q else 0%Q in
      let sigma := (wAt ctx (sm_E I) [n; i] - delta)%Q in
      gSetAt ctx S [n; i] (gAt ctx S [n; i] + sigma)%Q) c)).
  { intros n c Hc. apply forN_inv; [done|]. intros i c' _ Hc'. by apply Hbody. }
  (* a row [n <> n0] leaves [(n0, i0)] untouched *)
  assert (Hother : forall n c, n <> n0 -> Inv c ->
    gAt (forN M (fun i ctx =>
      let delta := if Nat.eqb (wAtI ctx (sm_selected I) [n; 0]) i then 1%Q else 0%Q in
      let sigma := (wAt ctx (sm_E I) [n; i] - delta)%Q in
      gSetAt ctx S [n; i] (gAt ctx S [n; i] + sigma)%Q) c) S [n0; i0] = gAt c S [n0; i0]).
  { intros n c Hne Hc.
    match goal with |- gAt (forN M ?body c) _ _ = _ =>
      enough (HP : Inv (forN M body c) /\ gAt (forN M body c) S [n0; i0] = gAt c S [n0; i0])
        by apply HP;
      apply (forN_inv (fun c' => Inv c' /\ gAt c' S [n0; i0] = gAt c S [n0; i0]))
    end; [done|].
    intros i c' Hi [Hc' HU']. split; [by apply Hbody|].
      cbv beta zeta. destruct Hc' as (Hw & Hdc & Hlc).
      rewrite gAt_gSetAt_ne; [done|]. rewrite Hdc, !flatIndex_2.
      apply flat_row_ne; [done|done|]. intros [= -> ->]. done. }
  apply (forN_point_from Inv
    (fun c => gAt c S [n0; i0] = gAt ctx S [n0; i0])
    (fun c => gAt c S [n0; i0] =
       Qplus (gAt ctx S [n0; i0])
        (Qminus (wAt ctx (sm_E I) [n0; i0])
         (if Nat.eqb (wAtI ctx (sm_selected I) [n0; 0%nat]) i0 then 1%Q else 0%Q)))
    N n0); [done|by split_and!|done| | | |].
  - intros n c _ Hc. by apply Hrow.
  - intros n c Hn Hne Hc HU. by rewrite Hother.
  - (* row n0 *)
    intros c Hc HU.
    apply (forN_point_from Inv
      (fun c' => gAt c' S [n0; i0] = gAt ctx S [n0; i0])
      (fun c' => gAt c' S [n0; i0] =
         Qplus (gAt ctx S [n0; i0])
          (Qminus (wAt ctx (sm_E I) [n0; i0])
           (if Nat.eqb (wAtI ctx (sm_selected I) [n0; 0%nat]) i0 then 1%Q else 0%Q)))
      M i0); [done|done|done| | | |].
    + intros i c' _ Hc'. by apply Hbody.
    + intros i c' Hi Hne (Hw & Hdc & Hlc) HU'. cbv beta zeta.
      rewrite gAt_gSetAt_ne; [done|]. rewrite Hdc, !flatIndex_2.
      apply flat_row_ne; [done|done|]. intros [= ->]. done.
    + intros c' (Hw & Hdc & Hlc) HU'. cbv beta zeta.
      rewrite gAt_gSetAt_eq.
      * rewrite HU'. unfold wAt, wAtI. by rewrite Hw.
      * rewrite Hdc, flatIndex_2, Hlc. by apply flat_row_lt.
    + intros i c' Hi Hne (Hw & Hdc & Hlc) HQ. cbv beta zeta.
      rewrite gAt_gSetAt_ne; [done|]. rewrite Hdc, !flatIndex_2.
      apply flat_row_ne; [done|done|]. intros [= ->]. done.
  - intros n c Hn Hne Hc HQ. by rewrite Hother.
Qed.

Lemma softmax_bwd_accumulates_delta_witness :
  gAt (bwdSoftMaxInst s5_ctx s5_sm) 0 [0%nat; 2%nat] =
    Qplus (gAt s5_ctx 0 [0%nat; 2%nat])
      (Qminus (wAt s5_ctx 2 [0%nat; 2%nat])
         (if Nat.eqb (wAtI s5_ctx 3 [0%nat; 0%nat]) 2 then 1%Q else 0%Q)) /\
  (fdata (weights (fwdSoftMaxInst (fun _ => 1%Q) s5_ctx s5_sm) 1) = [1 # 3; 1 # 3; 1 # 3] /\
   fdata (grads (bwdSoftMaxInst (fwdSoftMaxInst (fun _ => 1%Q) s5_ctx s5_sm) s5_sm) 0)
     = [-2 # 3; 1 # 3; 1 # 3]).
Proof.
  split.
  - apply (proj1 softmax_bwd_accumulates_delta s5_ctx s5_sm 1 3 0 2);
      [reflexivity|reflexivity|lia|lia].
  - apply (proj2 softmax_bwd_accumulates_delta (fun _ => 1%Q)). reflexivity.
Defined.

(** * Loop nests, windows and flat indices *)

Lemma forN_ext (n : nat) (body body' : nat -> Context -> Context) (ctx : Context) :
  (forall i c, i < n -> body i c = body' i c) -> forN n body ctx = forN n body' ctx.
Proof.
  intros H. induction n as [|n IH]; [done|]. rewrite !forN_S, IH by (intros; apply H; lia).
  apply H. lia.
Qed.

Lemma fold_left_ext' {S X : Type} (f g : S -> X -> S) (l : list X) (s : S) :
  (forall s x, f s x = g s x) -> fold_left f l s = fold_left g l s.
Proof. intros H. revert s. induction l as [|x l IH]; intros s; [done|]. cbn. by rewrite H, IH. Qed.

Lemma fold_left_map' {S X Y : Type} (g : S -> Y -> S) (h : X -> Y) (l : list X) (s : S) :
  fold_left g (map h l) s = fold_left (fun s x => g s (h x)) l s.
Proof. revert s. induction l as [|x l IH]; intros s; [done|]. cbn. by rewrite IH. Qed.

Lemma fold_left_flat_map {X Y S : Type} (g : S -> Y -> S) (h : X -> list Y) (l : list X) (s : S) :
  fold_left g (flat_map h l) s = fold_left (fun s x => fold_left g (h x) s) l s.
Proof. revert s. induction l as [|x l IH]; intros s; [done|]. cbn. by rewrite fold_left_app, IH. Qed.

Lemma forN_nest {X : Type} (A : nat) (L : list X) (step : nat -> X -> Context -> Context)
    (ctx : Context) :
  forN A (fun a c => fold_left (fun c x => step a x c) L c) ctx =
  fold_left (fun c p => step p.1 p.2 c) (nest A L) ctx.
Proof.
  unfold forN, nest. rewrite fold_left_flat_map. apply fold_left_ext'. intros c a.
  by rewrite fold_left_map'.
Qed.

Lemma forN4_flat (A B C D : nat) (body : nat -> nat -> nat -> nat -> Context -> Context)
    (ctx : Context) :
  forN A (fun a => forN B (fun b => forN C (fun c => forN D (fun d => body a b c d)))) ctx =
  fold_left (fun x p => body p.1 p.2.1 p.2.2.1 p.2.2.2 x) (idx4 A B C D) ctx.
Proof.
  unfold idx4.
  transitivity (forN A (fun a c =>
    fold_left (fun c p => body a p.1 p.2.1 p.2.2 c) (nest B (nest C (seq 0 D))) c) ctx);
    [|apply (forN_nest A _ (fun a p => body a p.1 p.2.1 p.2.2))].
  apply forN_ext. intros a x _.
  transitivity (forN B (fun b c =>
    fold_left (fun c p => body a b p.1 p.2 c) (nest C (seq 0 D)) c) x);
    [|apply (forN_nest B _ (fun b p => body a b p.1 p.2))].
  apply forN_ext. intros b y _.
  apply (forN_nest C (seq 0 D) (fun c d => body a b c d)).
Qed.

Lemma elem_of_nest {X : Type} (A : nat) (L : list X) (a : nat) (x : X) :
  (a, x) ∈ nest A L <-> a < A /\ x ∈ L.
Proof.
  unfold nest. rewrite list_elem_of_In, in_flat_map. split.
  - intros (a' & Ha' & Hin). apply in_map_iff in Hin as (x' & [= -> ->] & Hx).
    apply in_seq in Ha'. split; [lia|]. by apply list_elem_of_In.
  - intros [Ha Hx]. exists a. split; [apply in_seq; lia|].
    apply in_map_iff. exists x. split; [done|]. by apply list_elem_of_In.
Qed.

Lemma NoDup_nest {X : Type} (A : nat) (L : list X) : NoDup L -> NoDup (nest A L).
Proof.
  intros HL. unfold nest. generalize (NoDup_seq 0 A). generalize (seq 0 A) as l.
  intros l Hl. induction Hl as [|a l Ha Hl IH]; cbn; [constructor|].
  apply NoDup_app. split_and!.
  - clear -HL. induction HL as [|x L Hx HL IH]; cbn; constructor; [|done].
    rewrite list_elem_of_In, in_map_iff. intros (? & [= ->] & Hin).
    apply Hx. by apply list_elem_of_In.
  - intros [a' x] Hin1 Hin2.
    apply list_elem_of_In, in_map_iff in Hin1 as (? & [= <- _] & _).
    apply list_elem_of_In, in_flat_map in Hin2 as (a'' & Ha'' & Hin).
    apply in_map_iff in Hin as (? & [= -> _] & _). apply Ha. by apply list_elem_of_In.
  - done.
Qed.

Lemma fold_keep {X : Type} (P : Context -> Prop) (L : list X)
    (step : X -> Context -> Context) (ctx : Context) :
  P ctx -> (forall x c, x ∈ L -> P c -> P (step x c)) ->
  P (fold_left (fun c x => step x c) L ctx).
Proof.
  revert ctx. induction L as [|x L IH]; intros ctx H0 Hs; [done|]. cbn.
  apply IH; [apply Hs; [by left|done]|]. intros y c Hy. apply Hs. by right.
Qed.

(** A loop over a list without duplicates: the step at [x0] establishes [Q]
    from [U], the other steps keep [U] (before [x0]) and [Q] (after it). *)
Lemma fold_point {X : Type} (Inv U Q : Context -> Prop) (L : list X) (x0 : X)
    (step : X -> Context -> Context) (ctx : Context) :
  NoDup L -> x0 ∈ L -> Inv ctx -> U ctx ->
  (forall x c, x ∈ L -> Inv c -> Inv (step x c)) ->
  (forall x c, x ∈ L -> x <> x0 -> Inv c -> U c -> U (step x c)) ->
  (forall c, Inv c -> U c -> Q (step x0 c)) ->
  (forall x c, x ∈ L -> x <> x0 -> Inv c -> Q c -> Q (step x c)) ->
  Q (fold_left (fun c x => step x c) L ctx).
Proof.
  intros HL Hx0 H0 HU0 Hinv HU Hset Hkeep. revert ctx H0 HU0.
  induction HL as [|x L Hx HL IH]; intros ctx H0 HU0; [by apply elem_of_nil in Hx0|].
  cbn. apply elem_of_cons in Hx0 as [->|Hx0].
  - enough (HP : Inv (fold_left (fun c x => step x c) L (step x ctx)) /\
                  Q (fold_left (fun c x => step x c) L (step x ctx))) by apply HP.
    apply (fold_keep (fun c => Inv c /\ Q c)).
    + split; [apply Hinv; [by left|done]|by apply Hset].
    + intros y c Hy [Hc HQ]. split; [apply Hinv; [by right|done]|].
      apply Hkeep; [by right| |done|done]. intros ->. done.
  - assert (x <> x0) by (intros ->; done).
    apply IH; [done| | | |apply Hinv; [by left|done]|apply HU; [by left|done|done|done]].
    + intros ???. apply Hinv. by right.
    + intros ????. apply HU; [by right|done].
    + intros ????. apply Hkeep; [by right|done].
Qed.

Lemma fold_left_filter {S X : Type} (g : S -> X -> S) (p : X -> bool) (l : list X) (s : S) :
  fold_left g (List.filter p l) s = fold_left (fun s x => if p x then g s x else s) l s.
Proof. revert s. induction l as [|x l IH]; intros s; [done|]. cbn. destruct (p x); apply IH. Qed.

Lemma outside_inInput (idim : ShapeNHWC) (ox oy : Z) :
  outside ox oy (sh idim) (sw idim) = negb (inInput idim (ox, oy)).
Proof.
  unfold outside, inInput. cbn [fst snd].
  destruct (Z.ltb_spec ox 0), (Z.leb_spec 0 ox), (Z.ltb_spec oy 0), (Z.leb_spec 0 oy),
    (Z.leb_spec (Z.of_nat (sh idim)) ox), (Z.ltb_spec ox (Z.of_nat (sh idim))),
    (Z.leb_spec (Z.of_nat (sw idim)) oy), (Z.ltb_spec oy (Z.of_nat (sw idim)));
    cbn; try reflexivity; lia.
Qed.

Lemma avgPoolSum_valid (ctx : Context) (I : PoolInst) (idim : ShapeNHWC) (n z : nat) (x y : Z) :
  avgPoolSum ctx I idim n z x y =
  sumQ (fun p => wAt ctx (pl_src I) [n; Z.to_nat p.1; Z.to_nat p.2; z])
    (validWindow idim (pl_kernel I) x y).
Proof.
  unfold avgPoolSum, sumQ, validWindow, windowPositions.
  rewrite fold_left_filter, fold_left_flat_map. apply fold_left_ext'. intros s fy.
  rewrite fold_left_map'. apply fold_left_ext'. intros s' fx.
  rewrite outside_inInput. by destruct (inInput _ _).
Qed.

Lemma dims_wSetAt (c : Context) (u v : Value) (cs : list nat) (x : Q) :
  dims (weights (wSetAt c v cs x) u) = dims (weights c u).
Proof.
  unfold wSetAt. destruct (decide (u = v)) as [->|Hne].
  - by rewrite weights_setWeight_eq.
  - by rewrite weights_setWeight_ne.
Qed.

Lemma length_wSetAt (c : Context) (u v : Value) (cs : list nat) (x : Q) :
  length (fdata (weights (wSetAt c v cs x) u)) = length (fdata (weights c u)).
Proof.
  unfold wSetAt. destruct (decide (u = v)) as [->|Hne].
  - rewrite weights_setWeight_eq. apply length_setRaw.
  - by rewrite weights_setWeight_ne.
Qed.

Lemma idata_wSetAt (c : Context) (u v : Value) (cs : list nat) (x : Q) :
  idata (weights (wSetAt c v cs x) u) = idata (weights c u).
Proof.
  unfold wSetAt. destruct (decide (u = v)) as [->|Hne].
  - by rewrite weights_setWeight_eq.
  - by rewrite weights_setWeight_ne.
Qed.

Lemma wAt_wSetAt_eq (c : Context) (v : Value) (cs : list nat) (x : Q) :
  flatIndex (dims (weights c v)) cs < length (fdata (weights c v)) ->
  wAt (wSetAt c v cs x) v cs = x.
Proof.
  intros H. unfold wAt, wSetAt, at', setAt. rewrite weights_setWeight_eq. cbn.
  by apply raw_setRaw_eq.
Qed.

Lemma wAt_wSetAt_ne (c : Context) (v : Value) (cs cs' : list nat) (x : Q) :
  flatIndex (dims (weights c v)) cs <> flatIndex (dims (weights c v)) cs' ->
  wAt (wSetAt c v cs x) v cs' = wAt c v cs'.
Proof.
  intros H. unfold wAt, wSetAt, at', setAt. rewrite weights_setWeight_eq. cbn.
  by apply raw_setRaw_ne.
Qed.

Lemma dims_wSetAtI (c : Context) (u v : Value) (cs : list nat) (x : nat) :
  dims (weights (wSetAtI c v cs x) u) = dims (weights c u).
Proof.
  unfold wSetAtI. destruct (decide (u = v)) as [->|Hne].
  - by rewrite weights_setWeight_eq.
  - by rewrite weights_setWeight_ne.
Qed.

Lemma fdata_wSetAtI (c : Context) (u v : Value) (cs : list nat) (x : nat) :
  fdata (weights (wSetAtI c v cs x) u) = fdata (weights c u).
Proof.
  unfold wSetAtI. destruct (decide (u = v)) as [->|Hne].
  - by rewrite weights_setWeight_eq.
  - by rewrite weights_setWeight_ne.
Qed.

Lemma wAt_wSetAtI (c : Context) (u v : Value) (cs cs' : list nat) (x : nat) :
  wAt (wSetAtI c v cs x) u cs' = wAt c u cs'.
Proof. unfold wAt, at', raw. by rewrite dims_wSetAtI, fdata_wSetAtI. Qed.

Lemma wAtI_wSetAt (c : Context) (u v : Value) (cs cs' : list nat) (x : Q) :
  wAtI (wSetAt c v cs x) u cs' = wAtI c u cs'.
Proof. unfold wAtI, atI. by rewrite dims_wSetAt, idata_wSetAt. Qed.

Lemma length_idata_wSetAtI (c : Context) (u v : Value) (cs : list nat) (x : nat) :
  length (idata (weights (wSetAtI c v cs x) u)) = length (idata (weights c u)).
Proof.
  unfold wSetAtI. destruct (decide (u = v)) as [->|Hne].
  - rewrite weights_setWeight_eq. cbn. apply length_insert.
  - by rewrite weights_setWeight_ne.
Qed.

Lemma wAtI_wSetAtI_eq (c : Context) (v : Value) (cs : list nat) (x : nat) :
  flatIndex (dims (weights c v)) cs < length (idata (weights c v)) ->
  wAtI (wSetAtI c v cs x) v cs = x.
Proof.
  intros H. unfold wAtI, wSetAtI, atI, setAtI. rewrite weights_setWeight_eq. cbn.
  by apply list_lookup_total_insert_eq.
Qed.

Lemma wAtI_wSetAtI_ne (c : Context) (v : Value) (cs cs' : list nat) (x : nat) :
  flatIndex (dims (weights c v)) cs <> flatIndex (dims (weights c v)) cs' ->
  wAtI (wSetAtI c v cs x) v cs' = wAtI c v cs'.
Proof.
  intros H. unfold wAtI, wSetAtI, atI, setAtI. rewrite weights_setWeight_eq. cbn.
  by apply list_lookup_total_insert_ne.
Qed.

Lemma flat_row_inj (M n i n' i' : nat) :
  i < M -> i' < M -> n * M + i = n' * M + i' -> n = n' /\ i = i'.
Proof.
  intros Hi Hi' Heq. destruct (decide (n = n')) as [->|Hn]; [lia|].
  exfalso. destruct (decide (n < n')) as [Hlt|Hge].
  - assert (n * M + M <= n' * M) by nia. lia.
  - assert (n' * M + M <= n * M) by nia. lia.
Qed.

Lemma flatIndex_4 (N H W C n x y z : nat) :
  flatIndex [N; H; W; C] [n; x; y; z] = ((n * H + x) * W + y) * C + z.
Proof. cbn. nia. Qed.

Lemma flatIndex_5 (N H W C K n x y z k : nat) :
  flatIndex [N; H; W; C; K] [n; x; y; z; k] = (((n * H + x) * W + y) * C + z) * K + k.
Proof. cbn. nia. Qed.

Lemma flat4_lt (N H W C n x y z : nat) :
  n < N -> x < H -> y < W -> z < C -> ((n * H + x) * W + y) * C + z < N * H * W * C.
Proof.
  intros. assert (n * H + x < N * H) by nia.
  assert ((n * H + x) * W + y < N * H * W) by nia. nia.
Qed.

Lemma flat4_inj (H W C n x y z n' x' y' z' : nat) :
  x < H -> y < W -> z < C -> x' < H -> y' < W -> z' < C ->
  ((n * H + x) * W + y) * C + z = ((n' * H + x') * W + y') * C + z' ->
  n = n' /\ x = x' /\ y = y' /\ z = z'.
Proof.
  intros Hx Hy Hz Hx' Hy' Hz' Heq.
  destruct (flat_row_inj C ((n * H + x) * W + y) z ((n' * H + x') * W + y') z')
    as [H1 ->]; [done|done|done|].
  destruct (flat_row_inj W (n * H + x) y (n' * H + x') y') as [H2 ->]; [done|done|done|].
  destruct (flat_row_inj H n x n' x') as [-> ->]; done.
Qed.

Lemma elem_of_idx4 (A B C D a b c d : nat) :
  (a, (b, (c, d))) ∈ idx4 A B C D <-> a < A /\ b < B /\ c < C /\ d < D.
Proof.
  unfold idx4. rewrite !elem_of_nest, list_elem_of_In, in_seq. lia.
Qed.

Lemma NoDup_idx4 (A B C D : nat) : NoDup (idx4 A B C D).
Proof. unfold idx4. apply NoDup_nest, NoDup_nest, NoDup_nest, NoDup_seq. Qed.

(** * C4: AvgPool forward *)

(** C4: for every [(n, z, ay, ax)] the AvgPool forward writes to
    [dest(n, ax, ay, z)] the sum of the src values at the window positions
    inside the input, divided by [K * K] whatever the number of valid
    positions; with K = 2, S = 1, P = 1 on a 2x2 all-ones input the
    top-left output is 1/4. *)
Theorem avgpool_fwd_divides_by_area :
  (forall (ctx : Context) (I : PoolInst) (N H W C n z ay ax : nat),
    pl_kind I = PoolAvg ->
    pl_src I <> pl_dest I ->
    dims (weights ctx (pl_dest I)) = [N; H; W; C] ->
    length (fdata (weights ctx (pl_dest I))) = N * H * W * C ->
    sc (nhwc (dims (weights ctx (pl_src I)))) = C ->
    n < N -> z < C -> ay < W -> ax < H ->
    wAt (fwdPoolInst ctx I) (pl_dest I) [n; ax; ay; z] =
      Qdiv (sumQ (fun p => wAt ctx (pl_src I) [n; Z.to_nat p.1; Z.to_nat p.2; z])
              (validWindow (nhwc (dims (weights ctx (pl_src I)))) (pl_kernel I)
                 (anchor (pl_pad I) (pl_stride I) ax) (anchor (pl_pad I) (pl_stride I) ay)))
        (float_of_size (pl_kernel I * pl_kernel I))) /\
  wAt (fwdPoolInst s9_ctx s9_pool) 1 [0%nat; 0%nat; 0%nat; 0%nat] = 1 # 4.
Proof.
  split; [|vm_compute; reflexivity].
  intros ctx I N H W C n0 z0 ay0 ax0 Hk Hsd Hd Hl Hc Hn Hz Hy Hx.
  unfold fwdPoolInst. rewrite Hk. unfold fwdPoolAvg_impl. rewrite Hd, Hc. cbn [sn sh sw nhwc nth].
  set (S := pl_src I) in *. set (D := pl_dest I) in *.
  set (idim := nhwc (dims (weights ctx S))) in *.
  rewrite forN4_flat.
  apply (fold_point
    (fun c => weights c S = weights ctx S /\ dims (weights c D) = [N; H; W; C] /\
              length (fdata (weights c D)) = N * H * W * C)
    (fun _ => True)
    (fun c => wAt c D [n0; ax0; ay0; z0] =
      Qdiv (sumQ (fun p => wAt ctx S [n0; Z.to_nat p.1; Z.to_nat p.2; z0])
              (validWindow idim (pl_kernel I)
                 (anchor (pl_pad I) (pl_stride I) ax0) (anchor (pl_pad I) (pl_stride I) ay0)))
        (float_of_size (pl_kernel I * pl_kernel I)))
    _ (n0, (z0, (ay0, ax0))));
    [apply NoDup_idx4|by apply elem_of_idx4|done|done| | | |].
  - intros [n [z [ay ax]]] c _ (Hw & Hdc & Hlc). cbn [fst snd]. split_and!.
    + by rewrite weights_wSetAt_other.
    + by rewrite dims_wSetAt.
    + by rewrite length_wSetAt.
  - done.
  - intros c (Hw & Hdc & Hlc) _. cbn [fst snd].
    rewrite wAt_wSetAt_eq.
    + rewrite avgPoolSum_valid. fold S. unfold wAt. by rewrite Hw.
    + rewrite Hdc, flatIndex_4, Hlc. by apply flat4_lt.
  - intros [n [z [ay ax]]] c Hin Hne (Hw & Hdc & Hlc) HQ. cbn [fst snd].
    apply elem_of_idx4 in Hin as (Hn' & Hz' & Hy' & Hx').
    rewrite wAt_wSetAt_ne; [done|]. rewrite Hdc, !flatIndex_4. intros Heq.
    apply flat4_inj in Heq as (-> & -> & -> & ->); [|lia..]. done.
Qed.

Lemma avgpool_fwd_divides_by_area_witness :
  wAt (fwdPoolInst s9_ctx s9_pool) (pl_dest s9_pool) [0%nat; 0%nat; 0%nat; 0%nat] =
    Qdiv (sumQ (fun p => wAt s9_ctx (pl_src s9_pool) [0%nat; Z.to_nat p.1; Z.to_nat p.2; 0%nat])
            (validWindow (nhwc (dims (weights s9_ctx (pl_src s9_pool)))) (pl_kernel s9_pool)
               (anchor (pl_pad s9_pool) (pl_stride s9_pool) 0)
               (anchor (pl_pad s9_pool) (pl_stride s9_pool) 0)))
      (float_of_size (pl_kernel s9_pool * pl_kernel s9_pool)) /\
  wAt (fwdPoolInst s9_ctx s9_pool) 1 [0%nat; 0%nat; 0%nat; 0%nat] = 1 # 4.
Proof.
  split.
  - apply (proj1 avgpool_fwd_divides_by_area s9_ctx s9_pool 1 3 3 1 0 0 0 0);
      [reflexivity|discriminate|reflexivity|vm_compute; reflexivity|reflexivity|lia..].
  - apply (proj2 avgpool_fwd_divides_by_area).
Defined.
Lemma maxPoolScan_valid (ctx : Context) (I : PoolInst) (idim : ShapeNHWC) (n z : nat) (x y : Z) :
  maxPoolScan ctx I idim n z x y =
  fold_left (maxSelect (fun p => wAt ctx (pl_src I) [n; Z.to_nat p.1; Z.to_nat p.2; z]))
    (validWindow idim (pl_kernel I) x y)
    (mkMaxScan true 0%Q (size_of_ssize x) (size_of_ssize y)).
Proof.
  unfold maxPoolScan, validWindow, windowPositions.
  rewrite fold_left_filter, fold_left_flat_map. apply fold_left_ext'. intros s fy.
  rewrite fold_left_map'. apply fold_left_ext'. intros s' fx.
  unfold maxPoolStep. rewrite outside_inInput. by destruct (inInput _ _).
Qed.

(** The scan keeps the LAST position attaining the maximum. *)
Lemma maxSelect_scan (f : Z * Z -> Q) (L : list (Z * Z)) (st0 : MaxScan) :
  ms_first st0 = true -> L <> [] ->
  exists L1 p L2, L = L1 ++ p :: L2 /\
    (forall q, q ∈ L -> (f q <= f p)%Q) /\
    (forall q, q ∈ L2 -> (f q < f p)%Q) /\
    fold_left (maxSelect f) L st0 = mkMaxScan false (f p) (Z.to_nat p.1) (Z.to_nat p.2).
Proof.
  intros Hf. induction L as [|q L IH] using rev_ind; [done|]. intros _.
  rewrite fold_left_app. cbn.
  destruct (decide (L = [])) as [->|HL].
  - exists [], q, []. split_and!; [done| |by intros ? ?%elem_of_nil|].
    + intros q' ->%list_elem_of_singleton. apply Qle_refl.
    + cbn. unfold maxSelect. by rewrite Hf.
  - destruct (IH HL) as (L1 & p & L2 & -> & Hle & Hlt & Hst). rewrite Hst.
    unfold maxSelect. cbn [ms_first ms_max orb].
    destruct (Qle_bool (f p) (f q)) eqn:Hb.
    + apply Qle_bool_iff in Hb. exists (L1 ++ p :: L2), q, [].
      split_and!; [done| |by intros ? ?%elem_of_nil|done].
      intros q' [Hq' | ->%list_elem_of_singleton]%elem_of_app; [|apply Qle_refl].
      eapply Qle_trans; [by apply Hle|done].
    + assert (Hqp : (f q < f p)%Q).
      { apply Qnot_le_lt. intros Hc. apply Qle_bool_iff in Hc. congruence. }
      exists L1, p, (L2 ++ [q]). split_and!.
      * by rewrite <- app_assoc.
      * intros q' [Hq' | ->%list_elem_of_singleton]%elem_of_app; [by apply Hle|].
        by apply Qlt_le_weak.
      * intros q' [Hq' | ->%list_elem_of_singleton]%elem_of_app; [by apply Hlt|done].
      * done.
Qed.

Lemma maxPoolScan_ext (c c' : Context) (I : PoolInst) (idim : ShapeNHWC) (n z : nat) (x y : Z) :
  weights c (pl_src I) = weights c' (pl_src I) ->
  maxPoolScan c I idim n z x y = maxPoolScan c' I idim n z x y.
Proof. intros H. unfold maxPoolScan, maxPoolStep, wAt. by rewrite H. Qed.

Lemma flat5_inj (H W C n x y z k n' x' y' z' k' : nat) :
  x < H -> y < W -> z < C -> k < 2 -> x' < H -> y' < W -> z' < C -> k' < 2 ->
  (((n * H + x) * W + y) * C + z) * 2 + k = (((n' * H + x') * W + y') * C + z') * 2 + k' ->
  n = n' /\ x = x' /\ y = y' /\ z = z' /\ k = k'.
Proof.
  intros Hx Hy Hz Hk Hx' Hy' Hz' Hk' Heq.
  destruct (flat_row_inj 2 (((n * H + x) * W + y) * C + z) k
              (((n' * H + x') * W + y') * C + z') k') as [Heq' ->]; [done|done|done|].
  destruct (flat4_inj H W C n x y z n' x' y' z') as (-> & -> & -> & ->); done.
Qed.

Lemma flat5_lt (N H W C n x y z k : nat) :
  n < N -> x < H -> y < W -> z < C -> k < 2 ->
  (((n * H + x) * W + y) * C + z) * 2 + k < N * H * W * C * 2.
Proof.
  intros. assert (Hlt : ((n * H + x) * W + y) * C + z < N * H * W * C)
    by (apply flat4_lt; done).
  set (a := ((n * H + x) * W + y) * C + z) in *. set (P := N * H * W * C) in *. lia.
Qed.

(** * C5: MaxPool forward *)

(** C5: for every [(n, z, ay, ax)] whose window has a valid position, the
    MaxPool forward writes to [dest(n, ax, ay, z)] the value at a position
    [p] of the valid window (in scan order, [fy] outer and [fx] inner) that
    is at least every other value and strictly greater than every value
    scanned after it (so [p] is the LAST position attaining the maximum),
    and writes the coordinates of [p] to [SXY(n, ax, ay, z, 0)] and
    [SXY(n, ax, ay, z, 1)]. *)
Theorem maxpool_fwd_last_max :
  forall (ctx : Context) (I : PoolInst) (N H W C n z ay ax : nat),
    pl_kind I = PoolMax ->
    pl_src I <> pl_dest I -> pl_src I <> pl_srcXY I ->
    dims (weights ctx (pl_dest I)) = [N; H; W; C] ->
    length (fdata (weights ctx (pl_dest I))) = N * H * W * C ->
    dims (weights ctx (pl_srcXY I)) = [N; H; W; C; 2] ->
    length (idata (weights ctx (pl_srcXY I))) = N * H * W * C * 2 ->
    sc (nhwc (dims (weights ctx (pl_src I)))) = C ->
    n < N -> z < C -> ay < W -> ax < H ->
    let f := fun p : Z * Z => wAt ctx (pl_src I) [n; Z.to_nat p.1; Z.to_nat p.2; z] in
    let L := validWindow (nhwc (dims (weights ctx (pl_src I)))) (pl_kernel I)
               (anchor (pl_pad I) (pl_stride I) ax) (anchor (pl_pad I) (pl_stride I) ay) in
    L <> [] ->
    exists L1 p L2, L = L1 ++ p :: L2 /\
      (forall q, q ∈ L -> (f q <= f p)%Q) /\
      (forall q, q ∈ L2 -> (f q < f p)%Q) /\
      wAt (fwdPoolInst ctx I) (pl_dest I) [n; ax; ay; z] = f p /\
      wAtI (fwdPoolInst ctx I) (pl_srcXY I) [n; ax; ay; z; 0%nat] = Z.to_nat p.1 /\
      wAtI (fwdPoolInst ctx I) (pl_srcXY I) [n; ax; ay; z; 1%nat] = Z.to_nat p.2.
Proof.
  intros ctx I N H W C n0 z0 ay0 ax0 Hk Hsd Hsx Hd Hl Hdx Hlx HC Hn Hz Hy Hx.
  cbv zeta. intros HL.
  set (x0 := anchor (pl_pad I) (pl_stride I) ax0) in *.
  set (y0 := anchor (pl_pad I) (pl_stride I) ay0) in *.
  destruct (maxSelect_scan
              (fun p => wAt ctx (pl_src I) [n0; Z.to_nat p.1; Z.to_nat p.2; z0]) _
              (mkMaxScan true 0%Q (size_of_ssize x0) (size_of_ssize y0)) eq_refl HL)
    as (L1 & p & L2 & HLe & Hle & Hlt & Hscan).
  exists L1, p, L2. do 3 (split; [done|]).
  unfold fwdPoolInst. rewrite Hk. unfold fwdPoolMax_impl.
  rewrite Hd, HC. cbn [sn sh sw nhwc nth]. rewrite forN4_flat.
  set (S := pl_src I) in *. set (D := pl_dest I) in *. set (X := pl_srcXY I) in *.
  set (idim := nhwc (dims (weights ctx S))) in *.
  apply (fold_point
    (fun c => weights c S = weights ctx S /\
              dims (weights c D) = [N; H; W; C] /\
              length (fdata (weights c D)) = N * H * W * C /\
              dims (weights c X) = [N; H; W; C; 2] /\
              length (idata (weights c X)) = N * H * W * C * 2)
    (fun _ => True)
    (fun c => wAt c D [n0; ax0; ay0; z0] =
                wAt ctx S [n0; Z.to_nat p.1; Z.to_nat p.2; z0] /\
              wAtI c X [n0; ax0; ay0; z0; 0%nat] = Z.to_nat p.1 /\
              wAtI c X [n0; ax0; ay0; z0; 1%nat] = Z.to_nat p.2)
    _ (n0, (z0, (ay0, ax0))));
    [apply NoDup_idx4|by apply elem_of_idx4|done|done| | | |].
  - intros [n [z [ay ax]]] c _ (Hw & Hdc & Hlc & Hdxc & Hlxc). cbn [fst snd].
    split_and!.
    + rewrite weights_wSetAt_other, !weights_wSetAtI_other; done.
    + by rewrite dims_wSetAt, !dims_wSetAtI.
    + by rewrite length_wSetAt, !fdata_wSetAtI.
    + by rewrite dims_wSetAt, !dims_wSetAtI.
    + by rewrite idata_wSetAt, !length_idata_wSetAtI.
  - done.
  - intros c (Hw & Hdc & Hlc & Hdxc & Hlxc) _. cbn [fst snd].
    rewrite (maxPoolScan_ext c ctx) by done. rewrite maxPoolScan_valid.
    fold S x0 y0. rewrite Hscan. cbn [ms_max ms_maxX ms_maxY]. split_and!.
    + rewrite wAt_wSetAt_eq; [done|].
      rewrite !dims_wSetAtI, !fdata_wSetAtI, Hdc, flatIndex_4, Hlc. by apply flat4_lt.
    + rewrite wAtI_wSetAt, wAtI_wSetAtI_ne.
      * rewrite wAtI_wSetAtI_eq; [done|]. rewrite Hdxc, flatIndex_5, Hlxc.
        apply flat5_lt; lia.
      * rewrite dims_wSetAtI, Hdxc, !flatIndex_5. lia.
    + rewrite wAtI_wSetAt, wAtI_wSetAtI_eq; [done|].
      rewrite dims_wSetAtI, length_idata_wSetAtI, Hdxc, flatIndex_5, Hlxc.
      apply flat5_lt; lia.
  - intros [n [z [ay ax]]] c Hin Hne (Hw & Hdc & Hlc & Hdxc & Hlxc) (H1 & H2 & H3).
    cbn [fst snd]. apply elem_of_idx4 in Hin as (Hn' & Hz' & Hy' & Hx').
    assert (Hne4 : ((n * H + ax) * W + ay) * C + z <> ((n0 * H + ax0) * W + ay0) * C + z0).
    { intros Heq. apply flat4_inj in Heq as (-> & -> & -> & ->); [|lia..]. done. }
    assert (Hne5 : forall k k', k < 2 -> k' < 2 ->
      (((n * H + ax) * W + ay) * C + z) * 2 + k <>
      (((n0 * H + ax0) * W + ay0) * C + z0) * 2 + k').
    { intros k k' Hk1 Hk2 Heq. apply flat5_inj in Heq as (-> & -> & -> & -> & _); [|lia..].
      done. }
    split_and!.
    + rewrite wAt_wSetAt_ne, !wAt_wSetAtI; [done|].
      rewrite !dims_wSetAtI, Hdc, !flatIndex_4. done.
    + rewrite wAtI_wSetAt, !wAtI_wSetAtI_ne; [done| |].
      * rewrite Hdxc, !flatIndex_5. apply Hne5; lia.
      * rewrite dims_wSetAtI, Hdxc, !flatIndex_5. apply Hne5; lia.
    + rewrite wAtI_wSetAt, !wAtI_wSetAtI_ne; [done| |].
      * rewrite Hdxc, !flatIndex_5. apply Hne5; lia.
      * rewrite dims_wSetAtI, Hdxc, !flatIndex_5. apply Hne5; lia.
Qed.

Lemma maxpool_fwd_last_max_witness :
  (let f := fun p : Z * Z =>
       wAt s10_ctx (pl_src s10_pool) [0%nat; Z.to_nat p.1; Z.to_nat p.2; 0%nat] in
   let L := validWindow (nhwc (dims (weights s10_ctx (pl_src s10_pool)))) (pl_kernel s10_pool)
              (anchor (pl_pad s10_pool) (pl_stride s10_pool) 0)
              (anchor (pl_pad s10_pool) (pl_stride s10_pool) 0) in
   exists L1 p L2, L = L1 ++ p :: L2 /\
     (forall q, q ∈ L -> (f q <= f p)%Q) /\
     (forall q, q ∈ L2 -> (f q < f p)%Q) /\
     wAt (fwdPoolInst s10_ctx s10_pool) (pl_dest s10_pool) [0%nat; 0%nat; 0%nat; 0%nat] = f p /\
     wAtI (fwdPoolInst s10_ctx s10_pool) (pl_srcXY s10_pool)
       [0%nat; 0%nat; 0%nat; 0%nat; 0%nat] = Z.to_nat p.1 /\
     wAtI (fwdPoolInst s10_ctx s10_pool) (pl_srcXY s10_pool)
       [0%nat; 0%nat; 0%nat; 0%nat; 1%nat] = Z.to_nat p.2) /\
  fdata (weights (fwdPoolInst s10_ctx s10_pool) 1) = [3%Q] /\
  idata (weights (fwdPoolInst s10_ctx s10_pool) 2) = [0; 1].
Proof.
  split; [|vm_compute; split; reflexivity].
  apply (maxpool_fwd_last_max s10_ctx s10_pool 1 1 1 1 0 0 0 0);
    [reflexivity|discriminate|discriminate|reflexivity|vm_compute; reflexivity
    |reflexivity|reflexivity|reflexivity|lia|lia|lia|lia|vm_compute; discriminate].
Defined.
Lemma raw_zeroTensor (ds : list nat) (c : nat) : raw (zeroTensor ds) c = 0%Q.
Proof.
  unfold raw, zeroTensor. cbn. generalize (product ds) as n. intros n.
  revert c. induction n as [|n IH]; intros [|c]; cbn; try done.
Qed.

(** The accumulation [acc.raw(channelId(i)) += g(i)] over a list of flat
    indices, read at channel [c]. *)
Lemma accum_chan (t : Tensor) (chIdx : nat) (g : nat -> Q) (l : list nat)
    (acc : Tensor) (c : nat) :
  c < length (fdata acc) ->
  raw (fold_left (fun acc i =>
         setRaw acc (getDimForPtr t chIdx i) (raw acc (getDimForPtr t chIdx i) + g i)%Q)
       l acc) c =
  fold_left (fun s i => if Nat.eqb (getDimForPtr t chIdx i) c then (s + g i)%Q else s)
    l (raw acc c).
Proof.
  revert acc. induction l as [|i l IH]; intros acc Hc; [done|]. cbn.
  rewrite IH by (by rewrite length_setRaw). f_equal.
  destruct (Nat.eqb_spec (getDimForPtr t chIdx i) c) as [->|Hne].
  - by apply raw_setRaw_eq.
  - by apply raw_setRaw_ne.
Qed.

Lemma fold_chan_ext (t : Tensor) (chIdx c : nat) (g g' : nat -> Q) (l : list nat) (s : Q) :
  (forall i, getDimForPtr t chIdx i = c -> g i = g' i) ->
  fold_left (fun s i => if Nat.eqb (getDimForPtr t chIdx i) c then (s + g i)%Q else s) l s =
  fold_left (fun s i => if Nat.eqb (getDimForPtr t chIdx i) c then (s + g' i)%Q else s) l s.
Proof.
  intros H. apply fold_left_ext'. intros s' i.
  destruct (Nat.eqb_spec (getDimForPtr t chIdx i) c) as [Hc|]; [by rewrite H|done].
Qed.

Lemma at'_1 (t : Tensor) (C c : nat) : dims t = [C] -> at' t [c] = raw t c.
Proof. intros H. unfold at'. rewrite H. by replace (flatIndex [C] [c]) with c by (cbn; lia). Qed.

Lemma bnDivide_spec (t : Tensor) (e spc : nat) (C : nat) :
  dims t = [C] -> length (fdata t) = C -> e <= C ->
  dims (bnDivide t e spc) = [C] /\ length (fdata (bnDivide t e spc)) = C /\
  (forall c, c < C -> raw (bnDivide t e spc) c =
     if decide (c < e) then (raw t c / float_of_size spc)%Q else raw t c).
Proof.
  intros Hd Hl. induction e as [|e IH]; intros He.
  - split_and!; [done|done|]. intros c _. by case_decide; [lia|].
  - destruct IH as (Hd' & Hl' & Hat); [lia|].
    unfold bnDivide. rewrite seq_S, fold_left_app. fold (bnDivide t e spc). cbn [fold_left].
    replace (0 + e) with e by lia.
    unfold setAt. rewrite dims_setRaw, length_setRaw, Hd'. split_and!; [done|done|].
    intros c Hc. rewrite (at'_1 _ C) by done.
    replace (flatIndex [C] [e]) with e by (cbn; lia).
    destruct (decide (c = e)) as [->|Hne].
    + rewrite raw_setRaw_eq by lia. rewrite Hat by done.
      by repeat case_decide; try lia.
    + rewrite raw_setRaw_ne by lia. rewrite Hat by done.
      by repeat case_decide; try lia.
Qed.
Lemma fold_left_inv {S X : Type} (P : S -> Prop) (f : S -> X -> S) (l : list X) (s : S) :
  P s -> (forall s x, x ∈ l -> P s -> P (f s x)) -> P (fold_left f l s).
Proof.
  revert s. induction l as [|x l IH]; intros s H0 Hs; [done|]. cbn.
  apply IH; [apply Hs; [by left|done]|]. intros s' y Hy. apply Hs. by right.
Qed.

Lemma bnLocalMeanSums_shape (inW : Tensor) (chIdx : nat) (lm : Tensor) :
  dims (bnLocalMeanSums inW chIdx lm) = dims lm /\
  length (fdata (bnLocalMeanSums inW chIdx lm)) = length (fdata lm).
Proof.
  unfold bnLocalMeanSums. apply (fold_left_inv (fun t => dims t = dims lm /\ length (fdata t) = length (fdata lm)));
    [done|]. intros t i _ [Hd Hl]. by rewrite dims_setRaw, length_setRaw.
Qed.

Lemma bnLocalVarSums_shape (inW : Tensor) (chIdx : nat) (lm lv : Tensor) :
  dims (bnLocalVarSums inW chIdx lm lv) = dims lv /\
  length (fdata (bnLocalVarSums inW chIdx lm lv)) = length (fdata lv).
Proof.
  unfold bnLocalVarSums. apply (fold_left_inv (fun t => dims t = dims lv /\ length (fdata t) = length (fdata lv)));
    [done|]. intros t i _ [Hd Hl]. by rewrite dims_setRaw, length_setRaw.
Qed.

Lemma length_repeat_Q (x : Q) (n : nat) : length (repeat x n) = n.
Proof. apply repeat_length. Qed.

Lemma bnLocalMean_spec (inW : Tensor) (I : BatchNormalizationInst) (meanH : Tensor) (C : nat) :
  dims meanH = [C] -> nth (bn_channelIdx I) (dims inW) 0 = C ->
  dims (bnLocalMean inW I meanH) = [C] /\ length (fdata (bnLocalMean inW I meanH)) = C /\
  forall c, c < C -> raw (bnLocalMean inW I meanH) c = localMeanSpec inW (bn_channelIdx I) c.
Proof.
  intros Hd Hn. unfold bnLocalMean. rewrite Hd.
  set (lm0 := bnLocalMeanSums inW (bn_channelIdx I) (zeroTensor [C])).
  destruct (bnLocalMeanSums_shape inW (bn_channelIdx I) (zeroTensor [C])) as [Hd0 Hl0].
  fold lm0 in Hd0, Hl0. cbn in Hd0, Hl0. rewrite length_repeat_Q in Hl0.
  destruct (bnDivide_spec lm0 (size lm0) (size inW / nth (bn_channelIdx I) (dims inW) 0) C)
    as (Hd1 & Hl1 & Hr1); [done|lia|unfold size; rewrite Hd0; cbn; lia|].
  split_and!; [done|done|]. intros c Hc. rewrite Hr1 by done.
  case_decide as Hlt; [|unfold size in Hlt; rewrite Hd0 in Hlt; cbn in Hlt; lia].
  unfold localMeanSpec, samplesPerChannel, chanSum. f_equal.
  unfold lm0, bnLocalMeanSums. cbv zeta. rewrite accum_chan by (cbn; rewrite length_repeat_Q; lia).
  by rewrite raw_zeroTensor.
Qed.

Lemma bnLocalVar_spec (inW : Tensor) (I : BatchNormalizationInst) (meanH varH : Tensor) (C : nat) :
  dims meanH = [C] -> dims varH = [C] -> nth (bn_channelIdx I) (dims inW) 0 = C ->
  dims (bnLocalVar inW I meanH varH) = [C] /\
  forall c, c < C -> raw (bnLocalVar inW I meanH varH) c = localVarSpec inW (bn_channelIdx I) c.
Proof.
  intros Hd Hdv Hn. unfold bnLocalVar.
  destruct (bnLocalMean_spec inW I meanH C) as (Hdm & Hlm & Hrm); [done|done|].
  set (lm := bnLocalMean inW I meanH) in *. rewrite Hdv.
  set (lv0 := bnLocalVarSums inW (bn_channelIdx I) lm (zeroTensor [C])).
  destruct (bnLocalVarSums_shape inW (bn_channelIdx I) lm (zeroTensor [C])) as [Hd0 Hl0].
  fold lv0 in Hd0, Hl0. cbn in Hd0, Hl0. rewrite length_repeat_Q in Hl0.
  destruct (bnDivide_spec lv0 (size lm) (size inW / nth (bn_channelIdx I) (dims inW) 0) C)
    as (Hd1 & Hl1 & Hr1); [done|lia|unfold size; rewrite Hdm; cbn; lia|].
  split; [done|]. intros c Hc. rewrite Hr1 by done.
  case_decide as Hlt; [|unfold size in Hlt; rewrite Hdm in Hlt; cbn in Hlt; lia].
  unfold localVarSpec, samplesPerChannel, chanSum. f_equal.
  unfold lv0, bnLocalVarSums. cbv zeta. rewrite accum_chan by (cbn; rewrite length_repeat_Q; lia).
  rewrite raw_zeroTensor. apply fold_chan_ext. intros i Hi.
  rewrite (at'_1 lm C) by done. rewrite Hi, Hrm by done. reflexivity.
Qed.
Lemma wAt_wSetAt_other (c : Context) (u v : Value) (cs cs' : list nat) (x : Q) :
  u <> v -> wAt (wSetAt c v cs x) u cs' = wAt c u cs'.
Proof. intros H. unfold wAt. by rewrite weights_wSetAt_other. Qed.

Lemma wRaw_wSetRaw_eq (c : Context) (v : Value) (i : nat) (x : Q) :
  i < length (fdata (weights c v)) -> wRaw (wSetRaw c v i x) v i = x.
Proof. intros H. unfold wRaw, wSetRaw. rewrite weights_setWeight_eq. by apply raw_setRaw_eq. Qed.

Lemma wRaw_wSetRaw_ne (c : Context) (v : Value) (i j : nat) (x : Q) :
  i <> j -> wRaw (wSetRaw c v i x) v j = wRaw c v j.
Proof. intros H. unfold wRaw, wSetRaw. rewrite weights_setWeight_eq. by apply raw_setRaw_ne. Qed.

Lemma length_wSetRaw (c : Context) (u v : Value) (i : nat) (x : Q) :
  length (fdata (weights (wSetRaw c v i x) u)) = length (fdata (weights c u)).
Proof.
  unfold wSetRaw. destruct (decide (u = v)) as [->|Hne].
  - rewrite weights_setWeight_eq. apply length_setRaw.
  - by rewrite weights_setWeight_ne.
Qed.

Section BatchNormFrame.
Variable std_sqrt : Q -> Q.

(** The inference forward writes only [dest]. *)
Lemma bn_infer_frame (ctx : Context) (I : BatchNormalizationInst) (u : Value) :
  u <> bn_dest I ->
  weights (fwdBatchNormalizationInst_infer std_sqrt ctx I) u = weights ctx u.
Proof.
  intros Hu. unfold fwdBatchNormalizationInst_infer.
  apply (forN_inv (fun c => weights c u = weights ctx u)); [done|].
  intros i c _ Hc. cbv zeta. by rewrite weights_wSetRaw_other.
Qed.

Lemma bn_infer_at (ctx : Context) (I : BatchNormalizationInst) (i : nat) :
  bn_dest I <> bn_src I -> bn_dest I <> bn_mean I -> bn_dest I <> bn_var I ->
  bn_dest I <> bn_scale I -> bn_dest I <> bn_bias I ->
  length (fdata (weights ctx (bn_dest I))) = size (weights ctx (bn_src I)) ->
  i < size (weights ctx (bn_src I)) ->
  let channelId := getDimForPtr (weights ctx (bn_src I)) (bn_channelIdx I) i in
  wRaw (fwdBatchNormalizationInst_infer std_sqrt ctx I) (bn_dest I) i =
    ((wRaw ctx (bn_src I) i - wAt ctx (bn_mean I) [channelId]) *
     wAt ctx (bn_scale I) [channelId] *
     (1 / std_sqrt (wAt ctx (bn_var I) [channelId] + bn_epsilon I)) +
     wAt ctx (bn_bias I) [channelId])%Q.
Proof.
  intros H1 H2 H3 H4 H5 Hl Hi. cbv zeta. unfold fwdBatchNormalizationInst_infer.
  set (D := bn_dest I) in *.
  set (Inv := fun c => (forall u, u <> D -> weights c u = weights ctx u) /\
                       length (fdata (weights c D)) = size (weights ctx (bn_src I))).
  apply (forN_point_from Inv (fun _ => True)
    (fun c => wRaw c D i =
      ((wRaw ctx (bn_src I) i -
        wAt ctx (bn_mean I) [getDimForPtr (weights ctx (bn_src I)) (bn_channelIdx I) i]) *
       wAt ctx (bn_scale I) [getDimForPtr (weights ctx (bn_src I)) (bn_channelIdx I) i] *
       (1 / std_sqrt (wAt ctx (bn_var I)
                        [getDimForPtr (weights ctx (bn_src I)) (bn_channelIdx I) i] +
                      bn_epsilon I)) +
       wAt ctx (bn_bias I) [getDimForPtr (weights ctx (bn_src I)) (bn_channelIdx I) i])%Q)
    _ i); [done|by split|done| | | |].
  - intros j c _ [Hw Hlc]. cbv zeta. split.
    + intros u Hu. rewrite weights_wSetRaw_other by done. by apply Hw.
    + by rewrite length_wSetRaw.
  - done.
  - intros c [Hw Hlc] _. cbv zeta. rewrite wRaw_wSetRaw_eq by lia.
    unfold wRaw, wAt. rewrite !Hw by congruence. reflexivity.
  - intros j c _ Hne [Hw Hlc] HQ. cbv zeta. by rewrite wRaw_wSetRaw_ne.
Qed.

End BatchNormFrame.

Lemma bn_update_at (ctx : Context) (I : BatchNormalizationInst) (lm lv : Tensor) (C c : nat) :
  bn_mean I <> bn_var I ->
  dims (weights ctx (bn_mean I)) = [C] -> dims (weights ctx (bn_var I)) = [C] ->
  length (fdata (weights ctx (bn_mean I))) = C ->
  length (fdata (weights ctx (bn_var I))) = C ->
  size lm = C -> c < C ->
  wAt (bnUpdateRunning ctx I lm lv) (bn_mean I) [c] =
    (bn_momentum I * at' lm [c] + (1 - bn_momentum I) * wAt ctx (bn_mean I) [c])%Q /\
  wAt (bnUpdateRunning ctx I lm lv) (bn_var I) [c] =
    (bn_momentum I * at' lv [c] + (1 - bn_momentum I) * wAt ctx (bn_var I) [c])%Q.
Proof.
  intros Hmv Hdm Hdv Hlm Hlv Hs Hc. unfold bnUpdateRunning. rewrite Hs.
  set (M := bn_mean I) in *. set (V := bn_var I) in *.
  set (Inv := fun c => dims (weights c M) = [C] /\ dims (weights c V) = [C] /\
                       length (fdata (weights c M)) = C /\ length (fdata (weights c V)) = C).
  assert (HM : forall j, flatIndex [C] [j] = j) by (intros; cbn; lia).
  apply (forN_point_from Inv
    (fun x => wAt x M [c] = wAt ctx M [c] /\ wAt x V [c] = wAt ctx V [c])
    (fun x => wAt x M [c] =
       (bn_momentum I * at' lm [c] + (1 - bn_momentum I) * wAt ctx M [c])%Q /\
       wAt x V [c] =
       (bn_momentum I * at' lv [c] + (1 - bn_momentum I) * wAt ctx V [c])%Q)
    C c); [done|done|done| | | |].
  - intros j x _ (H1 & H2 & H3 & H4). cbv zeta. split_and!;
      by rewrite ?dims_wSetAt, ?length_wSetAt.
  - intros j x _ Hne (H1 & H2 & H3 & H4) [HU1 HU2]. cbv zeta. split.
    + rewrite wAt_wSetAt_other by congruence.
      rewrite wAt_wSetAt_ne by (rewrite H1, !HM; done). done.
    + rewrite wAt_wSetAt_ne by (rewrite dims_wSetAt, H2, !HM; done).
      rewrite wAt_wSetAt_other by congruence. done.
  - intros x (H1 & H2 & H3 & H4) [HU1 HU2]. cbv zeta. split.
    + rewrite wAt_wSetAt_other, wAt_wSetAt_eq; [by rewrite HU1| |done].
      rewrite H1, HM. lia.
    + rewrite wAt_wSetAt_eq.
      * rewrite wAt_wSetAt_other by congruence. by rewrite HU2.
      * rewrite dims_wSetAt, length_wSetAt, H2, HM. lia.
  - intros j x _ Hne (H1 & H2 & H3 & H4) [HQ1 HQ2]. cbv zeta. split.
    + rewrite wAt_wSetAt_other by congruence.
      rewrite wAt_wSetAt_ne by (rewrite H1, !HM; done). done.
    + rewrite wAt_wSetAt_ne by (rewrite dims_wSetAt, H2, !HM; done).
      rewrite wAt_wSetAt_other by congruence. done.
Qed.

Lemma bn_update_frame (ctx : Context) (I : BatchNormalizationInst) (lm lv : Tensor) (u : Value) :
  u <> bn_mean I -> u <> bn_var I ->
  weights (bnUpdateRunning ctx I lm lv) u = weights ctx u.
Proof.
  intros H1 H2. unfold bnUpdateRunning.
  apply (forN_inv (fun c => weights c u = weights ctx u)); [done|].
  intros i c _ Hc. cbv zeta. by rewrite !weights_wSetAt_other.
Qed.

(** C3: the training forward of batch normalization first sets each running
    statistic to [P * local + (1 - P) * running] (mean and variance of the
    channel over the input), and then writes each output element as
    [(x - mean[c]) * gamma[c] / sqrt(var[c] + epsilon) + beta[c]] with the
    just-updated running mean and variance, not the local ones. *)
Theorem bn_train_updates_running_then_infers :
  forall (std_sqrt : Q -> Q) (ctx : Context) (I : BatchNormalizationInst) (C : nat),
    NoDup [bn_src I; bn_dest I; bn_mean I; bn_var I; bn_scale I; bn_bias I] ->
    dims (weights ctx (bn_mean I)) = [C] -> dims (weights ctx (bn_var I)) = [C] ->
    length (fdata (weights ctx (bn_mean I))) = C ->
    length (fdata (weights ctx (bn_var I))) = C ->
    nth (bn_channelIdx I) (dims (weights ctx (bn_src I))) 0 = C ->
    length (fdata (weights ctx (bn_dest I))) = size (weights ctx (bn_src I)) ->
    let ctx' := fwdBatchNormalizationInst std_sqrt ctx true I in
    let inW := weights ctx (bn_src I) in
    let P := bn_momentum I in
    (forall c, c < C ->
       wAt ctx' (bn_mean I) [c] =
         (P * localMeanSpec inW (bn_channelIdx I) c + (1 - P) * wAt ctx (bn_mean I) [c])%Q /\
       wAt ctx' (bn_var I) [c] =
         (P * localVarSpec inW (bn_channelIdx I) c + (1 - P) * wAt ctx (bn_var I) [c])%Q) /\
    (forall i, i < size inW ->
       let c := getDimForPtr inW (bn_channelIdx I) i in
       (wRaw ctx' (bn_dest I) i ==
        (raw inW i - wAt ctx' (bn_mean I) [c]) * wAt ctx (bn_scale I) [c] /
          std_sqrt (wAt ctx' (bn_var I) [c] + bn_epsilon I) + wAt ctx (bn_bias I) [c])%Q).
Proof.
  intros sq ctx I C Hnd Hdm Hdv Hlm Hlv Hn Hld. cbv zeta.
  rewrite !NoDup_cons, !elem_of_cons in Hnd.
  destruct Hnd as (H1 & H2 & H3 & H4 & H5 & _).
  assert (Hsm : bn_src I <> bn_mean I) by tauto.
  assert (Hsv : bn_src I <> bn_var I) by tauto.
  assert (Hds : bn_dest I <> bn_src I) by (intros E; apply H1; left; symmetry; exact E).
  assert (Hdm' : bn_dest I <> bn_mean I) by tauto.
  assert (Hdv' : bn_dest I <> bn_var I) by tauto.
  assert (Hdsc : bn_dest I <> bn_scale I) by tauto.
  assert (Hdb : bn_dest I <> bn_bias I) by tauto.
  assert (Hmv : bn_mean I <> bn_var I) by tauto.
  assert (Hms : bn_scale I <> bn_mean I) by (intros E; apply H3; right; left; symmetry; exact E).
  assert (Hvs : bn_scale I <> bn_var I) by (intros E; apply H4; left; symmetry; exact E).
  assert (Hmb : bn_bias I <> bn_mean I) by (intros E; apply H3; right; right; left; symmetry; exact E).
  assert (Hvb : bn_bias I <> bn_var I) by (intros E; apply H4; right; left; symmetry; exact E).
  unfold fwdBatchNormalizationInst, fwdBatchNormalizationInst_train. cbv zeta.
  set (inW := weights ctx (bn_src I)) in *.
  destruct (bnLocalMean_spec inW I (weights ctx (bn_mean I)) C) as (Hdlm & Hllm & Hrlm);
    [done|done|].
  destruct (bnLocalVar_spec inW I (weights ctx (bn_mean I)) (weights ctx (bn_var I)) C)
    as (Hdlv & Hrlv); [done|done|done|].
  set (lm := bnLocalMean inW I (weights ctx (bn_mean I))) in *.
  set (lv := bnLocalVar inW I (weights ctx (bn_mean I)) (weights ctx (bn_var I))) in *.
  set (ctx1 := bnUpdateRunning ctx I lm lv).
  assert (Hframe : forall u, u <> bn_dest I ->
            weights (fwdBatchNormalizationInst_infer sq ctx1 I) u = weights ctx1 u).
  { intros u Hu. by apply bn_infer_frame. }
  split.
  - intros c Hc. unfold wAt. rewrite !Hframe by done. fold (wAt ctx1 (bn_mean I) [c]).
    fold (wAt ctx1 (bn_var I) [c]).
    destruct (bn_update_at ctx I lm lv C c) as [Hm Hv];
      [done|done|done|done|done|unfold size; rewrite Hdlm; cbn; lia|done|].
    unfold ctx1. rewrite Hm, Hv.
    rewrite (at'_1 lm C), (at'_1 lv C), Hrlm, Hrlv by done. done.
  - intros i Hi.
    assert (Hsrc : weights ctx1 (bn_src I) = inW)
      by (apply bn_update_frame; congruence).
    assert (Hdst : weights ctx1 (bn_dest I) = weights ctx (bn_dest I))
      by (apply bn_update_frame; congruence).
    assert (Hsc : weights ctx1 (bn_scale I) = weights ctx (bn_scale I))
      by (apply bn_update_frame; congruence).
    assert (Hbi : weights ctx1 (bn_bias I) = weights ctx (bn_bias I))
      by (apply bn_update_frame; congruence).
    rewrite (bn_infer_at sq ctx1 I i) by (rewrite ?Hdst, ?Hsrc; congruence || done).
    cbv zeta. unfold wRaw, wAt. rewrite ?Hsrc, !Hframe by congruence.
    rewrite Hsc, Hbi. unfold Qdiv. rewrite Qmult_1_l. reflexivity.
Qed.

Lemma bn_train_updates_running_then_infers_witness :
  let ctx' := fwdBatchNormalizationInst (fun _ => 1%Q) s3_ctx true s3_bn in
  let inW := weights s3_ctx (bn_src s3_bn) in
  let P := bn_momentum s3_bn in
  (forall c, c < 1 ->
     wAt ctx' (bn_mean s3_bn) [c] =
       (P * localMeanSpec inW (bn_channelIdx s3_bn) c + (1 - P) * wAt s3_ctx (bn_mean s3_bn) [c])%Q /\
     wAt ctx' (bn_var s3_bn) [c] =
       (P * localVarSpec inW (bn_channelIdx s3_bn) c + (1 - P) * wAt s3_ctx (bn_var s3_bn) [c])%Q) /\
  (forall i, i < size inW ->
     let c := getDimForPtr inW (bn_channelIdx s3_bn) i in
     (wRaw ctx' (bn_dest s3_bn) i ==
      (raw inW i - wAt ctx' (bn_mean s3_bn) [c]) * wAt s3_ctx (bn_scale s3_bn) [c] /
        (fun _ => 1%Q) (wAt ctx' (bn_var s3_bn) [c] + bn_epsilon s3_bn) +
      wAt s3_ctx (bn_bias s3_bn) [c])%Q).
Proof.
  apply (bn_train_updates_running_then_infers (fun _ => 1%Q) s3_ctx s3_bn 1);
    [apply (bool_decide_unpack _); vm_compute; reflexivity | reflexivity..].
Defined.

(** * C10: SoftMax forward, shift invariance *)

Lemma smRowFrame_refl (I : SoftMaxInst) (N M n : nat) (c : Context) :
  smRowFrame I N M n c c.
Proof. split; [done|]. intros v _. split_and!; done. Qed.

Lemma smRowFrame_trans (I : SoftMaxInst) (N M n : nat) (c1 c2 c3 : Context) :
  smRowFrame I N M n c1 c2 -> smRowFrame I N M n c2 c3 -> smRowFrame I N M n c1 c3.
Proof.
  intros [Hu1 Hv1] [Hu2 Hv2]. split.
  - intros u Hd He. by rewrite Hu2, Hu1.
  - intros v Hv. destruct (Hv1 v Hv) as (Hd1 & Hl1 & Ha1). destruct (Hv2 v Hv) as (Hd2 & Hl2 & Ha2).
    split_and!; [congruence|congruence|]. intros n' i Hn' Hi. by rewrite Ha2, Ha1.
Qed.

Lemma smRowFrame_set (I : SoftMaxInst) (N M n j : nat) (c : Context) (v : Value) (x : Q) :
  v = sm_dest I \/ v = sm_E I -> dims (weights c v) = [N; M] -> j < M ->
  smRowFrame I N M n c (wSetAt c v [n; j] x).
Proof.
  intros Hv Hd Hj. split.
  - intros u Hu1 Hu2. apply weights_wSetAt_other. intros ->. destruct Hv; congruence.
  - intros w Hw. split_and!; [apply dims_wSetAt|apply length_wSetAt|].
    intros n' i Hn' Hi. destruct (decide (w = v)) as [->|Hne].
    + apply wAt_wSetAt_ne. rewrite Hd, !flatIndex_2. apply flat_row_ne; [done|done|congruence].
    + by apply wAt_wSetAt_other.
Qed.

Lemma smRowFrame_src (I : SoftMaxInst) (N M n : nat) (c c' : Context) :
  sm_src I <> sm_dest I -> sm_src I <> sm_E I -> smRowFrame I N M n c c' ->
  weights c' (sm_src I) = weights c (sm_src I).
Proof. intros H1 H2 [Hu _]. by apply Hu. Qed.

Lemma smRowFrame_shape (I : SoftMaxInst) (N M n : nat) (c c' : Context) (v : Value) :
  v = sm_dest I \/ v = sm_E I -> smRowFrame I N M n c c' ->
  dims (weights c v) = [N; M] -> length (fdata (weights c v)) = N * M ->
  dims (weights c' v) = [N; M] /\ length (fdata (weights c' v)) = N * M.
Proof. intros Hv [_ Hf] Hd Hl. destruct (Hf v Hv) as (-> & -> & _). done. Qed.

(** The exponentiation loop of row [n], over its first [k] elements. *)
Lemma softMaxExpLoop_prefix (std_exp : Q -> Q) (c : Context) (I : SoftMaxInst)
    (N M n k : nat) (max : Q) :
  sm_src I <> sm_dest I -> sm_src I <> sm_E I ->
  dims (weights c (sm_E I)) = [N; M] -> length (fdata (weights c (sm_E I))) = N * M ->
  n < N -> k <= M ->
  let e := fun i => std_exp (wAt c (sm_src I) [n; i] - max)%Q in
  let r := fold_left (fun acc i =>
             let e := std_exp (wAt acc.2 (sm_src I) [n; i] - max)%Q in
             ((acc.1 + e)%Q, wSetAt acc.2 (sm_E I) [n; i] e)) (seq 0 k) (0%Q, c) in
  r.1 = fold_left (fun s i => (s + e i)%Q) (seq 0 k) 0%Q /\
  smRowFrame I N M n c r.2 /\
  forall i, i < k -> wAt r.2 (sm_E I) [n; i] = e i.
Proof.
  intros H1 H2 Hd Hl Hn Hk. cbv zeta. induction k as [|k IH].
  - split_and!; [done|apply smRowFrame_refl|intros; lia].
  - destruct IH as (Hs & Hf & Ha); [lia|]. rewrite seq_S, !fold_left_app. cbn [fold_left fst snd].
    replace (0 + k) with k by lia.
    set (r := fold_left _ (seq 0 k) (0%Q, c)) in *.
    assert (Hsrc : wAt r.2 (sm_src I) [n; k] = wAt c (sm_src I) [n; k]).
    { unfold wAt. by rewrite (smRowFrame_src I N M n c r.2). }
    destruct (smRowFrame_shape I N M n c r.2 (sm_E I)) as [Hd' Hl']; [by right|done|done|done|].
    split_and!.
    + by rewrite Hs, Hsrc.
    + apply (smRowFrame_trans I N M n c r.2); [done|]. apply smRowFrame_set; [by right|done|lia].
    + intros i Hi. rewrite Hsrc. destruct (decide (i = k)) as [->|Hik].
      * apply wAt_wSetAt_eq. rewrite Hd', flatIndex_2, Hl'. apply flat_row_lt; lia.
      * rewrite wAt_wSetAt_ne; [apply Ha; lia|].
        rewrite Hd', !flatIndex_2. apply flat_row_ne; [lia|lia|congruence].
Qed.

(** One iteration of the row loop of the SoftMax forward. *)
Lemma softmax_row_body (std_exp : Q -> Q) (c : Context) (I : SoftMaxInst) (N M n : nat) :
  sm_src I <> sm_dest I -> sm_src I <> sm_E I -> sm_dest I <> sm_E I ->
  dims (weights c (sm_dest I)) = [N; M] -> length (fdata (weights c (sm_dest I))) = N * M ->
  dims (weights c (sm_E I)) = [N; M] -> length (fdata (weights c (sm_E I))) = N * M ->
  n < N ->
  let max := fold_left (fun max i => std_max max (wAt c (sm_src I) [n; i]))
               (seq 0 M) (wAt c (sm_src I) [n; 0]) in
  let r := softMaxExpLoop std_exp c I n M max in
  let c' := forN M (fun i ctx =>
              let ctx := wSetAt ctx (sm_E I) [n; i] (wAt ctx (sm_E I) [n; i] / r.1)%Q in
              wSetAt ctx (sm_dest I) [n; i] (wAt ctx (sm_E I) [n; i])) r.2 in
  smRowFrame I N M n c c' /\
  forall i, i < M ->
    wAt c' (sm_dest I) [n; i] =
      (std_exp (wAt c (sm_src I) [n; i] - smRowMax c I n M) / smRowSum std_exp c I n M)%Q /\
    wAt c' (sm_E I) [n; i] =
      (std_exp (wAt c (sm_src I) [n; i] - smRowMax c I n M) / smRowSum std_exp c I n M)%Q.
Proof.
  intros H1 H2 H3 Hdd Hld Hde Hle Hn. cbv zeta.
  destruct (softMaxExpLoop_prefix std_exp c I N M n M (smRowMax c I n M))
    as (Hs & Hf & Ha); [done|done|done|done|done|done|].
  cbv zeta in Hs, Ha. fold (smRowMax c I n M).
  unfold softMaxExpLoop.
  set (r := fold_left _ (seq 0 M) (0%Q, c)) in *.
  assert (Hsum : r.1 = smRowSum std_exp c I n M) by (rewrite Hs; done).
  rewrite Hsum. set (S := smRowSum std_exp c I n M).
  set (body := fun i ctx =>
         let ctx := wSetAt ctx (sm_E I) [n; i] (wAt ctx (sm_E I) [n; i] / S)%Q in
         wSetAt ctx (sm_dest I) [n; i] (wAt ctx (sm_E I) [n; i])).
  assert (Hstep : forall i c'', i < M -> smRowFrame I N M n c c'' ->
            smRowFrame I N M n c (body i c'')).
  { intros i c'' Hi Hc''. unfold body. cbv zeta.
    destruct (smRowFrame_shape I N M n c c'' (sm_E I)) as [HdE HlE]; [by right|done|done|done|].
    destruct (smRowFrame_shape I N M n c c'' (sm_dest I)) as [HdD HlD]; [by left|done|done|done|].
    apply (smRowFrame_trans I N M n c c''); [done|].
    eapply smRowFrame_trans; [apply smRowFrame_set; [by right|done|done]|].
    apply smRowFrame_set; [by left| |done]. by rewrite dims_wSetAt. }
  split.
  - apply forN_inv; [done|]. intros i c'' Hi Hc''. by apply Hstep.
  - intros i0 Hi0.
    apply (forN_point_from (smRowFrame I N M n c)
             (fun c'' => wAt c'' (sm_E I) [n; i0] =
                           std_exp (wAt c (sm_src I) [n; i0] - smRowMax c I n M)%Q)
             (fun c'' => wAt c'' (sm_dest I) [n; i0] =
                           (std_exp (wAt c (sm_src I) [n; i0] - smRowMax c I n M) / S)%Q /\
                         wAt c'' (sm_E I) [n; i0] =
                           (std_exp (wAt c (sm_src I) [n; i0] - smRowMax c I n M) / S)%Q)
             M i0 body r.2);
      [done|done|by apply Ha| | | |].
    + intros i c'' Hi Hc''. by apply Hstep.
    + intros i c'' Hi Hne Hc'' HU. unfold body. cbv zeta.
      destruct (smRowFrame_shape I N M n c c'' (sm_E I)) as [HdE HlE]; [by right|done|done|done|].
      rewrite wAt_wSetAt_other by congruence.
      rewrite wAt_wSetAt_ne; [done|]. rewrite HdE, !flatIndex_2.
      apply flat_row_ne; [done|done|congruence].
    + intros c'' Hc'' HU. unfold body. cbv zeta.
      destruct (smRowFrame_shape I N M n c c'' (sm_E I)) as [HdE HlE]; [by right|done|done|done|].
      assert (Hlt : flatIndex (dims (weights c'' (sm_E I))) [n; i0] <
                    length (fdata (weights c'' (sm_E I)))).
      { rewrite HdE, flatIndex_2, HlE. by apply flat_row_lt. }
      destruct (smRowFrame_shape I N M n c c'' (sm_dest I)) as [HdD HlD]; [by left|done|done|done|].
      assert (HE : wAt (wSetAt c'' (sm_E I) [n; i0] (wAt c'' (sm_E I) [n; i0] / S)%Q)
                     (sm_E I) [n; i0] =
                   (std_exp (wAt c (sm_src I) [n; i0] - smRowMax c I n M) / S)%Q).
      { rewrite wAt_wSetAt_eq by done. by rewrite HU. }
      split.
      * rewrite wAt_wSetAt_eq; [done|].
        rewrite dims_wSetAt, length_wSetAt, HdD, flatIndex_2, HlD. by apply flat_row_lt.
      * rewrite wAt_wSetAt_other by congruence. done.
    + intros i c'' Hi Hne Hc'' [HQ1 HQ2]. unfold body. cbv zeta.
      destruct (smRowFrame_shape I N M n c c'' (sm_E I)) as [HdE HlE]; [by right|done|done|done|].
      destruct (smRowFrame_shape I N M n c c'' (sm_dest I)) as [HdD HlD]; [by left|done|done|done|].
      assert (Hfl : forall d, d = [N; M] -> flatIndex d [n; i] <> flatIndex d [n; i0]).
      { intros d ->. rewrite !flatIndex_2. apply flat_row_ne; [done|done|congruence]. }
      split.
      * rewrite wAt_wSetAt_ne; [|rewrite dims_wSetAt; by apply Hfl].
        by rewrite wAt_wSetAt_other by congruence.
      * rewrite wAt_wSetAt_other by congruence.
        rewrite wAt_wSetAt_ne; [done|by apply Hfl].
Qed.

Lemma smRow_ext (std_exp : Q -> Q) (c c' : Context) (I : SoftMaxInst) (n M : nat) :
  weights c' (sm_src I) = weights c (sm_src I) ->
  smRowMax c' I n M = smRowMax c I n M /\ smRowSum std_exp c' I n M = smRowSum std_exp c I n M.
Proof. intros H. unfold smRowSum, smRowMax, wAt. by rewrite H. Qed.

(** Every element [(n, i)] of [dest] and of [E] after the SoftMax forward is
    [exp(x(n, i) - max_n) / sum_n], from the input row [n]. *)
Lemma softmax_fwd_row (std_exp : Q -> Q) (ctx : Context) (I : SoftMaxInst) (N M n i : nat) :
  sm_src I <> sm_dest I -> sm_src I <> sm_E I -> sm_dest I <> sm_E I ->
  dims (weights ctx (sm_src I)) = [N; M] ->
  dims (weights ctx (sm_dest I)) = [N; M] -> length (fdata (weights ctx (sm_dest I))) = N * M ->
  dims (weights ctx (sm_E I)) = [N; M] -> length (fdata (weights ctx (sm_E I))) = N * M ->
  n < N -> i < M ->
  let v := (std_exp (wAt ctx (sm_src I) [n; i] - smRowMax ctx I n M) /
            smRowSum std_exp ctx I n M)%Q in
  wAt (fwdSoftMaxInst std_exp ctx I) (sm_dest I) [n; i] = v /\
  wAt (fwdSoftMaxInst std_exp ctx I) (sm_E I) [n; i] = v.
Proof.
  intros H1 H2 H3 Hds Hdd Hld Hde Hle Hn Hi. cbv zeta. unfold fwdSoftMaxInst. cbv zeta.
  rewrite Hds. cbn [nth].
  set (Inv := fun c => weights c (sm_src I) = weights ctx (sm_src I) /\
                dims (weights c (sm_dest I)) = [N; M] /\
                length (fdata (weights c (sm_dest I))) = N * M /\
                dims (weights c (sm_E I)) = [N; M] /\
                length (fdata (weights c (sm_E I))) = N * M).
  assert (HInv : forall n' c c', Inv c -> smRowFrame I N M n' c c' -> Inv c').
  { intros n' c c' (Hs & Hd1 & Hl1 & Hd2 & Hl2) Hf.
    destruct (smRowFrame_shape I N M n' c c' (sm_dest I)) as [Hd1' Hl1']; [by left|done|done|done|].
    destruct (smRowFrame_shape I N M n' c c' (sm_E I)) as [Hd2' Hl2']; [by right|done|done|done|].
    split_and!; [|done..]. by rewrite (smRowFrame_src I N M n' c c'). }
  set (v := (std_exp (wAt ctx (sm_src I) [n; i] - smRowMax ctx I n M) /
             smRowSum std_exp ctx I n M)%Q).
  apply (forN_point Inv (fun c => wAt c (sm_dest I) [n; i] = v /\ wAt c (sm_E I) [n; i] = v)
           N n); [done|by split_and!| | |].
  - intros n' c Hn' Hc. destruct Hc as (Hs & Hd1 & Hl1 & Hd2 & Hl2) eqn:Hc'.
    destruct (softmax_row_body std_exp c I N M n') as [Hf _]; [done..|].
    eapply HInv; [exact Hc|exact Hf].
  - intros c Hc. destruct Hc as (Hs & Hd1 & Hl1 & Hd2 & Hl2).
    destruct (softmax_row_body std_exp c I N M n) as [_ Hv]; [done..|].
    destruct (smRow_ext std_exp ctx c I n M Hs) as [Hm Hsum].
    assert (Hx : wAt c (sm_src I) [n; i] = wAt ctx (sm_src I) [n; i]) by (unfold wAt; by rewrite Hs).
    destruct (Hv i Hi) as [Hv1 Hv2]. rewrite Hx, Hm, Hsum in Hv1, Hv2.
    split; [exact Hv1|exact Hv2].
  - intros n' c Hn' Hne Hc [HQ1 HQ2]. destruct Hc as (Hs & Hd1 & Hl1 & Hd2 & Hl2).
    destruct (softmax_row_body std_exp c I N M n') as [[_ Hf] _]; [done..|].
    destruct (Hf (sm_dest I)) as (_ & _ & Hk1); [by left|].
    destruct (Hf (sm_E I)) as (_ & _ & Hk2); [by right|].
    split; [refine (eq_trans (Hk1 n i _ Hi) HQ1)|refine (eq_trans (Hk2 n i _ Hi) HQ2)]; congruence.
Qed.

Lemma Qltb_comp (a a' b b' : Q) : a == a' -> b == b' -> Qltb a b = Qltb a' b'.
Proof.
  intros Ha Hb. unfold Qltb. f_equal.
  destruct (Qle_bool b a) eqn:E1, (Qle_bool b' a') eqn:E2; [done| | |done].
  - apply Qle_bool_iff in E1. rewrite Ha, Hb in E1. apply Qle_bool_iff in E1. congruence.
  - apply Qle_bool_iff in E2. rewrite <- Ha, <- Hb in E2. apply Qle_bool_iff in E2. congruence.
Qed.

Lemma std_max_comp (a a' b b' : Q) : a == a' -> b == b' -> std_max a b == std_max a' b'.
Proof. intros Ha Hb. unfold std_max. rewrite (Qltb_comp a a' b b') by done. by destruct (Qltb a' b'). Qed.

Lemma std_max_shift (a b t : Q) : std_max (a + t) (b + t) == std_max a b + t.
Proof.
  unfold std_max, Qltb.
  assert (E : Qle_bool (b + t) (a + t) = Qle_bool b a).
  { destruct (Qle_bool b a) eqn:E.
    - apply Qle_bool_iff. apply Qle_bool_iff in E. by apply Qplus_le_l.
    - destruct (Qle_bool (b + t) (a + t)) eqn:E'; [|done].
      apply Qle_bool_iff in E'. apply Qplus_le_l in E'. apply Qle_bool_iff in E'. congruence. }
  rewrite E. by destruct (Qle_bool b a).
Qed.

Lemma fold_max_shift (f g : nat -> Q) (l : list nat) (m1 m2 t : Q) :
  m2 == m1 + t -> (forall j, j ∈ l -> g j == f j + t) ->
  fold_left (fun m j => std_max m (g j)) l m2 ==
  fold_left (fun m j => std_max m (f j)) l m1 + t.
Proof.
  revert m1 m2. induction l as [|j l IH]; intros m1 m2 Hm Hg; [done|]. cbn.
  apply IH; [|intros j' Hj'; apply Hg; by right].
  rewrite <- std_max_shift. apply std_max_comp; [done|]. apply Hg. by left.
Qed.

Lemma fold_sum_comp (h1 h2 : nat -> Q) (l : list nat) (s1 s2 : Q) :
  s2 == s1 -> (forall j, j ∈ l -> h2 j == h1 j) ->
  fold_left (fun s j => (s + h2 j)%Q) l s2 == fold_left (fun s j => (s + h1 j)%Q) l s1.
Proof.
  revert s1 s2. induction l as [|j l IH]; intros s1 s2 Hs Hh; [done|]. cbn.
  apply IH; [|intros j' Hj'; apply Hh; by right].
  rewrite Hs, (Hh j) by (by left). reflexivity.
Qed.

(** C10: adding a constant [t] to every element of row [n] of the SoftMax
    input leaves row [n] of [dest] and of the cache [E] unchanged after the
    forward (in exact arithmetic: the row maximum moves by [t] as well, so
    every exponent [x(n, i) - max_n] is the same).  The other rows of the
    two inputs are arbitrary. *)
Theorem softmax_fwd_shift_invariant :
  forall (std_exp : Q -> Q), (forall a b, a == b -> std_exp a == std_exp b) ->
  forall (ctx ctx2 : Context) (I : SoftMaxInst) (N M n : nat) (t : Q),
    sm_src I <> sm_dest I -> sm_src I <> sm_E I -> sm_dest I <> sm_E I ->
    (forall c, c = ctx \/ c = ctx2 ->
       dims (weights c (sm_src I)) = [N; M] /\
       dims (weights c (sm_dest I)) = [N; M] /\ length (fdata (weights c (sm_dest I))) = N * M /\
       dims (weights c (sm_E I)) = [N; M] /\ length (fdata (weights c (sm_E I))) = N * M) ->
    n < N ->
    (forall j, j < M -> wAt ctx2 (sm_src I) [n; j] == wAt ctx (sm_src I) [n; j] + t) ->
    forall i, i < M ->
      wAt (fwdSoftMaxInst std_exp ctx2 I) (sm_dest I) [n; i] ==
        wAt (fwdSoftMaxInst std_exp ctx I) (sm_dest I) [n; i] /\
      wAt (fwdSoftMaxInst std_exp ctx2 I) (sm_E I) [n; i] ==
        wAt (fwdSoftMaxInst std_exp ctx I) (sm_E I) [n; i].
Proof.
  intros ex Hex ctx ctx2 I N M n t H1 H2 H3 Hsh Hn Hrow i Hi.
  destruct (Hsh ctx) as (Hs1 & Hd1 & Hl1 & He1 & Hm1); [by left|].
  destruct (Hsh ctx2) as (Hs2 & Hd2 & Hl2 & He2 & Hm2); [by right|].
  destruct (softmax_fwd_row ex ctx I N M n i) as [-> ->]; [done..|].
  destruct (softmax_fwd_row ex ctx2 I N M n i) as [-> ->]; [done..|].
  assert (Hmax : smRowMax ctx2 I n M == smRowMax ctx I n M + t).
  { unfold smRowMax. apply fold_max_shift.
    - apply Hrow. lia.
    - intros j Hj. apply Hrow. apply list_elem_of_In, in_seq in Hj. lia. }
  assert (Hexp : forall j, j < M ->
            ex (wAt ctx2 (sm_src I) [n; j] - smRowMax ctx2 I n M)%Q ==
            ex (wAt ctx (sm_src I) [n; j] - smRowMax ctx I n M)%Q).
  { intros j Hj. apply Hex. rewrite (Hrow j Hj), Hmax. ring. }
  assert (Hsum : smRowSum ex ctx2 I n M == smRowSum ex ctx I n M).
  { unfold smRowSum. apply fold_sum_comp; [reflexivity|].
    intros j Hj. apply Hexp. apply list_elem_of_In, in_seq in Hj. lia. }
  rewrite (Hexp i Hi), Hsum. split; reflexivity.
Qed.

Lemma softmax_fwd_shift_invariant_witness :
  wAt (fwdSoftMaxInst (fun q => 1 + q * q)%Q s5_shifted_ctx s5_sm) 1 [0%nat; 1%nat] ==
    wAt (fwdSoftMaxInst (fun q => 1 + q * q)%Q s5_ctx s5_sm) 1 [0%nat; 1%nat] /\
  wAt (fwdSoftMaxInst (fun q => 1 + q * q)%Q s5_shifted_ctx s5_sm) 2 [0%nat; 1%nat] ==
    wAt (fwdSoftMaxInst (fun q => 1 + q * q)%Q s5_ctx s5_sm) 2 [0%nat; 1%nat].
Proof.
  apply (softmax_fwd_shift_invariant (fun q => 1 + q * q)%Q
           (fun a b H => Qplus_comp 1%Q 1%Q (Qeq_refl 1%Q) (a * a)%Q (b * b)%Q (Qmult_comp a b H a b H))
           s5_ctx s5_shifted_ctx s5_sm 1 3 0 2).
  - discriminate.
  - discriminate.
  - discriminate.
  - intros c [-> | ->]; split_and!; reflexivity.
  - lia.
  - intros j Hj. destruct j as [|[|[|j]]]; [vm_compute; reflexivity..|lia].
  - lia.
Defined.

(** * Element-wise kernels *)

(** A loop [for i < n: v.raw(i) = f(ctx, i)] whose right-hand side reads
    the context only at flat index [i] computes every element from the
    context before the loop, even when [v] is also read. *)
Lemma forN_wmap (n : nat) (v : Value) (f : Context -> nat -> Q) (ctx : Context) :
  (forall c c' i, (forall u, wRaw c u i = wRaw c' u i) -> (forall u, gRaw c u i = gRaw c' u i) ->
     f c i = f c' i) ->
  let ctx' := forN n (fun i c => wSetRaw c v i (f c i)) ctx in
  grads ctx' = grads ctx /\
  (forall u, u <> v -> weights ctx' u = weights ctx u) /\
  dims (weights ctx' v) = dims (weights ctx v) /\
  length (fdata (weights ctx' v)) = length (fdata (weights ctx v)) /\
  (forall i, i < n -> i < length (fdata (weights ctx v)) -> wRaw ctx' v i = f ctx i) /\
  (forall i, n <= i -> wRaw ctx' v i = wRaw ctx v i).
Proof.
  intros Hf. cbv zeta. induction n as [|n IH].
  - split_and!; try done. intros; lia.
  - destruct IH as (Hg & Ho & Hd & Hl & Hin & Hout). rewrite !forN_S.
    set (c := forN n _ ctx) in *.
    assert (Hfc : f c n = f ctx n).
    { apply Hf; intros u; [|by unfold gRaw; rewrite Hg].
      destruct (decide (u = v)) as [->|Hne]; [apply Hout; lia|].
      unfold wRaw. by rewrite Ho. }
    split_and!.
    + cbn. apply Hg.
    + intros u Hu. rewrite weights_wSetRaw_other by done. by apply Ho.
    + unfold wSetRaw. rewrite weights_setWeight_eq. apply Hd.
    + rewrite length_wSetRaw. apply Hl.
    + intros i Hi Hil. destruct (decide (i = n)) as [->|Hne].
      * rewrite wRaw_wSetRaw_eq by (by rewrite Hl). done.
      * rewrite wRaw_wSetRaw_ne by lia. apply Hin; [lia|done].
    + intros i Hi. rewrite wRaw_wSetRaw_ne by lia. apply Hout. lia.
Qed.

(** The same for a loop writing the gradient [v]. *)
Lemma forN_gmap (n : nat) (v : Value) (f : Context -> nat -> Q) (ctx : Context) :
  (forall c c' i, (forall u, wRaw c u i = wRaw c' u i) -> (forall u, gRaw c u i = gRaw c' u i) ->
     f c i = f c' i) ->
  let ctx' := forN n (fun i c => gSetRaw c v i (f c i)) ctx in
  weights ctx' = weights ctx /\
  (forall u, u <> v -> grads ctx' u = grads ctx u) /\
  dims (grads ctx' v) = dims (grads ctx v) /\
  length (fdata (grads ctx' v)) = length (fdata (grads ctx v)) /\
  (forall i, i < n -> i < length (fdata (grads ctx v)) -> gRaw ctx' v i = f ctx i) /\
  (forall i, n <= i -> gRaw ctx' v i = gRaw ctx v i).
Proof.
  intros Hf. cbv zeta. induction n as [|n IH].
  - split_and!; try done. intros; lia.
  - destruct IH as (Hw & Ho & Hd & Hl & Hin & Hout). rewrite !forN_S.
    set (c := forN n _ ctx) in *.
    assert (Hfc : f c n = f ctx n).
    { apply Hf; intros u; [by unfold wRaw; rewrite Hw|].
      destruct (decide (u = v)) as [->|Hne]; [apply Hout; lia|].
      unfold gRaw. by rewrite Ho. }
    split_and!.
    + cbn. apply Hw.
    + intros u Hu. unfold gSetRaw. rewrite grads_setGrad_ne by done. by apply Ho.
    + unfold gSetRaw. rewrite grads_setGrad_eq. apply Hd.
    + rewrite length_gSetRaw. apply Hl.
    + intros i Hi Hil. destruct (decide (i = n)) as [->|Hne].
      * rewrite gRaw_gSetRaw_eq by (by rewrite Hl). done.
      * rewrite gRaw_gSetRaw_ne by lia. apply Hin; [lia|done].
    + intros i Hi. rewrite gRaw_gSetRaw_ne by lia. apply Hout. lia.
Qed.


(** X1: the copy kernels ([fwdCopyInst], [fwdReshapeInst] and
    [fwdRegressionInst]) set element [i] of [dest] to element [i] of [src]
    for every [i] below the size of [src] that [dest] holds, keep the other
    elements of [dest], its shape, every other weight and every gradient. *)
Theorem fwd_copy_kernels_copy_elements :
  forall (ctx ctx' : Context) (s d : Value),
    ctx' = fwdCopyInst ctx (mkSrcDestInst s d) \/
    ctx' = fwdReshapeInst ctx (mkSrcDestInst s d) \/
    (exists e, ctx' = fwdRegressionInst ctx (mkRegressionInst s d e)) ->
    grads ctx' = grads ctx /\
    (forall u, u <> d -> weights ctx' u = weights ctx u) /\
    dims (weights ctx' d) = dims (weights ctx d) /\
    (forall i, i < size (weights ctx s) -> i < length (fdata (weights ctx d)) ->
       wRaw ctx' d i = wRaw ctx s i) /\
    (forall i, size (weights ctx s) <= i -> wRaw ctx' d i = wRaw ctx d i).
Proof.
  intros ctx ctx' s d Hc.
  assert (Hcp : ctx' = forN (size (weights ctx s))
                         (fun i c => wSetRaw c d i ((fun c i => wRaw c s i) c i)) ctx).
  { destruct Hc as [-> | [-> | [e ->]]]; reflexivity. }
  destruct (forN_wmap (size (weights ctx s)) d (fun c i => wRaw c s i) ctx)
    as (Hg & Ho & Hd & _ & Hin & Hout).
  { intros c c' i Hw _. apply Hw. }
  rewrite Hcp. split_and!; done.
Qed.

(** X2: element [i] of the ReLU output is [0] when element [i] of the input
    (as it was before the call) is negative and that element otherwise, so it
    is never negative; this holds also when [dest] is [src] (in place). *)
Theorem fwd_relu_clamps :
  forall (ctx : Context) (I : SrcDestInst) (i : nat),
    i < size (weights ctx (sd_src I)) -> i < length (fdata (weights ctx (sd_dest I))) ->
    wRaw (fwdReluInst ctx I) (sd_dest I) i =
      (if Qltb (wRaw ctx (sd_src I) i) 0 then 0 else wRaw ctx (sd_src I) i)%Q /\
    (0 <= wRaw (fwdReluInst ctx I) (sd_dest I) i)%Q.
Proof.
  intros ctx I i Hi Hl. unfold fwdReluInst.
  destruct (forN_wmap (size (weights ctx (sd_src I))) (sd_dest I)
              (fun c i => let val := wRaw c (sd_src I) i in
                          if Qltb val 0 then 0%Q else val) ctx)
    as (_ & _ & _ & _ & Hin & _).
  { intros c c' j Hw _. cbv zeta. by rewrite (Hw (sd_src I)). }
  cbv zeta in Hin. rewrite Hin by done. split; [done|].
  unfold Qltb. destruct (Qle_bool 0 (wRaw ctx (sd_src I) i)) eqn:E; cbn.
  - by apply Qle_bool_iff.
  - apply Qle_refl.
Qed.

(** X3: element [i] of the output of the element-wise [Add] ([Mul]) is the
    sum (product) of elements [i] of [LHS] and [RHS] as they were before the
    call, for every [i] below the size of [dest]; this holds also when
    [dest] is [LHS] or [RHS]. *)
Theorem fwd_arith_elementwise :
  forall (ctx : Context) (I : ArithmeticInst) (i : nat),
    i < size (weights ctx (ar_dest I)) -> i < length (fdata (weights ctx (ar_dest I))) ->
    wRaw (fwdArithmeticInst ctx I) (ar_dest I) i =
      match ar_kind I with
      | ArithAdd => (wRaw ctx (ar_LHS I) i + wRaw ctx (ar_RHS I) i)%Q
      | ArithMul => (wRaw ctx (ar_LHS I) i * wRaw ctx (ar_RHS I) i)%Q
      end.
Proof.
  intros ctx I i Hi Hl. unfold fwdArithmeticInst.
  destruct (ar_kind I).
  - destruct (forN_wmap (size (weights ctx (ar_dest I))) (ar_dest I)
                (fun c i => wRaw c (ar_LHS I) i + wRaw c (ar_RHS I) i)%Q ctx)
      as (_ & _ & _ & _ & Hin & _).
    { intros c c' j Hw _. by rewrite (Hw (ar_LHS I)), (Hw (ar_RHS I)). }
    by apply Hin.
  - destruct (forN_wmap (size (weights ctx (ar_dest I))) (ar_dest I)
                (fun c i => wRaw c (ar_LHS I) i * wRaw c (ar_RHS I) i)%Q ctx)
      as (_ & _ & _ & _ & Hin & _).
    { intros c c' j Hw _. by rewrite (Hw (ar_LHS I)), (Hw (ar_RHS I)). }
    by apply Hin.
Qed.

(** X4: the backward of copy and of reshape adds element [i] of the output
    gradient to element [i] of the input gradient (below the size of the
    output gradient, resp. of the output weight) and changes no weight; when
    [src] and [dest] are the same value the gradient is doubled. *)
Theorem bwd_copy_reshape_accumulate :
  forall (ctx : Context) (I : SrcDestInst) (i : nat),
    i < length (fdata (grads ctx (sd_src I))) ->
    weights (bwdCopyInst ctx I) = weights ctx /\
    weights (bwdReshapeInst ctx I) = weights ctx /\
    (i < size (grads ctx (sd_dest I)) ->
       gRaw (bwdCopyInst ctx I) (sd_src I) i =
         (gRaw ctx (sd_src I) i + gRaw ctx (sd_dest I) i)%Q) /\
    (i < size (weights ctx (sd_dest I)) ->
       gRaw (bwdReshapeInst ctx I) (sd_src I) i =
         (gRaw ctx (sd_src I) i + gRaw ctx (sd_dest I) i)%Q).
Proof.
  intros ctx I i Hl.
  assert (Hr : forall c c' j, (forall u, wRaw c u j = wRaw c' u j) ->
                 (forall u, gRaw c u j = gRaw c' u j) ->
                 (gRaw c (sd_src I) j + gRaw c (sd_dest I) j)%Q =
                 (gRaw c' (sd_src I) j + gRaw c' (sd_dest I) j)%Q).
  { intros c c' j _ Hg. by rewrite !Hg. }
  destruct (forN_gmap (size (grads ctx (sd_dest I))) (sd_src I)
              (fun c i => gRaw c (sd_src I) i + gRaw c (sd_dest I) i)%Q ctx Hr)
    as (Hw1 & _ & _ & _ & Hin1 & _).
  destruct (forN_gmap (size (weights ctx (sd_dest I))) (sd_src I)
              (fun c i => gRaw c (sd_src I) i + gRaw c (sd_dest I) i)%Q ctx Hr)
    as (Hw2 & _ & _ & _ & Hin2 & _).
  unfold bwdCopyInst, bwdReshapeInst. split_and!; [done|done| |].
  - intros Hi. by apply Hin1.
  - intros Hi. by apply Hin2.
Qed.


(** X5: running the sigmoid forward and then its backward adds
    [s * (1 - s) * outG(i)] to element [i] of the input gradient, where
    [s = 1 / (1 + exp(-x(i)))] is the forward's output for the input
    element [x(i)]: the derivative of the sigmoid at [x(i)], taken from the
    saved output.  This holds also when [dest] is [src]. *)
Theorem sigmoid_fwd_then_bwd :
  forall (std_exp : Q -> Q) (ctx : Context) (I : SrcDestInst) (i : nat),
    i < size (weights ctx (sd_dest I)) ->
    i < length (fdata (weights ctx (sd_dest I))) ->
    i < length (fdata (grads ctx (sd_src I))) ->
    let s := (1 / (1 + std_exp (- wRaw ctx (sd_src I) i)))%Q in
    gRaw (bwdSigmoidInst (fwdSigmoidInst std_exp ctx I) I) (sd_src I) i =
      (gRaw ctx (sd_src I) i + s * (1 - s) * gRaw ctx (sd_dest I) i)%Q.
Proof.
  intros ex ctx I i Hi Hl Hg. cbv zeta. unfold fwdSigmoidInst.
  destruct (forN_wmap (size (weights ctx (sd_dest I))) (sd_dest I)
              (fun c i => let val := wRaw c (sd_src I) i in 1 / (1 + ex (- val)))%Q ctx)
    as (Hg1 & Ho1 & Hd1 & Hl1 & Hin1 & _).
  { intros c c' j Hw _. cbv zeta. by rewrite (Hw (sd_src I)). }
  cbv zeta in Hin1.
  set (c1 := forN _ _ ctx) in *.
  unfold bwdSigmoidInst.
  destruct (forN_gmap (size (weights c1 (sd_dest I))) (sd_src I)
              (fun c i => let val := wRaw c (sd_dest I) i in
                          gRaw c (sd_src I) i + val * (1 - val) * gRaw c (sd_dest I) i)%Q c1)
    as (_ & _ & _ & _ & Hin2 & _).
  { intros c c' j Hw Hg'. cbv zeta. by rewrite (Hw (sd_dest I)), !Hg'. }
  cbv zeta in Hin2. rewrite Hin2.
  - unfold gRaw. rewrite Hg1. unfold gRaw in Hin1. by rewrite Hin1.
  - unfold size. by rewrite Hd1.
  - unfold gRaw. by rewrite Hg1.
Qed.

(** X6: running the tanh forward and then its backward adds
    [(1 - t * t) * outG(i)] to element [i] of the input gradient, where [t]
    is the forward's output [(e^x - e^-x) / (e^x + e^-x)] for the input
    element [x(i)]. *)
Theorem tanh_fwd_then_bwd :
  forall (std_exp : Q -> Q) (ctx : Context) (I : SrcDestInst) (i : nat),
    i < size (weights ctx (sd_src I)) ->
    i < size (weights ctx (sd_dest I)) ->
    i < length (fdata (weights ctx (sd_dest I))) ->
    i < length (fdata (grads ctx (sd_src I))) ->
    let x := wRaw ctx (sd_src I) i in
    let t := ((std_exp x - std_exp (- x)) / (std_exp x + std_exp (- x)))%Q in
    gRaw (bwdTanhInst (fwdTanhInst std_exp ctx I) I) (sd_src I) i =
      (gRaw ctx (sd_src I) i + (1 - t * t) * gRaw ctx (sd_dest I) i)%Q.
Proof.
  intros ex ctx I i His Hi Hl Hg. cbv zeta. unfold fwdTanhInst.
  destruct (forN_wmap (size (weights ctx (sd_src I))) (sd_dest I)
              (fun c i => let val := wRaw c (sd_src I) i in
                          let exp_val := ex val in
                          let exp_neg_val := ex (- val) in
                          (exp_val - exp_neg_val) / (exp_val + exp_neg_val))%Q ctx)
    as (Hg1 & Ho1 & Hd1 & Hl1 & Hin1 & _).
  { intros c c' j Hw _. cbv zeta. by rewrite (Hw (sd_src I)). }
  cbv zeta in Hin1.
  set (c1 := forN _ _ ctx) in *.
  unfold bwdTanhInst.
  destruct (forN_gmap (size (weights c1 (sd_dest I))) (sd_src I)
              (fun c i => let val := wRaw c (sd_dest I) i in
                          gRaw c (sd_src I) i + (1 - val * val) * gRaw c (sd_dest I) i)%Q c1)
    as (_ & _ & _ & _ & Hin2 & _).
  { intros c c' j Hw Hg'. cbv zeta. by rewrite (Hw (sd_dest I)), !Hg'. }
  cbv zeta in Hin2. rewrite Hin2.
  - unfold gRaw. rewrite Hg1. unfold gRaw in Hin1. by rewrite Hin1.
  - unfold size. by rewrite Hd1.
  - unfold gRaw. by rewrite Hg1.
Qed.


Lemma fwd_copy_kernels_copy_elements_witness :
  wRaw (fwdCopyInst s4_ctx (mkSrcDestInst 0 1)) 1 2 = wRaw s4_ctx 0 2 /\
  wRaw (fwdReshapeInst s4_ctx (mkSrcDestInst 0 1)) 1 0 = wRaw s4_ctx 0 0.
Proof.
  split.
  - destruct (fwd_copy_kernels_copy_elements s4_ctx (fwdCopyInst s4_ctx (mkSrcDestInst 0 1)) 0 1
                (or_introl eq_refl)) as (_ & _ & _ & H & _).
    apply H; vm_compute; lia.
  - destruct (fwd_copy_kernels_copy_elements s4_ctx (fwdReshapeInst s4_ctx (mkSrcDestInst 0 1)) 0 1
                (or_intror (or_introl eq_refl))) as (_ & _ & _ & H & _).
    apply H; vm_compute; lia.
Defined.

Lemma fwd_relu_clamps_witness :
  wRaw (fwdReluInst s4_ctx s4_relu) 1 0 =
    (if Qltb (wRaw s4_ctx 0 0) 0%Q then 0%Q else wRaw s4_ctx 0 0) /\
  Qle 0%Q (wRaw (fwdReluInst s4_ctx s4_relu) 1 0).
Proof. apply (fwd_relu_clamps s4_ctx s4_relu 0); vm_compute; lia. Defined.

Lemma fwd_arith_elementwise_witness :
  wRaw (fwdArithmeticInst s6_ctx s6_mul) 0 0 = Qmult (wRaw s6_ctx 1 0) (wRaw s6_ctx 2 0).
Proof. apply (fwd_arith_elementwise s6_ctx s6_mul 0); vm_compute; lia. Defined.

Lemma bwd_copy_reshape_accumulate_witness :
  gRaw (bwdCopyInst s4_ctx s4_relu) 0 1 = Qplus (gRaw s4_ctx 0 1) (gRaw s4_ctx 1 1) /\
  gRaw (bwdReshapeInst s4_ctx s4_relu) 0 1 = Qplus (gRaw s4_ctx 0 1) (gRaw s4_ctx 1 1).
Proof.
  destruct (bwd_copy_reshape_accumulate s4_ctx s4_relu 1) as (_ & _ & Hc & Hr);
    [vm_compute; lia|].
  split; [apply Hc | apply Hr]; vm_compute; lia.
Defined.

Lemma sigmoid_fwd_then_bwd_witness :
  gRaw (bwdSigmoidInst (fwdSigmoidInst (fun _ => 1%Q) s4_ctx s4_relu) s4_relu) 0 0 =
    Qplus (gRaw s4_ctx 0 0)
      (Qmult (Qmult (Qdiv 1%Q (Qplus 1%Q 1%Q)) (Qminus 1%Q (Qdiv 1%Q (Qplus 1%Q 1%Q))))
         (gRaw s4_ctx 1 0)).
Proof. apply (sigmoid_fwd_then_bwd (fun _ => 1%Q) s4_ctx s4_relu 0); vm_compute; lia. Defined.

Lemma tanh_fwd_then_bwd_witness :
  let t := Qdiv (Qminus 1%Q 1%Q) (Qplus 1%Q 1%Q) in
  gRaw (bwdTanhInst (fwdTanhInst (fun _ => 1%Q) s4_ctx s4_relu) s4_relu) 0 0 =
    Qplus (gRaw s4_ctx 0 0) (Qmult (Qminus 1%Q (Qmult t t)) (gRaw s4_ctx 1 0)).
Proof. apply (tanh_fwd_then_bwd (fun _ => 1%Q) s4_ctx s4_relu 0); vm_compute; lia. Defined.


(** * Further properties of the kernels *)

Lemma sumQ_snoc {X : Type} (f : X -> Q) (l : list X) (x : X) :
  sumQ f (l ++ [x]) = (sumQ f l + f x)%Q.
Proof. unfold sumQ. by rewrite fold_left_app. Qed.

(** A loop each of whose iterations [k] adds [inc k] to the observed value. *)
Lemma forN_acc (Inv : Context -> Prop) (obs : Context -> Q) (inc : nat -> Q) (n : nat)
    (body : nat -> Context -> Context) (ctx : Context) :
  Inv ctx ->
  (forall k c, k < n -> Inv c -> Inv (body k c) /\ (obs (body k c) == obs c + inc k)%Q) ->
  Inv (forN n body ctx) /\ (obs (forN n body ctx) == obs ctx + sumQ inc (seq 0 n))%Q.
Proof.
  intros H0 Hb. induction n as [|n IH].
  - split; [done|]. unfold sumQ. cbn [seq fold_left forN]. rewrite Qplus_0_r. reflexivity.
  - destruct IH as [HI HQ]; [intros k c Hk; apply Hb; lia|].
    rewrite forN_S, seq_S, sumQ_snoc. destruct (Hb n _ ltac:(lia) HI) as [HI' HQ'].
    split; [done|]. rewrite HQ', HQ. cbn [Nat.add]. ring.
Qed.

(** Two nested loops: the iteration [(n0, i0)] establishes [Q], the others keep it. *)
Lemma forN2_point (Inv U Q : Context -> Prop) (N M n0 i0 : nat)
    (body : nat -> nat -> Context -> Context) (ctx : Context) :
  n0 < N -> i0 < M -> Inv ctx -> U ctx ->
  (forall n i c, n < N -> i < M -> Inv c -> Inv (body n i c)) ->
  (forall n i c, n < N -> i < M -> (n, i) <> (n0, i0) -> Inv c -> U c -> U (body n i c)) ->
  (forall c, Inv c -> U c -> Q (body n0 i0 c)) ->
  (forall n i c, n < N -> i < M -> (n, i) <> (n0, i0) -> Inv c -> Q c -> Q (body n i c)) ->
  Q (forN N (fun n => forN M (body n)) ctx).
Proof.
  intros Hn Hi H0 U0 Hinv HU HQ HK.
  change (forN N (fun n => forN M (body n)) ctx) with
    (forN N (fun a c => fold_left (fun c x => body a x c) (seq 0 M) c) ctx).
  rewrite forN_nest.
  assert (Hin : forall p, p ∈ nest N (seq 0 M) -> p.1 < N /\ p.2 < M).
  { intros [a b]. rewrite elem_of_nest, elem_of_seq. cbn. lia. }
  apply (fold_point Inv U Q (nest N (seq 0 M)) (n0, i0) (fun p c => body p.1 p.2 c) ctx).
  - apply NoDup_nest, NoDup_seq.
  - rewrite elem_of_nest, elem_of_seq. lia.
  - done.
  - done.
  - intros p c Hp. destruct (Hin p Hp). by apply Hinv.
  - intros [a b] c Hp Hne. destruct (Hin _ Hp). by apply HU.
  - exact HQ.
  - intros [a b] c Hp Hne. destruct (Hin _ Hp). by apply HK.
Qed.

(** X7: the Regression backward adds to every input gradient [inG(n, i)] the
    error [inW(n, i) - expected(n, i)], and writes no weight. *)
Theorem bwd_regression_adds_error :
  forall (ctx : Context) (I : RegressionInst) (N M n i : nat),
    dims (weights ctx (rg_src I)) = [N; M] ->
    dims (grads ctx (rg_src I)) = [N; M] ->
    length (fdata (grads ctx (rg_src I))) = N * M ->
    n < N -> i < M ->
    weights (bwdRegressionInst ctx I) = weights ctx /\
    gAt (bwdRegressionInst ctx I) (rg_src I) [n; i] =
      (gAt ctx (rg_src I) [n; i] +
       (wAt ctx (rg_src I) [n; i] - wAt ctx (rg_expected I) [n; i]))%Q.
Proof.
  intros ctx I N M n i Hw Hg Hl Hn Hi. unfold bwdRegressionInst. rewrite Hw. cbn [nth].
  set (body := fun a b c =>
         gSetAt c (rg_src I) [a; b]
           (gAt c (rg_src I) [a; b] +
            (wAt c (rg_src I) [a; b] - wAt c (rg_expected I) [a; b]))%Q).
  set (Inv := fun c => weights c = weights ctx /\ dims (grads c (rg_src I)) = [N; M] /\
                       length (fdata (grads c (rg_src I))) = N * M).
  assert (HInv : forall a b c, Inv c -> Inv (body a b c)).
  { intros a b c (H1 & H2 & H3). unfold body. split_and!.
    - done.
    - by rewrite dims_gSetAt.
    - by rewrite length_gSetAt. }
  split.
  - apply (forN_inv (fun c => Inv c)); [done|]. intros a c Ha HI.
    apply (forN_inv (fun c => Inv c)); [done|]. intros b c' Hb HI'. by apply HInv.
  - refine (forN2_point Inv (fun c => gAt c (rg_src I) [n; i] = gAt ctx (rg_src I) [n; i])
             (fun c => gAt c (rg_src I) [n; i] =
                (gAt ctx (rg_src I) [n; i] +
                 (wAt ctx (rg_src I) [n; i] - wAt ctx (rg_expected I) [n; i]))%Q)
             N M n i body ctx Hn Hi _ eq_refl _ _ _ _).
    + done.
    + intros a b c _ _ HI. by apply HInv.
    + intros a b c Ha Hb Hne (H1 & H2 & H3) HU. unfold body.
      rewrite gAt_gSetAt_ne; [done|]. rewrite H2, !flatIndex_2.
      apply flat_row_ne; [lia|lia|done].
    + intros c (H1 & H2 & H3) HU. unfold body.
      rewrite gAt_gSetAt_eq; [|rewrite H2, H3, flatIndex_2; by apply flat_row_lt].
      unfold wAt. by rewrite H1, HU.
    + intros a b c Ha Hb Hne (H1 & H2 & H3) HQ. unfold body.
      rewrite gAt_gSetAt_ne; [done|]. rewrite H2, !flatIndex_2.
      apply flat_row_ne; [lia|lia|done].
Qed.


(** Two loops agree when their bodies agree on the contexts an invariant describes. *)
Lemma forN_ext_inv (Inv : Context -> Prop) (n : nat) (b1 b2 : nat -> Context -> Context)
    (ctx : Context) :
  Inv ctx -> (forall k c, k < n -> Inv c -> Inv (b2 k c) /\ b1 k c = b2 k c) ->
  forN n b1 ctx = forN n b2 ctx.
Proof.
  intros H0 Hb. induction n as [|n IH]; [done|].
  rewrite !forN_S, IH by (intros k c Hk Hc; apply Hb; [lia|done]).
  assert (HI : Inv (forN n b2 ctx)).
  { apply (forN_inv Inv); [done|]. intros k c Hk Hc. apply Hb; [lia|done]. }
  apply (proj2 (Hb n _ ltac:(lia) HI)).
Qed.

(** [forN2_point] for an inner loop that reads the context of the outer
    iteration (as [base] does), where the invariant makes that read constant. *)
Lemma forN2_point_dep (Inv U Q : Context -> Prop) (N M n0 i0 : nat)
    (body : nat -> Context -> nat -> Context -> Context) (ctx : Context) :
  n0 < N -> i0 < M -> Inv ctx -> U ctx ->
  (forall n c i c', n < N -> Inv c -> body n c i c' = body n ctx i c') ->
  (forall n i c, n < N -> i < M -> Inv c -> Inv (body n ctx i c)) ->
  (forall n i c, n < N -> i < M -> (n, i) <> (n0, i0) -> Inv c -> U c -> U (body n ctx i c)) ->
  (forall c, Inv c -> U c -> Q (body n0 ctx i0 c)) ->
  (forall n i c, n < N -> i < M -> (n, i) <> (n0, i0) -> Inv c -> Q c -> Q (body n ctx i c)) ->
  Q (forN N (fun n c => forN M (body n c) c) ctx).
Proof.
  intros Hn Hi H0 U0 Hdep Hinv HU HQ HK.
  rewrite (forN_ext_inv Inv N _ (fun n => forN M (body n ctx)) ctx H0).
  - by apply (forN2_point Inv U Q N M n0 i0 (fun n => body n ctx) ctx).
  - intros k c Hk Hc. split.
    + apply (forN_inv Inv); [done|]. intros i c' Hi' Hc'. by apply Hinv.
    + apply forN_ext. intros i c' _. by apply Hdep.
Qed.

Lemma getElementPtr_row (t : Tensor) (B : nat) (ds : list nat) (n : nat) :
  dims t = B :: ds -> getElementPtr t [n] = n * product ds.
Proof. intros H. unfold getElementPtr. rewrite H. destruct ds; cbn; lia. Qed.

Lemma flattenCdr_2 (N O : nat) : flattenCdr [N; O] = (N, O).
Proof. cbn. f_equal. lia. Qed.

(** X8: the FullyConnected forward computes every output [dest(n, i)] as the
    dot product of row [n] of the flattened input with row [i] of the filter,
    plus [bias(i)], all read before the kernel runs, when the destination is
    none of the operands. *)
Theorem fc_fwd_affine :
  forall (ctx : Context) (I : FullyConnectedInst) (N O B : nat) (ds : list nat) (n i : nat),
    dims (weights ctx (fc_dest I)) = [N; O] ->
    length (fdata (weights ctx (fc_dest I))) = N * O ->
    dims (weights ctx (fc_src I)) = B :: ds ->
    fc_dest I <> fc_src I -> fc_dest I <> fc_filter I -> fc_dest I <> fc_bias I ->
    n < N -> i < O ->
    wAt (fwdFullyConnectedInst ctx I) (fc_dest I) [n; i] =
      (sumQ (fun j => wRaw ctx (fc_src I) (n * product ds + j) * wAt ctx (fc_filter I) [i; j])
            (seq 0 (product ds)) + wAt ctx (fc_bias I) [i])%Q.
Proof.
  intros ctx I N O B ds n i Hd Hl Hs Hns Hnf Hnb Hn Hi.
  unfold fwdFullyConnectedInst. rewrite Hd, flattenCdr_2, Hs.
  set (P := product ds).
  set (Inv := fun c => weights c (fc_src I) = weights ctx (fc_src I) /\
                       weights c (fc_filter I) = weights ctx (fc_filter I) /\
                       weights c (fc_bias I) = weights ctx (fc_bias I) /\
                       dims (weights c (fc_dest I)) = [N; O] /\
                       length (fdata (weights c (fc_dest I))) = N * O).
  set (body := fun (a : nat) (c0 : Context) (b : nat) (c : Context) =>
         let base := getElementPtr (weights c0 (fc_src I)) [a] in
         wSetAt c (fc_dest I) [a; b]
           (fold_left (fun sum j =>
              (sum + wRaw c (fc_src I) (base + j) * wAt c (fc_filter I) [b; j])%Q)
              (seq 0 P) 0%Q + wAt c (fc_bias I) [b])%Q).
  assert (HInv : forall a b c, Inv c -> Inv (body a ctx b c)).
  { intros a b c (H1 & H2 & H3 & H4 & H5). unfold body. split_and!.
    - by rewrite weights_wSetAt_other by congruence.
    - by rewrite weights_wSetAt_other by congruence.
    - by rewrite weights_wSetAt_other by congruence.
    - by rewrite dims_wSetAt.
    - by rewrite length_wSetAt. }
  refine (forN2_point_dep Inv (fun _ => True)
            (fun c => wAt c (fc_dest I) [n; i] =
               (sumQ (fun j => wRaw ctx (fc_src I) (n * P + j) * wAt ctx (fc_filter I) [i; j])
                     (seq 0 P) + wAt ctx (fc_bias I) [i])%Q)
            N O n i body ctx Hn Hi _ Logic.I _ _ _ _ _).
  - split_and!; try done. 
  - intros a c b c' _ (H1 & _). unfold body. by rewrite H1.
  - intros a b c _ _ HI. by apply HInv.
  - done.
  - intros c (H1 & H2 & H3 & H4 & H5) _. unfold body.
    rewrite wAt_wSetAt_eq; [|rewrite H4, H5, flatIndex_2; by apply flat_row_lt].
    rewrite (getElementPtr_row _ B ds) by done. unfold sumQ, wRaw, wAt.
    rewrite H1, H2, H3. reflexivity.
  - intros a b c Ha Hb Hne (H1 & H2 & H3 & H4 & H5) HQ. unfold body.
    rewrite wAt_wSetAt_ne; [done|]. rewrite H4, !flatIndex_2.
    apply flat_row_ne; [lia|lia|done].
Qed.


Lemma forN_acc_to (Inv : Context -> Prop) (obs : Context -> Q) (inc : nat -> Q) (n : nat)
    (body : nat -> Context -> Context) (ctx : Context) (r : Q) :
  Inv ctx ->
  (forall k c, k < n -> Inv c -> Inv (body k c) /\ (obs (body k c) == obs c + inc k)%Q) ->
  (obs ctx + sumQ inc (seq 0 n) == r)%Q ->
  Inv (forN n body ctx) /\ (obs (forN n body ctx) == r)%Q.
Proof.
  intros H0 Hb Hr. destruct (forN_acc Inv obs inc n body ctx H0 Hb) as [HI HQ].
  split; [done|]. by rewrite HQ.
Qed.

Lemma fold_sumQ_zero {X : Type} (f : X -> Q) (l : list X) (s : Q) :
  (forall x, x ∈ l -> f x == 0)%Q -> (fold_left (fun s p => s + f p) l s == s)%Q.
Proof.
  revert s. induction l as [|x l IH]; intros s Hf; cbn; [reflexivity|].
  rewrite IH.
  - rewrite (Hf x) by (by left). ring.
  - intros y Hy. apply Hf. by right.
Qed.

(** A sum whose terms vanish except at [i0] is its term at [i0]. *)
Lemma sumQ_indicator (f : nat -> Q) (M i0 : nat) :
  i0 < M -> (sumQ (fun i => if Nat.eqb i i0 then f i else 0) (seq 0 M) == f i0)%Q.
Proof.
  intros Hi. induction M as [|M IH]; [lia|].
  rewrite seq_S, sumQ_snoc. cbn [Nat.add].
  destruct (decide (i0 = M)) as [->|Hne].
  - rewrite Nat.eqb_refl. unfold sumQ. rewrite fold_sumQ_zero; [ring|].
    intros x Hx. apply elem_of_seq in Hx.
    destruct (Nat.eqb_spec x M); [lia|reflexivity].
  - rewrite IH by lia. destruct (Nat.eqb_spec M i0); [lia|ring].
Qed.

Lemma gAt_gSetRaw_other (c : Context) (u v : Value) (k : nat) (cs : list nat) (x : Q) :
  u <> v -> gAt (gSetRaw c v k x) u cs = gAt c u cs.
Proof. intros H. unfold gAt, gSetRaw. by rewrite grads_setGrad_ne. Qed.

Lemma gRaw_gSetAt_other (c : Context) (u v : Value) (cs : list nat) (k : nat) (x : Q) :
  u <> v -> gRaw (gSetAt c v cs x) u k = gRaw c u k.
Proof. intros H. unfold gRaw, gSetAt. by rewrite grads_setGrad_ne. Qed.

Lemma dims_gSetRaw (c : Context) (u v : Value) (k : nat) (x : Q) :
  dims (grads (gSetRaw c v k x) u) = dims (grads c u).
Proof.
  unfold gSetRaw. destruct (decide (u = v)) as [->|Hne].
  - by rewrite grads_setGrad_eq.
  - by rewrite grads_setGrad_ne.
Qed.

Lemma flatIndex_1 (O i : nat) : flatIndex [O] [i] = i.
Proof. cbn. lia. Qed.

(** X9: the FullyConnected backward, on operands that are four distinct
    values, adds to [biasG(i)] the sum over the batch of [outG(n, i)], to
    [filterG(i, j)] the sum over the batch of [inW(n, j) * outG(n, i)], and to
    the input gradient [inG(n, j)] the sum over the outputs of
    [filterW(i, j) * outG(n, i)]; it writes no weight. *)
Theorem fc_bwd_gradients :
  forall (ctx : Context) (I : FullyConnectedInst) (N O B : nat) (ds : list nat),
    let P := product ds in
    let res := bwdFullyConnectedInst ctx I in
    dims (weights ctx (fc_dest I)) = [N; O] ->
    dims (weights ctx (fc_src I)) = B :: ds ->
    dims (grads ctx (fc_filter I)) = [O; P] ->
    length (fdata (grads ctx (fc_filter I))) = O * P ->
    dims (grads ctx (fc_bias I)) = [O] ->
    length (fdata (grads ctx (fc_bias I))) = O ->
    N * P <= length (fdata (grads ctx (fc_src I))) ->
    NoDup [fc_src I; fc_dest I; fc_filter I; fc_bias I] ->
    weights res = weights ctx /\
    (forall i, i < O ->
       (gAt res (fc_bias I) [i] ==
          gAt ctx (fc_bias I) [i] + sumQ (fun n => gAt ctx (fc_dest I) [n; i]) (seq 0 N))%Q) /\
    (forall i j, i < O -> j < P ->
       (gAt res (fc_filter I) [i; j] ==
          gAt ctx (fc_filter I) [i; j] +
          sumQ (fun n => wRaw ctx (fc_src I) (n * P + j) * gAt ctx (fc_dest I) [n; i]) (seq 0 N))%Q) /\
    (forall n j, n < N -> j < P ->
       (gRaw res (fc_src I) (n * P + j) ==
          gRaw ctx (fc_src I) (n * P + j) +
          sumQ (fun i => wAt ctx (fc_filter I) [i; j] * gAt ctx (fc_dest I) [n; i]) (seq 0 O))%Q).
Proof.
  intros ctx I N O B ds P res Hd Hs Hfd Hfl Hbd Hbl Hsl HND.
  rewrite !NoDup_cons, !not_elem_of_cons in HND.
  destruct HND as ((Hsd & Hsf & Hsb & _) & (Hdf & Hdb & _) & (Hfb & _) & _ & _).
  set (Inv := fun c =>
         weights c = weights ctx /\ grads c (fc_dest I) = grads ctx (fc_dest I) /\
         dims (grads c (fc_filter I)) = [O; P] /\ length (fdata (grads c (fc_filter I))) = O * P /\
         dims (grads c (fc_bias I)) = [O] /\ length (fdata (grads c (fc_bias I))) = O /\
         length (fdata (grads c (fc_src I))) = length (fdata (grads ctx (fc_src I)))).
  assert (Hraw : forall c k x, Inv c -> Inv (gSetRaw c (fc_src I) k x)).
  { intros c k x (H1 & H2 & H3 & H4 & H5 & H6 & H7). unfold Inv.
    rewrite !dims_gSetRaw, !length_gSetRaw. unfold gSetRaw at 2. rewrite grads_setGrad_ne by done.
    done. }
  assert (Hfil : forall c cs x, Inv c -> Inv (gSetAt c (fc_filter I) cs x)).
  { intros c cs x (H1 & H2 & H3 & H4 & H5 & H6 & H7). unfold Inv.
    rewrite !dims_gSetAt, !length_gSetAt. unfold gSetAt at 2. rewrite grads_setGrad_ne by done.
    done. }
  assert (Hbia : forall c cs x, Inv c -> Inv (gSetAt c (fc_bias I) cs x)).
  { intros c cs x (H1 & H2 & H3 & H4 & H5 & H6 & H7). unfold Inv.
    rewrite !dims_gSetAt, !length_gSetAt. unfold gSetAt at 2. rewrite grads_setGrad_ne by done.
    done. }
  assert (HI0 : Inv ctx) by done.
  assert (HIres : Inv res).
  { unfold res, bwdFullyConnectedInst. apply (forN_inv Inv); [done|]. intros k c _ Hc.
    apply (forN_inv Inv); [done|]. intros i c0 _ Hc0. cbv beta zeta. apply Hbia.
    apply (forN_inv Inv); [done|]. intros j c1 _ Hc1. apply Hfil, Hraw, Hc1. }
  assert (Hbase : forall c k, Inv c -> getElementPtr (weights c (fc_src I)) [k] = k * P).
  { intros c k (H1 & _). rewrite H1. by apply (getElementPtr_row _ B). }
  assert (Hdest : forall c cs, Inv c -> gAt c (fc_dest I) cs = gAt ctx (fc_dest I) cs).
  { intros c cs (_ & H2 & _). unfold gAt. by rewrite H2. }
  assert (Hw : forall c, Inv c -> forall u, weights c u = weights ctx u).
  { intros c (H1 & _) u. by rewrite H1. }
  split; [apply HIres|]. unfold res, bwdFullyConnectedInst.
  rewrite Hd, flattenCdr_2, Hs. cbn [fst snd flattenCdr]. fold P.
  split_and!.
  - (* bias *)
    intros i0 Hi0.
    refine (proj2 (forN_acc_to Inv (fun c => gAt c (fc_bias I) [i0])
                     (fun n => gAt ctx (fc_dest I) [n; i0]) N _ ctx _ HI0 _ _)); [|reflexivity].
    intros k c Hk Hc. cbv beta zeta. rewrite (Hbase c k Hc).
    apply (forN_acc_to Inv (fun c => gAt c (fc_bias I) [i0])
             (fun i => if Nat.eqb i i0 then gAt ctx (fc_dest I) [k; i] else 0%Q)); [done| |].
    2: { rewrite sumQ_indicator by done. reflexivity. }
    intros i c' Hi Hc'. cbv beta.
    set (c3 := forN P _ c').
    assert (H3 : Inv c3 /\ gAt c3 (fc_bias I) [i0] = gAt c' (fc_bias I) [i0]).
    { apply (forN_inv (fun c => Inv c /\ gAt c (fc_bias I) [i0] = gAt c' (fc_bias I) [i0]));
        [done|]. intros j c'' _ [Hc'' Ho]. cbv beta zeta. split; [apply Hfil, Hraw, Hc''|].
      rewrite gAt_gSetAt_other, gAt_gSetRaw_other by congruence. exact Ho. }
    destruct H3 as [H3 Ho]. split; [apply Hbia, H3|].
    pose proof H3 as (_ & _ & _ & _ & H5 & H6 & _).
    destruct (Nat.eqb_spec i i0) as [->|Hne].
    + rewrite gAt_gSetAt_eq by (rewrite H5, H6, flatIndex_1; done).
      rewrite Ho, (Hdest c' _ Hc'). reflexivity.
    + rewrite gAt_gSetAt_ne by (rewrite H5, !flatIndex_1; done).
      rewrite Ho, Qplus_0_r. reflexivity.
  - (* filter *)
    intros i0 j0 Hi0 Hj0.
    refine (proj2 (forN_acc_to Inv (fun c => gAt c (fc_filter I) [i0; j0])
                     (fun n => wRaw ctx (fc_src I) (n * P + j0) * gAt ctx (fc_dest I) [n; i0])%Q
                     N _ ctx _ HI0 _ _)); [|reflexivity].
    intros k c Hk Hc. cbv beta zeta. rewrite (Hbase c k Hc).
    apply (forN_acc_to Inv (fun c => gAt c (fc_filter I) [i0; j0])
             (fun i => if Nat.eqb i i0
                       then wRaw ctx (fc_src I) (k * P + j0) * gAt ctx (fc_dest I) [k; i]
                       else 0)%Q); [done| |].
    2: { rewrite sumQ_indicator by done. reflexivity. }
    intros i c' Hi Hc'. cbv beta.
    set (c3 := forN P _ c').
    assert (H3 : Inv c3 /\
                 (gAt c3 (fc_filter I) [i0; j0] ==
                  gAt c' (fc_filter I) [i0; j0] +
                  (if Nat.eqb i i0
                   then wRaw ctx (fc_src I) (k * P + j0) * gAt ctx (fc_dest I) [k; i]
                   else 0))%Q).
    { destruct (Nat.eqb_spec i i0) as [->|Hne].
      - apply (forN_acc_to Inv (fun c => gAt c (fc_filter I) [i0; j0])
                 (fun j => if Nat.eqb j j0
                           then wRaw ctx (fc_src I) (k * P + j) * gAt ctx (fc_dest I) [k; i0]
                           else 0)%Q); [done| |].
        2: { rewrite sumQ_indicator by done. reflexivity. }
        intros j c'' Hj Hc''. cbv beta zeta. split; [apply Hfil, Hraw, Hc''|].
        pose proof Hc'' as (_ & _ & H3d & H4d & _).
        unfold wRaw. rewrite (Hw _ (Hraw _ _ _ Hc'')), (Hdest c' _ Hc').
        destruct (Nat.eqb_spec j j0) as [->|Hne].
        + rewrite gAt_gSetAt_eq by (rewrite dims_gSetRaw, length_gSetRaw, H3d, H4d, flatIndex_2; by apply flat_row_lt).
          rewrite gAt_gSetRaw_other by congruence. reflexivity.
        + rewrite gAt_gSetAt_ne
            by (rewrite dims_gSetRaw, H3d, !flatIndex_2; apply flat_row_ne; [lia|lia|congruence]).
          rewrite gAt_gSetRaw_other by congruence. rewrite Qplus_0_r. reflexivity.
      - enough (Inv c3 /\ gAt c3 (fc_filter I) [i0; j0] = gAt c' (fc_filter I) [i0; j0])
          as [? ->] by (split; [done|]; rewrite Qplus_0_r; reflexivity).
        apply (forN_inv (fun c => Inv c /\
                 gAt c (fc_filter I) [i0; j0] = gAt c' (fc_filter I) [i0; j0])).
        + done.
        + intros j c'' Hj [Hc'' Ho]. cbv beta zeta. split; [apply Hfil, Hraw, Hc''|].
          pose proof Hc'' as (_ & _ & H3d & H4d & _).
          rewrite gAt_gSetAt_ne
            by (rewrite dims_gSetRaw, H3d, !flatIndex_2; apply flat_row_ne; [lia|lia|congruence]).
          rewrite gAt_gSetRaw_other by congruence. exact Ho. }
    destruct H3 as [H3 Ho]. split; [apply Hbia, H3|].
    rewrite gAt_gSetAt_other by congruence. exact Ho.
  - (* input *)
    intros n0 j0 Hn0 Hj0.
    refine (proj2 (forN_acc_to Inv (fun c => gRaw c (fc_src I) (n0 * P + j0))
                     (fun n => if Nat.eqb n n0
                               then sumQ (fun i => wAt ctx (fc_filter I) [i; j0] *
                                                   gAt ctx (fc_dest I) [n0; i]) (seq 0 O)
                               else 0)%Q
                     N _ ctx _ HI0 _ _)).
    2: { rewrite sumQ_indicator by done. reflexivity. }
    intros k c Hk Hc. cbv beta zeta. rewrite (Hbase c k Hc).
    destruct (Nat.eqb_spec k n0) as [->|Hkn].
    + apply (forN_acc_to Inv (fun c => gRaw c (fc_src I) (n0 * P + j0))
               (fun i => wAt ctx (fc_filter I) [i; j0] * gAt ctx (fc_dest I) [n0; i])%Q);
        [done| |reflexivity].
      intros i c' Hi Hc'. cbv beta.
      set (c3 := forN P _ c').
      assert (H3 : Inv c3 /\
                   (gRaw c3 (fc_src I) (n0 * P + j0) ==
                    gRaw c' (fc_src I) (n0 * P + j0) +
                    wAt ctx (fc_filter I) [i; j0] * gAt ctx (fc_dest I) [n0; i])%Q).
      { apply (forN_acc_to Inv (fun c => gRaw c (fc_src I) (n0 * P + j0))
                 (fun j => if Nat.eqb j j0
                           then wAt ctx (fc_filter I) [i; j] * gAt ctx (fc_dest I) [n0; i]
                           else 0)%Q); [done| |].
        2: { rewrite sumQ_indicator by done. reflexivity. }
        intros j c'' Hj Hc''. cbv beta zeta. split; [apply Hfil, Hraw, Hc''|].
        pose proof Hc'' as (_ & _ & _ & _ & _ & _ & H7).
        rewrite gRaw_gSetAt_other by congruence.
        unfold wAt at 1. rewrite (Hw _ Hc''), (Hdest c' _ Hc').
        destruct (Nat.eqb_spec j j0) as [->|Hne].
        + rewrite gRaw_gSetRaw_eq; [reflexivity|].
          rewrite H7. assert (n0 * P + j0 < N * P) by (by apply flat_row_lt). lia.
        + rewrite gRaw_gSetRaw_ne by lia. rewrite Qplus_0_r. reflexivity. }
      destruct H3 as [H3 Ho]. split; [apply Hbia, H3|].
      rewrite gRaw_gSetAt_other by congruence. exact Ho.
    + apply (forN_acc_to Inv (fun c => gRaw c (fc_src I) (n0 * P + j0)) (fun _ => 0%Q));
        [done| |unfold sumQ; rewrite fold_sumQ_zero by (intros; reflexivity); reflexivity].
      intros i c' Hi Hc'. cbv beta.
      set (c3 := forN P _ c').
      assert (H3 : Inv c3 /\
                   (gRaw c3 (fc_src I) (n0 * P + j0) == gRaw c' (fc_src I) (n0 * P + j0) + 0)%Q).
      { apply (forN_acc_to Inv (fun c => gRaw c (fc_src I) (n0 * P + j0)) (fun _ => 0%Q));
          [done| |unfold sumQ; rewrite fold_sumQ_zero by (intros; reflexivity); reflexivity].
        intros j c'' Hj Hc''. cbv beta zeta. split; [apply Hfil, Hraw, Hc''|].
        rewrite gRaw_gSetAt_other by congruence.
        rewrite gRaw_gSetRaw_ne by (apply flat_row_ne; [lia|lia|congruence]).
        rewrite Qplus_0_r. reflexivity. }
      destruct H3 as [H3 Ho]. split; [apply Hbia, H3|].
      rewrite gRaw_gSetAt_other by congruence. exact Ho.
Qed.


Lemma bwd_regression_adds_error_witness :
  gAt (bwdRegressionInst ex_regr_ctx ex_regr) 0 [0%nat; 1%nat] =
    Qplus (gAt ex_regr_ctx 0 [0%nat; 1%nat])
      (Qminus (wAt ex_regr_ctx 0 [0%nat; 1%nat]) (wAt ex_regr_ctx 2 [0%nat; 1%nat])).
Proof.
  apply (proj2 (bwd_regression_adds_error ex_regr_ctx ex_regr 1 2 0 1
                  eq_refl eq_refl eq_refl ltac:(lia) ltac:(lia))).
Defined.

Lemma fc_fwd_affine_witness :
  wAt (fwdFullyConnectedInst ex_fc_ctx ex_fc) 1 [0%nat; 1%nat] =
    Qplus (sumQ (fun j => Qmult (wRaw ex_fc_ctx 0 (0 * product [2] + j)) (wAt ex_fc_ctx 2 [1%nat; j]))
             (seq 0 (product [2])))
      (wAt ex_fc_ctx 3 [1%nat]).
Proof.
  apply (fc_fwd_affine ex_fc_ctx ex_fc 1 2 1 [2] 0 1); (reflexivity || discriminate || lia).
Defined.

Lemma fc_bwd_gradients_witness :
  Qeq (gAt (bwdFullyConnectedInst ex_fc_ctx ex_fc) 3 [1%nat])
      (Qplus (gAt ex_fc_ctx 3 [1%nat]) (sumQ (fun n => gAt ex_fc_ctx 1 [n; 1%nat]) (seq 0 1))).
Proof.
  destruct (fc_bwd_gradients ex_fc_ctx ex_fc 1 2 1 [2] eq_refl eq_refl eq_refl eq_refl
              eq_refl eq_refl ltac:(vm_compute; lia)
              ltac:(apply (bool_decide_unpack _); vm_compute; reflexivity)) as (_ & Hb & _).
  apply Hb. lia.
Defined.


Lemma gRaw_gSetRaw_neq (c : Context) (u v : Value) (i j : nat) (x : Q) :
  i <> j -> gRaw (gSetRaw c v i x) u j = gRaw c u j.
Proof.
  intros H. destruct (decide (u = v)) as [->|Hne].
  - by apply gRaw_gSetRaw_ne.
  - by apply gRaw_gSetRaw_other.
Qed.

(** The per-channel accumulation into a one-dimensional tensor by [at({c})]. *)
Lemma accum_chan_at (t : Tensor) (chIdx : nat) (g : nat -> Q) (l : list nat)
    (acc : Tensor) (C c : nat) :
  dims acc = [C] -> c < length (fdata acc) ->
  at' (fold_left (fun acc i =>
         setAt acc [getDimForPtr t chIdx i] (at' acc [getDimForPtr t chIdx i] + g i)%Q)
       l acc) [c] =
  fold_left (fun s i => if Nat.eqb (getDimForPtr t chIdx i) c then (s + g i)%Q else s)
    l (at' acc [c]).
Proof.
  revert acc. induction l as [|i l IH]; intros acc Hd Hc; [done|]. cbn [fold_left].
  assert (Hset : forall x v, setAt acc [x] v = setRaw acc x v).
  { intros x v. unfold setAt. rewrite Hd. by replace (flatIndex [C] [x]) with x by (cbn; lia). }
  rewrite Hset, IH by (try rewrite length_setRaw; done).
  rewrite !(at'_1 _ C) by done. f_equal.
  destruct (Nat.eqb_spec (getDimForPtr t chIdx i) c) as [->|Hne].
  - by apply raw_setRaw_eq.
  - by apply raw_setRaw_ne.
Qed.

Lemma length_zeroTensor (ds : list nat) : length (fdata (zeroTensor ds)) = product ds.
Proof. unfold zeroTensor. cbn. by rewrite repeat_length. Qed.

Lemma getDimForPtr_lt (t : Tensor) (chIdx i C : nat) :
  nth chIdx (dims t) 0 = C -> 0 < C -> getDimForPtr t chIdx i < C.
Proof. intros H HC. unfold getDimForPtr. rewrite H. apply Nat.mod_upper_bound. lia. Qed.

(** X10: the BatchNormalization backward adds to the input gradient at [i],
    in channel [c] of [M] samples, the value
    [(1/M) * gamma * (1/sqrt(var + eps)) * (M * dy(i) - sum_c dy
      - (x(i) - mu) * (1/(var + eps)) * sum_c dy * (x - mu))],
    the sums running over the elements of channel [c], with [gamma], [mu] and
    [var] the weights of the channel; the output gradient may be the input
    gradient itself. *)
Theorem bn_bwd_input_gradient :
  forall (std_sqrt : Q -> Q) (ctx : Context) (I : BatchNormalizationInst) (C i : nat),
    let inW := weights ctx (bn_src I) in
    let chIdx := bn_channelIdx I in
    let ch := getDimForPtr inW chIdx i in
    let M := samplesPerChannel inW chIdx in
    let mu := wAt ctx (bn_mean I) [ch] in
    let var := wAt ctx (bn_var I) [ch] in
    let dy := fun j => gRaw ctx (bn_dest I) j in
    dims (weights ctx (bn_mean I)) = [C] ->
    nth chIdx (dims inW) 0 = C -> 0 < C ->
    bn_src I <> bn_bias I -> bn_src I <> bn_scale I ->
    i < size inW -> i < length (fdata (grads ctx (bn_src I))) ->
    gRaw (bwdBatchNormalizationInst std_sqrt ctx I) (bn_src I) i =
      (gRaw ctx (bn_src I) i +
       1 / float_of_size M * wAt ctx (bn_scale I) [ch] * (1 / std_sqrt (var + bn_epsilon I)) *
       (float_of_size M * dy i - chanSum inW chIdx ch dy -
        (wRaw ctx (bn_src I) i - mu) * (1 / (var + bn_epsilon I)) *
        chanSum inW chIdx ch
          (fun j => dy j * (raw inW j - wAt ctx (bn_mean I) [getDimForPtr inW chIdx j]))))%Q.
Proof.
  intros sq ctx I C i inW chIdx ch M mu var dy Hmd HC HC0 Hsb Hss Hi Hl.
  assert (Hch : ch < C) by (by apply getDimForPtr_lt).
  assert (Hsum : forall g : nat -> Q,
            at' (fold_left (fun t j =>
                   setAt t [getDimForPtr inW chIdx j] (at' t [getDimForPtr inW chIdx j] + g j)%Q)
                   (seq 0 (size inW)) (zeroTensor (dims (weights ctx (bn_mean I))))) [ch] =
            chanSum inW chIdx ch g).
  { intros g. rewrite (accum_chan_at _ _ _ _ _ C) by
      (rewrite ?length_zeroTensor, Hmd; cbn; first [reflexivity | lia]).
    rewrite Hmd, (at'_1 _ C), raw_zeroTensor by done. reflexivity. }
  unfold bwdBatchNormalizationInst. cbv zeta. fold inW chIdx.
  set (c3 := forN (size inW) _ ctx).
  transitivity (gRaw c3 (bn_src I) i).
  { apply (forN_inv (fun c => gRaw c (bn_src I) i = gRaw c3 (bn_src I) i)); [done|].
    intros j c _ Hc. cbv beta. rewrite !gRaw_gSetAt_other by done. exact Hc. }
  unfold c3.
  match goal with |- _ = ?r =>
  refine (forN_point_from
            (fun c => weights c = weights ctx /\
                      length (fdata (grads c (bn_src I))) = length (fdata (grads ctx (bn_src I))))
            (fun c => gRaw c (bn_src I) i = gRaw ctx (bn_src I) i /\
                      gRaw c (bn_dest I) i = gRaw ctx (bn_dest I) i)
            (fun c => gRaw c (bn_src I) i = r) (size inW) i _ ctx Hi _ _ _ _ _ _) end.
  - done.
  - done.
  - intros j c Hj (H1 & H2). cbv beta. split; [done|]. by rewrite length_gSetRaw.
  - intros j c Hj Hne _ (H3 & H4). cbv beta. by rewrite !gRaw_gSetRaw_neq.
  - intros c (H1 & H2) (H3 & H4). cbv beta. rewrite gRaw_gSetRaw_eq by congruence.
    assert (E1 : at' (bnSumDy ctx I) [ch] = chanSum inW chIdx ch dy) by exact (Hsum dy).
    assert (E2 : at' (bnSumDyHmu ctx I) [ch] =
                 chanSum inW chIdx ch
                   (fun j => dy j * (raw inW j - wAt ctx (bn_mean I) [getDimForPtr inW chIdx j]))%Q)
      by exact (Hsum _).
    fold ch. rewrite E1, E2, H3, H4. unfold wAt, wRaw. rewrite H1. reflexivity.
  - intros j c Hj Hne _ HQ. cbv beta. by rewrite gRaw_gSetRaw_neq.
Qed.


Lemma fold_sum_from {X : Type} (f : X -> Q) (l : list X) (s : Q) :
  (fold_left (fun s p => s + f p) l s == s + fold_left (fun s p => s + f p) l 0)%Q.
Proof.
  revert s. induction l as [|x l IH]; intros s; cbn; [ring|].
  rewrite (IH (s + f x)%Q), (IH (0 + f x)%Q). ring.
Qed.

(** A sum over the elements selected by [b] as a sum of a guarded term. *)
Lemma fold_if_sum (b : nat -> bool) (g : nat -> Q) (l : list nat) (s : Q) :
  (fold_left (fun s i => if b i then s + g i else s) l s ==
   s + sumQ (fun i => if b i then g i else 0) l)%Q.
Proof.
  unfold sumQ. revert s. induction l as [|x l IH]; intros s; cbn; [ring|].
  rewrite IH, (fold_sum_from _ l (0 + _)%Q). destruct (b x); ring.
Qed.

Lemma grads_gSetAt_other (c : Context) (u v : Value) (cs : list nat) (x : Q) :
  u <> v -> grads (gSetAt c v cs x) u = grads c u.
Proof. intros H. unfold gSetAt. by rewrite grads_setGrad_ne. Qed.

(** X11: the BatchNormalization backward adds to the bias gradient of channel
    [c] the sum of the output gradient over the elements of the channel, and
    to the scale gradient of [c] the sum of [(x - mu) * (1/sqrt(var + eps)) * dy]
    over them, when the output gradient is none of the written gradients; it
    writes no weight. *)
Theorem bn_bwd_param_gradients :
  forall (std_sqrt : Q -> Q) (ctx : Context) (I : BatchNormalizationInst) (C c : nat),
    let inW := weights ctx (bn_src I) in
    let chIdx := bn_channelIdx I in
    let res := bwdBatchNormalizationInst std_sqrt ctx I in
    dims (grads ctx (bn_bias I)) = [C] -> length (fdata (grads ctx (bn_bias I))) = C ->
    dims (grads ctx (bn_scale I)) = [C] -> length (fdata (grads ctx (bn_scale I))) = C ->
    c < C ->
    NoDup [bn_src I; bn_dest I; bn_bias I; bn_scale I] ->
    weights res = weights ctx /\
    (gAt res (bn_bias I) [c] ==
       gAt ctx (bn_bias I) [c] + chanSum inW chIdx c (fun j => gRaw ctx (bn_dest I) j))%Q /\
    (gAt res (bn_scale I) [c] ==
       gAt ctx (bn_scale I) [c] +
       chanSum inW chIdx c (fun j =>
         let ch := getDimForPtr inW chIdx j in
         (wRaw ctx (bn_src I) j - wAt ctx (bn_mean I) [ch]) *
         (1 / std_sqrt (wAt ctx (bn_var I) [ch] + bn_epsilon I)) * gRaw ctx (bn_dest I) j))%Q.
Proof.
  intros sq ctx I C c inW chIdx res Hbd Hbl Hsd Hsl Hc HND.
  rewrite !NoDup_cons, !not_elem_of_cons in HND.
  destruct HND as ((Hsd' & Hsb & Hss & _) & (Hdb & Hds & _) & (Hbs & _) & _ & _).
  unfold res, bwdBatchNormalizationInst. cbv zeta. fold inW chIdx.
  set (c3 := forN (size inW) _ ctx).
  assert (H3 : weights c3 = weights ctx /\ grads c3 (bn_dest I) = grads ctx (bn_dest I) /\
               grads c3 (bn_bias I) = grads ctx (bn_bias I) /\
               grads c3 (bn_scale I) = grads ctx (bn_scale I)).
  { apply (forN_inv (fun c => weights c = weights ctx /\
             grads c (bn_dest I) = grads ctx (bn_dest I) /\
             grads c (bn_bias I) = grads ctx (bn_bias I) /\
             grads c (bn_scale I) = grads ctx (bn_scale I))); [done|].
    intros j c' _ (H1 & H2 & H3 & H4). cbv beta. unfold gSetRaw.
    rewrite !grads_setGrad_ne by congruence. done. }
  clearbody c3. destruct H3 as (H1 & H2 & H3 & H4).
  set (Inv := fun c' => weights c' = weights ctx /\ grads c' (bn_dest I) = grads ctx (bn_dest I) /\
                        dims (grads c' (bn_bias I)) = [C] /\ length (fdata (grads c' (bn_bias I))) = C /\
                        dims (grads c' (bn_scale I)) = [C] /\ length (fdata (grads c' (bn_scale I))) = C).
  assert (HI3 : Inv c3) by (unfold Inv; rewrite H1, H2, H3, H4; done).
  assert (Hstep : forall cs cs' x x' c', Inv c' ->
            Inv (gSetAt (gSetAt c' (bn_bias I) cs x) (bn_scale I) cs' x')).
  { intros cs cs' x x' c' (G1 & G2 & G3 & G4 & G5 & G6). unfold Inv.
    rewrite !dims_gSetAt, !length_gSetAt, !grads_gSetAt_other by congruence. done. }
  split_and!.
  - apply (forN_inv Inv); [done|]. intros j c' _ Hc'. by apply Hstep.
  - refine (proj2 (forN_acc_to Inv (fun c' => gAt c' (bn_bias I) [c])
             (fun j => if Nat.eqb (getDimForPtr inW chIdx j) c
                       then gRaw ctx (bn_dest I) j else 0)%Q (size inW) _ c3 _ HI3 _ _)).
    2: { unfold chanSum. rewrite fold_if_sum. unfold gAt at 1. rewrite H3, Qplus_0_l. reflexivity. }
    intros j c' Hj Hc'. cbv beta. split; [by apply Hstep|].
    pose proof Hc' as (G1 & G2 & G3 & G4 & _).
    rewrite gAt_gSetAt_other by congruence.
    destruct (Nat.eqb_spec (getDimForPtr inW chIdx j) c) as [->|Hne].
    + rewrite gAt_gSetAt_eq by (rewrite G3, G4, flatIndex_1; done).
      unfold gRaw. rewrite G2. reflexivity.
    + rewrite gAt_gSetAt_ne by (rewrite G3, !flatIndex_1; done). rewrite Qplus_0_r. reflexivity.
  - refine (proj2 (forN_acc_to Inv (fun c' => gAt c' (bn_scale I) [c])
             (fun j => if Nat.eqb (getDimForPtr inW chIdx j) c
                       then let ch := getDimForPtr inW chIdx j in
                         (wRaw ctx (bn_src I) j - wAt ctx (bn_mean I) [ch]) *
                         (1 / sq (wAt ctx (bn_var I) [ch] + bn_epsilon I)) *
                         gRaw ctx (bn_dest I) j
                       else 0)%Q (size inW) _ c3 _ HI3 _ _)).
    2: { unfold chanSum. rewrite fold_if_sum. unfold gAt at 1. rewrite H4, Qplus_0_l. reflexivity. }
    intros j c' Hj Hc'. cbv beta zeta. split; [by apply Hstep|].
    pose proof Hc' as (G1 & G2 & G3 & G4 & G5 & G6).
    destruct (Nat.eqb_spec (getDimForPtr inW chIdx j) c) as [->|Hne].
    + rewrite gAt_gSetAt_eq
        by (rewrite dims_gSetAt, length_gSetAt, G5, G6, flatIndex_1; done).
      rewrite gAt_gSetAt_other by congruence.
      rewrite gRaw_gSetAt_other by congruence.
      unfold gRaw, wRaw, wAt. rewrite weights_gSetAt, G1, G2. reflexivity.
    + rewrite gAt_gSetAt_ne by (rewrite dims_gSetAt, G5, !flatIndex_1; done).
      rewrite gAt_gSetAt_other by congruence. rewrite Qplus_0_r. reflexivity.
Qed.


Lemma bn_bwd_input_gradient_witness :
  let inW := weights ex_bn_ctx 0 in
  let ch := getDimForPtr inW 1 1 in
  let M := samplesPerChannel inW 1 in
  let dy := fun j => gRaw ex_bn_ctx 1 j in
  gRaw (bwdBatchNormalizationInst (fun _ => 1%Q) ex_bn_ctx s3_bn) 0 1 =
    Qplus (gRaw ex_bn_ctx 0 1)
      (Qmult (Qmult (Qmult (Qdiv 1%Q (float_of_size M)) (wAt ex_bn_ctx 2 [ch])) (Qdiv 1%Q 1%Q))
         (Qminus (Qminus (Qmult (float_of_size M) (dy 1)) (chanSum inW 1 ch dy))
            (Qmult (Qmult (Qminus (wRaw ex_bn_ctx 0 1) (wAt ex_bn_ctx 4 [ch]))
                      (Qdiv 1%Q (Qplus (wAt ex_bn_ctx 5 [ch]) 0%Q)))
               (chanSum inW 1 ch
                  (fun j => Qmult (dy j) (Qminus (raw inW j) (wAt ex_bn_ctx 4 [getDimForPtr inW 1 j]))))))).
Proof.
  apply (bn_bwd_input_gradient (fun _ => 1%Q) ex_bn_ctx s3_bn 1 1);
    (reflexivity || discriminate || (vm_compute; lia)).
Defined.

Lemma bn_bwd_param_gradients_witness :
  Qeq (gAt (bwdBatchNormalizationInst (fun _ => 1%Q) ex_bn_ctx s3_bn) 3 [0%nat])
      (Qplus (gAt ex_bn_ctx 3 [0%nat])
         (chanSum (weights ex_bn_ctx 0) 1 0 (fun j => gRaw ex_bn_ctx 1 j))).
Proof.
  destruct (bn_bwd_param_gradients (fun _ => 1%Q) ex_bn_ctx s3_bn 1 0 eq_refl eq_refl eq_refl
              eq_refl ltac:(lia) ltac:(apply (bool_decide_unpack _); vm_compute; reflexivity))
    as (_ & Hb & _).
  exact Hb.
Defined.


(** ** Coordinates, flat indices and permutations *)

Lemma flatIndex_unflatten_mod (ds : list nat) (i : nat) :
  0 < product ds -> flatIndex ds (unflatten ds i) = i mod product ds.
Proof.
  induction ds as [|d ds IH]; intros Hp; cbn [unflatten flatIndex product].
  - cbn in *. lia.
  - cbn in Hp. assert (0 < d /\ 0 < product ds) as [Hd HP] by (split; nia).
    rewrite IH by done. rewrite (Nat.mul_comm d (product ds)), Nat.Div0.mod_mul_r. lia.
Qed.

Lemma flatIndex_unflatten (ds : list nat) (i : nat) :
  i < product ds -> flatIndex ds (unflatten ds i) = i.
Proof. intros H. rewrite flatIndex_unflatten_mod by lia. by apply Nat.mod_small. Qed.

Lemma unflatten_add (ds : list nat) (i k : nat) :
  unflatten ds (i + k * product ds) = unflatten ds i.
Proof.
  revert k. induction ds as [|d ds IH]; intros k; cbn [unflatten product]; [done|].
  destruct (decide (product ds = 0)) as [H0|H0].
  - rewrite H0, !Nat.mul_0_r, Nat.add_0_r. done.
  - replace (i + k * (d * product ds)) with (i + (k * d) * product ds) by lia.
    rewrite IH, Nat.div_add by done.
    rewrite Nat.Div0.mod_add. done.
Qed.


Lemma inBounds_cons (d c : nat) (ds cs : list nat) :
  inBounds (d :: ds) (c :: cs) <-> c < d /\ inBounds ds cs.
Proof.
  unfold inBounds. cbn. split.
  - intros [Hl Hk]. split; [apply (Hk 0); lia|]. split; [lia|].
    intros k Hk'. apply (Hk (S k)). lia.
  - intros (Hc & Hl & Hk). split; [lia|]. intros [|k] Hk'; [done|]. apply Hk. lia.
Qed.

Lemma flatIndex_lt (ds cs : list nat) :
  inBounds ds cs -> flatIndex ds cs < product ds.
Proof.
  revert cs. induction ds as [|d ds IH]; intros [|c cs] Hb.
  - cbn. lia.
  - destruct Hb as [Hl _]. cbn in Hl. lia.
  - destruct Hb as [Hl _]. cbn in Hl. lia.
  - apply inBounds_cons in Hb as [Hc Hb]. cbn [flatIndex product].
    specialize (IH cs Hb). nia.
Qed.

Lemma unflatten_flatIndex (ds cs : list nat) :
  inBounds ds cs -> unflatten ds (flatIndex ds cs) = cs.
Proof.
  revert cs. induction ds as [|d ds IH]; intros [|c cs] Hb.
  - done.
  - destruct Hb as [Hl _]. cbn in Hl. lia.
  - destruct Hb as [Hl _]. cbn in Hl. lia.
  - apply inBounds_cons in Hb as [Hc Hb]. cbn [flatIndex unflatten].
    pose proof (flatIndex_lt ds cs Hb) as Hf.
    rewrite (Nat.add_comm (c * product ds)), unflatten_add, IH by done.
    f_equal. rewrite Nat.div_add by lia. rewrite Nat.div_small by done.
    cbn. by apply Nat.mod_small.
Qed.

Lemma unflatten_inBounds (ds : list nat) (i : nat) :
  i < product ds -> inBounds ds (unflatten ds i).
Proof.
  revert i. induction ds as [|d ds IH]; intros i Hi.
  - split; [done|]. cbn. lia.
  - cbn [unflatten]. apply inBounds_cons. cbn in Hi.
    assert (0 < d /\ 0 < product ds) as [Hd HP] by (split; nia).
    split; [apply Nat.mod_upper_bound; lia|].
    assert (E : unflatten ds i = unflatten ds (i mod product ds)).
    { rewrite <- (unflatten_add ds (i mod product ds) (i / product ds)). f_equal.
      pose proof (Nat.div_mod_eq i (product ds)). nia. }
    rewrite E. apply IH. apply Nat.mod_upper_bound. lia.
Qed.


Lemma perm_seq_facts (s : list nat) :
  s ≡ₚ seq 0 (length s) -> NoDup s /\ (forall x, x ∈ s <-> x < length s).
Proof.
  intros Hp. split.
  - rewrite Hp. apply NoDup_seq.
  - intros x. rewrite Hp at 1. rewrite elem_of_seq. lia.
Qed.

Lemma lookup_total_lt_perm (s : list nat) (i : nat) :
  s ≡ₚ seq 0 (length s) -> i < length s -> s !!! i < length s.
Proof.
  intros Hp Hi. apply (perm_seq_facts s Hp). by apply list_elem_of_lookup_total_2.
Qed.

Lemma lookup_total_inj (s : list nat) (i j : nat) :
  NoDup s -> i < length s -> j < length s -> s !!! i = s !!! j -> i = j.
Proof.
  intros Hnd Hi Hj Heq. apply (NoDup_lookup s i j (s !!! i) Hnd).
  - by apply list_lookup_lookup_total_lt.
  - rewrite Heq. by apply list_lookup_lookup_total_lt.
Qed.

Lemma reverseShuffle_prefix (s : list nat) (m : nat) :
  s ≡ₚ seq 0 (length s) -> m <= length s ->
  let rs := fold_left (fun rs i => <[s !!! i := i]> rs) (seq 0 m) s in
  length rs = length s /\ (forall i, i < m -> rs !!! (s !!! i) = i) /\
  (forall k, k < length s -> rs !!! k < length s).
Proof.
  intros Hp. pose proof (perm_seq_facts s Hp) as [Hnd Hin].
  induction m as [|m IH]; intros Hm; cbv zeta.
  - cbn. split_and!; [done|lia|]. intros k Hk. by apply lookup_total_lt_perm.
  - rewrite seq_S, fold_left_app. cbn [fold_left Nat.add].
    destruct IH as (IH1 & IH2 & IH3); [lia|].
    set (rs := fold_left _ (seq 0 m) s) in *.
    assert (Hsm : s !!! m < length s) by (apply lookup_total_lt_perm; [done|lia]).
    split_and!.
    + by rewrite length_insert.
    + intros i Hi. destruct (decide (i = m)) as [->|Hne].
      * apply list_lookup_total_insert_eq. lia.
      * rewrite list_lookup_total_insert_ne; [apply IH2; lia|].
        intros E. apply Hne. symmetry. apply (lookup_total_inj s); [done|lia|lia|done].
    + intros k Hk. rewrite list_lookup_total_insert. case_decide; [lia|]. by apply IH3.
Qed.

Lemma reverseShuffle_spec :
  forall (shuffle : list nat),
    shuffle ≡ₚ seq 0 (length shuffle) ->
    let rs := reverseShuffle shuffle in
    length rs = length shuffle /\
    (forall i, i < length shuffle -> rs !!! (shuffle !!! i) = i) /\
    (forall k, k < length shuffle -> shuffle !!! (rs !!! k) = k) /\
    rs ≡ₚ seq 0 (length shuffle).
Proof.
  intros s Hp rs. pose proof (perm_seq_facts s Hp) as [Hnd Hin].
  destruct (reverseShuffle_prefix s (length s) Hp ltac:(lia)) as (H1 & H2 & H3).
  fold (reverseShuffle s) in H1, H2, H3. fold rs in H1, H2, H3.
  assert (H4 : forall k, k < length s -> s !!! (rs !!! k) = k).
  { intros k Hk. apply Hin in Hk. apply list_elem_of_lookup in Hk as [i Hi].
    pose proof (lookup_lt_Some _ _ _ Hi) as Hil.
    apply list_lookup_total_correct in Hi. subst k. by rewrite H2. }
  split_and!; [done|done|done|].
  apply NoDup_Permutation.
  - apply NoDup_alt. intros a b x Ha Hb.
    pose proof (lookup_lt_Some _ _ _ Ha) as Hal. pose proof (lookup_lt_Some _ _ _ Hb) as Hbl.
    apply list_lookup_total_correct in Ha, Hb.
    rewrite <- (H4 a), <- (H4 b) by lia. by rewrite Ha, Hb.
  - apply NoDup_seq.
  - intros x. rewrite elem_of_seq. split.
    + intros Hx. apply list_elem_of_lookup in Hx as [k Hk].
      pose proof (lookup_lt_Some _ _ _ Hk) as Hkl.
      apply list_lookup_total_correct in Hk. subst x. specialize (H3 k). lia.
    + intros Hx. rewrite <- (H2 x) by lia. apply list_elem_of_lookup_total_2.
      rewrite H1. apply lookup_total_lt_perm; [done|lia].
Qed.

(** X12: for a permutation [shuffle] of [0 .. n-1], the reverse shuffle the
    Transpose backward builds is its inverse permutation:
    [reverseShuffle[shuffle[i]] = i] and [shuffle[reverseShuffle[k]] = k]. *)
Theorem reverseShuffle_inverse :
  forall (shuffle : list nat),
    shuffle ≡ₚ seq 0 (length shuffle) ->
    let rs := reverseShuffle shuffle in
    length rs = length shuffle /\
    (forall i, i < length shuffle -> rs !!! (shuffle !!! i) = i) /\
    (forall k, k < length shuffle -> shuffle !!! (rs !!! k) = k) /\
    rs ≡ₚ seq 0 (length shuffle).
Proof. exact reverseShuffle_spec. Qed.


Lemma lookup_total_nth (l : list nat) (i : nat) : l !!! i = nth i l 0.
Proof. by rewrite nth_lookup, list_lookup_total_alt. Qed.

Lemma nth_map_lt {X : Type} (f : nat -> X) (l : list nat) (k : nat) (d : X) :
  k < length l -> nth k (map f l) d = f (nth k l 0).
Proof.
  intros Hk. rewrite (nth_indep _ d (f 0)) by (by rewrite length_map). apply map_nth.
Qed.

(** Axis [k] of the permuted coordinate is axis [shuffle[k]] of the coordinate. *)
Lemma inBounds_permute (s ds cs : list nat) :
  s ≡ₚ seq 0 (length ds) -> inBounds ds cs ->
  inBounds (map (fun k => nth k ds 0) s) (map (fun k => nth k cs 0) s).
Proof.
  intros Hp [Hl Hb]. split; [by rewrite !length_map|].
  rewrite length_map. intros k Hk. rewrite !nth_map_lt by done. apply Hb.
  assert (Hin : nth k s 0 ∈ s) by (rewrite <- lookup_total_nth; by apply list_elem_of_lookup_total_2).
  assert (Hls : length s = length ds) by (rewrite Hp; apply length_seq).
  assert (Hp' : s ≡ₚ seq 0 (length s)) by (by rewrite Hls).
  apply (proj2 (perm_seq_facts _ Hp')) in Hin. lia.
Qed.

(** Permuting by [shuffle] and then by its reverse shuffle gives back the list. *)
Lemma permute_reverse (s cs : list nat) :
  s ≡ₚ seq 0 (length s) -> length cs = length s ->
  map (fun k => nth k (map (fun k' => nth k' cs 0) s) 0) (reverseShuffle s) = cs.
Proof.
  intros Hp Hl. destruct (reverseShuffle_spec s Hp) as (H1 & _ & H3 & H4).
  apply nth_ext with (d := 0) (d' := 0); [by rewrite length_map, H1|].
  intros k Hk. rewrite length_map, H1 in Hk.
  rewrite (nth_map_lt _ (reverseShuffle s)) by (by rewrite H1). rewrite (nth_map_lt _ s).
  - rewrite <- !lookup_total_nth. by rewrite H3.
  - rewrite <- lookup_total_nth. rewrite <- H1.
    assert (H4' : reverseShuffle s ≡ₚ seq 0 (length (reverseShuffle s))) by (by rewrite H1).
    apply (proj2 (perm_seq_facts _ H4')).
    apply list_elem_of_lookup_total_2. rewrite H1. done.
Qed.

Lemma setAt_dims (t : Tensor) (cs : list nat) (x : Q) : dims (setAt t cs x) = dims t.
Proof. reflexivity. Qed.

Lemma length_setAt (t : Tensor) (cs : list nat) (x : Q) :
  length (fdata (setAt t cs x)) = length (fdata t).
Proof. apply length_setRaw. Qed.

Lemma fold_setAt_keep (D : list nat) (g : nat -> list nat) (v : nat -> Q) (l : list nat)
    (t : Tensor) (p : nat) :
  dims t = D -> (forall i, i ∈ l -> flatIndex D (g i) <> p) ->
  raw (fold_left (fun d i => setAt d (g i) (v i)) l t) p = raw t p.
Proof.
  revert t. induction l as [|x l IH]; intros t Hd Hne; [done|]. cbn [fold_left].
  rewrite IH.
  - unfold setAt. rewrite Hd. apply raw_setRaw_ne. apply Hne. by left.
  - by rewrite setAt_dims.
  - intros i Hi. apply Hne. by right.
Qed.

(** The write of iteration [i0] survives when no other iteration writes there. *)
Lemma fold_setAt_point (D : list nat) (g : nat -> list nat) (v : nat -> Q) (l : list nat)
    (t : Tensor) (i0 : nat) :
  dims t = D -> NoDup l -> i0 ∈ l -> flatIndex D (g i0) < length (fdata t) ->
  (forall i, i ∈ l -> i <> i0 -> flatIndex D (g i) <> flatIndex D (g i0)) ->
  raw (fold_left (fun d i => setAt d (g i) (v i)) l t) (flatIndex D (g i0)) = v i0.
Proof.
  revert t. induction l as [|x l IH]; intros t Hd Hnd Hin Hlt Hne;
    [by apply not_elem_of_nil in Hin|].
  apply NoDup_cons in Hnd as [Hx Hnd]. cbn [fold_left].
  destruct (decide (x = i0)) as [->|Hxi].
  - rewrite (fold_setAt_keep D).
    + unfold setAt. rewrite Hd. by apply raw_setRaw_eq.
    + by rewrite setAt_dims.
    + intros i Hi. apply Hne; [by right|]. intros ->. done.
  - apply IH.
    + by rewrite setAt_dims.
    + done.
    + apply elem_of_cons in Hin as [->|Hin]; [done|exact Hin].
    + by rewrite length_setAt.
    + intros i Hi. apply Hne. by right.
Qed.

Lemma dims_transposeTensor (t : Tensor) (s : list nat) :
  dims (transposeTensor t s) = map (fun k => nth k (dims t) 0) s.
Proof.
  unfold transposeTensor. apply (fold_left_inv (fun d => dims d = _)); [done|].
  intros d i _ Hd. cbv zeta. by rewrite setAt_dims.
Qed.

(** The element at a coordinate of the source lands at the permuted coordinate. *)
Lemma transposeTensor_at (t : Tensor) (s cs : list nat) :
  s ≡ₚ seq 0 (length (dims t)) -> inBounds (dims t) cs ->
  at' (transposeTensor t s) (map (fun k => nth k cs 0) s) = at' t cs.
Proof.
  intros Hp Hb. set (ds := dims t) in *.
  assert (Hls : length s = length ds) by (rewrite Hp; apply length_seq).
  assert (Hp' : s ≡ₚ seq 0 (length s)) by (by rewrite Hls).
  set (newDims := map (fun k => nth k ds 0) s).
  set (g := fun i => map (fun k => nth k (unflatten ds i) 0) s).
  set (i0 := flatIndex ds cs).
  assert (Hi0 : i0 < product ds) by (by apply flatIndex_lt).
  assert (Hg0 : g i0 = map (fun k => nth k cs 0) s) by (unfold g, i0; by rewrite unflatten_flatIndex).
  unfold at'. rewrite dims_transposeTensor. fold ds newDims. rewrite <- Hg0.
  unfold transposeTensor. fold ds newDims.
  apply (fold_setAt_point newDims g (fun i => raw t i) (seq 0 (size t)) _ i0).
  - done.
  - apply NoDup_seq.
  - apply elem_of_seq. unfold size. fold ds. lia.
  - unfold zeroTensor. cbn [fdata]. rewrite repeat_length. apply flatIndex_lt.
    rewrite Hg0. by apply inBounds_permute.
  - intros i Hi Hne Heq. apply elem_of_seq in Hi. unfold size in Hi. fold ds in Hi.
    assert (Hbi : inBounds ds (unflatten ds i)) by (apply unflatten_inBounds; lia).
    assert (Hbi0 : inBounds ds (unflatten ds i0)) by (apply unflatten_inBounds; lia).
    apply (f_equal (unflatten newDims)) in Heq.
    rewrite !unflatten_flatIndex in Heq by (by apply inBounds_permute).
    apply (f_equal (fun l => map (fun k => nth k l 0) (reverseShuffle s))) in Heq.
    unfold g in Heq. rewrite !permute_reverse in Heq by (try done; rewrite Hls; apply Hbi || apply Hbi0).
    apply Hne. rewrite <- (flatIndex_unflatten ds i), <- (flatIndex_unflatten ds i0) by lia.
    by rewrite Heq.
Qed.


(** X13: when [shuffle] is a permutation of the source's axes, the Transpose
    forward gives the destination the permuted shape and puts the source
    element at coordinate [cs] at the permuted coordinate
    [(cs[shuffle[0]], cs[shuffle[1]], ...)]. *)
Theorem fwd_transpose_permutes :
  forall (ctx : Context) (I : TransposeInst) (cs : list nat),
    let s := tr_shuffle I in
    let ds := dims (weights ctx (tr_src I)) in
    s ≡ₚ seq 0 (length ds) -> inBounds ds cs ->
    let res := fwdTransposeInst ctx I in
    dims (weights res (tr_dest I)) = map (fun k => nth k ds 0) s /\
    wAt res (tr_dest I) (map (fun k => nth k cs 0) s) = wAt ctx (tr_src I) cs /\
    grads res = grads ctx.
Proof.
  intros ctx I cs s ds Hp Hb res. unfold res, fwdTransposeInst, wAt.
  rewrite !weights_setWeight_eq. split; [|split].
  - apply dims_transposeTensor.
  - by apply transposeTensor_at.
  - reflexivity.
Qed.

(** X14: the Transpose backward replaces the source gradient by the output
    gradient transposed back: for a permutation [shuffle] of the axes of a
    shape [ds] whose permuted shape the output gradient has, the source
    gradient gets shape [ds] and at coordinate [cs] the output gradient at
    the permuted coordinate; the other gradients are unchanged. *)
Theorem bwd_transpose_routes_back :
  forall (ctx : Context) (I : TransposeInst) (ds cs : list nat),
    let s := tr_shuffle I in
    s ≡ₚ seq 0 (length ds) ->
    dims (grads ctx (tr_dest I)) = map (fun k => nth k ds 0) s ->
    inBounds ds cs ->
    let res := bwdTransposeInst ctx I in
    dims (grads res (tr_src I)) = ds /\
    gAt res (tr_src I) cs = gAt ctx (tr_dest I) (map (fun k => nth k cs 0) s) /\
    (forall u, u <> tr_src I -> grads res u = grads ctx u) /\
    weights res = weights ctx.
Proof.
  intros ctx I ds cs s Hp Hd Hb res.
  assert (Hls : length s = length ds) by (rewrite Hp; apply length_seq).
  assert (Hp' : s ≡ₚ seq 0 (length s)) by (by rewrite Hls).
  destruct (reverseShuffle_spec s Hp') as (H1 & _ & _ & H4).
  unfold res, bwdTransposeInst, gAt. fold s. rewrite grads_setGrad_eq.
  split; [|split; [|split]].
  - rewrite dims_transposeTensor, Hd. apply permute_reverse; [done|lia].
  - assert (Hcs : map (fun k => nth k (map (fun k' => nth k' cs 0) s) 0) (reverseShuffle s) = cs)
      by (apply permute_reverse; [done|destruct Hb; lia]).
    rewrite <- Hcs at 1. apply transposeTensor_at.
    + rewrite Hd, length_map. exact H4.
    + rewrite Hd. by apply inBounds_permute.
  - intros u Hu. by apply grads_setGrad_ne.
  - reflexivity.
Qed.


Lemma reverseShuffle_inverse_witness :
  [1; 2; 0] ≡ₚ seq 0 (length [1; 2; 0]) /\
  reverseShuffle [1; 2; 0] !!! ([1; 2; 0] !!! 1) = 1.
Proof.
  assert (Hp : [1; 2; 0] ≡ₚ seq 0 (length [1; 2; 0])).
  { apply (bool_decide_unpack _). vm_compute. reflexivity. }
  split; [exact Hp|].
  apply (proj1 (proj2 (reverseShuffle_inverse [1; 2; 0] Hp)) 1). cbn. lia.
Defined.

Lemma fwd_transpose_permutes_witness :
  [1; 0] ≡ₚ seq 0 (length (dims (weights ex_tr_ctx 0))) /\
  inBounds (dims (weights ex_tr_ctx 0)) [1; 2] /\
  wAt (fwdTransposeInst ex_tr_ctx ex_tr) 1 [2; 1] = wAt ex_tr_ctx 0 [1; 2].
Proof.
  assert (Hp : [1; 0] ≡ₚ seq 0 (length (dims (weights ex_tr_ctx 0)))) by (cbn; apply perm_swap).
  assert (Hb : inBounds (dims (weights ex_tr_ctx 0)) [1; 2]).
  { split; [reflexivity|]. cbn. intros k Hk.
    destruct k as [|[|k]]; cbn; lia. }
  split; [exact Hp|]. split; [exact Hb|].
  apply (proj1 (proj2 (fwd_transpose_permutes ex_tr_ctx ex_tr [1; 2] Hp Hb))).
Defined.

Lemma bwd_transpose_routes_back_witness :
  [1; 0] ≡ₚ seq 0 (length [2; 3]) /\
  dims (grads ex_tr_ctx 1) = map (fun k => nth k [2; 3] 0) [1; 0] /\
  inBounds [2; 3] [1; 2] /\
  gAt (bwdTransposeInst ex_tr_ctx ex_tr) 0 [1; 2] = gAt ex_tr_ctx 1 [2; 1].
Proof.
  assert (Hp : [1; 0] ≡ₚ seq 0 (length [2; 3])) by (cbn; apply perm_swap).
  assert (Hd : dims (grads ex_tr_ctx 1) = map (fun k => nth k [2; 3] 0) [1; 0]) by reflexivity.
  assert (Hb : inBounds [2; 3] [1; 2]).
  { split; [reflexivity|]. cbn. intros k Hk.
    destruct k as [|[|k]]; cbn; lia. }
  split; [exact Hp|]. split; [exact Hd|]. split; [exact Hb|].
  apply (proj1 (proj2 (bwd_transpose_routes_back ex_tr_ctx ex_tr [2; 3] [1; 2] Hp Hd Hb))).
Defined.












(** X17: the Add backward overwrites both operand gradients with the output
    gradient, [LHSG(i) = outG(i)] and [RHSG(i) = outG(i)], whatever they held
    before; when [LHS] and [RHS] are the same value its gradient is [outG(i)],
    not twice that. *)
Theorem arith_add_bwd_overwrites :
  forall (ctx : Context) (I : ArithmeticInst) (i : nat),
    ar_kind I = ArithAdd ->
    ar_dest I <> ar_LHS I -> ar_dest I <> ar_RHS I ->
    length (fdata (grads ctx (ar_LHS I))) = size (grads ctx (ar_dest I)) ->
    length (fdata (grads ctx (ar_RHS I))) = size (grads ctx (ar_dest I)) ->
    i < size (grads ctx (ar_dest I)) ->
    gRaw (bwdArithmeticInst ctx I) (ar_LHS I) i = gRaw ctx (ar_dest I) i /\
    gRaw (bwdArithmeticInst ctx I) (ar_RHS I) i = gRaw ctx (ar_dest I) i /\
    weights (bwdArithmeticInst ctx I) = weights ctx.
Proof.
  intros ctx I i0 Hk HdL HdR HL HR Hi0.
  unfold bwdArithmeticInst. rewrite Hk.
  set (n := size (grads ctx (ar_dest I))) in *.
  set (L := ar_LHS I) in *. set (R := ar_RHS I) in *. set (D := ar_dest I) in *.
  set (Inv := fun c => weights c = weights ctx /\ grads c D = grads ctx D /\
              length (fdata (grads c L)) = n /\ length (fdata (grads c R)) = n).
  assert (Hstep : forall i c, i < n -> Inv c ->
    Inv (let c' := gSetRaw c L i (gRaw c D i) in gSetRaw c' R i (gRaw c' D i))).
  { intros i c Hi (Hw & Hd & HcL & HcR). cbv beta zeta. split_and!.
    + done.
    + unfold gSetRaw. rewrite !grads_setGrad_ne; done.
    + rewrite !length_gSetRaw. done.
    + rewrite !length_gSetRaw. done. }
  match goal with |- context [forN n ?B ctx] =>
    assert (HQ : (fun c => gRaw c L i0 = gRaw ctx D i0 /\ gRaw c R i0 = gRaw ctx D i0)
                   (forN n B ctx));
    [apply (forN_point Inv (fun c => gRaw c L i0 = gRaw ctx D i0 /\ gRaw c R i0 = gRaw ctx D i0)
              n i0 B ctx Hi0); [done|exact Hstep| |]
    |split_and!; [apply HQ|apply HQ|];
     apply (forN_inv (fun c => weights c = weights ctx)); [done|];
     intros i c _ Hw; cbv beta zeta; unfold gSetRaw; by rewrite !weights_setGrad]
  end.
  - intros c (Hw & Hd & HcL & HcR). cbv beta zeta.
    unfold gRaw, gSetRaw.
    destruct (decide (L = R)) as [E|NE].
    + rewrite <- E in *. rewrite !grads_setGrad_eq.
      rewrite grads_setGrad_ne by done. rewrite Hd.
      rewrite raw_setRaw_eq by (rewrite ?length_setRaw; lia). split; reflexivity.
    + rewrite grads_setGrad_ne by done. rewrite !grads_setGrad_eq.
      rewrite !grads_setGrad_ne by done.
      rewrite !raw_setRaw_eq by (rewrite ?length_setRaw; lia).
      rewrite Hd. split; reflexivity.
  - intros i c Hi Hne (Hw & Hd & HcL & HcR) [HQL HQR]. cbv beta zeta.
    unfold gRaw, gSetRaw in *.
    destruct (decide (L = R)) as [E|NE].
    + rewrite <- E in *.
      repeat first [rewrite grads_setGrad_eq | rewrite grads_setGrad_ne by congruence].
      rewrite !raw_setRaw_ne by congruence. split; assumption.
    + repeat first [rewrite grads_setGrad_eq | rewrite grads_setGrad_ne by congruence].
      rewrite !raw_setRaw_ne by congruence. split; assumption.
Qed.







Lemma arith_add_bwd_overwrites_witness :
  gRaw (bwdArithmeticInst s6_ctx ex_add_self) 1 0 = gRaw s6_ctx 0 0 /\
  gRaw s6_ctx 0 0 = 1%Q.
Proof.
  split; [|reflexivity].
  apply (arith_add_bwd_overwrites s6_ctx ex_add_self 0);
    (reflexivity || discriminate || (vm_compute; lia)).
Defined.



(** [zip_with Nat.add cs offset] with an offset vector that is zero except at
    axis [d] raises axis [d] of [cs]. *)
Lemma zip_add_zeros (cs : list nat) (L : nat) :
  length cs <= L -> zip_with Nat.add cs (repeat 0 L) = cs.
Proof.
  revert L. induction cs as [|c cs IH]; intros [|L] Hl; cbn in *; try lia; try done.
  rewrite Nat.add_0_r, IH by lia. done.
Qed.

Lemma zip_add_offset (cs : list nat) (L d o : nat) :
  length cs <= L ->
  zip_with Nat.add cs (<[d := o]> (repeat 0 L)) = <[d := cs !!! d + o]> cs.
Proof.
  revert L d. induction cs as [|c cs IH]; intros [|L] d Hl; cbn in Hl; try lia.
  - by destruct d.
  - by destruct d.
  - destruct d as [|d]; cbn.
    + by rewrite zip_add_zeros by lia.
    + rewrite Nat.add_0_r, IH by lia. done.
Qed.

Lemma zip_add_inj (a b o : list nat) :
  length a = length b -> length a <= length o ->
  zip_with Nat.add a o = zip_with Nat.add b o -> a = b.
Proof.
  revert b o. induction a as [|x a IH]; intros [|y b] [|z o] Hl Ho Heq; cbn in *; try lia; try done.
  injection Heq as Hxy Hab. f_equal; [lia|]. apply (IH b o); [lia|lia|done].
Qed.

Lemma flatIndex_inj (ds a b : list nat) :
  inBounds ds a -> inBounds ds b -> flatIndex ds a = flatIndex ds b -> a = b.
Proof.
  intros Ha Hb Heq. rewrite <- (unflatten_flatIndex ds a Ha), <- (unflatten_flatIndex ds b Hb).
  by rewrite Heq.
Qed.

Lemma insert_shift_at (cs : list nat) (d o : nat) :
  d < length cs -> <[d := cs !!! d + o]> cs !!! d = cs !!! d + o.
Proof. intros Hd. by apply list_lookup_total_insert_eq. Qed.

(** A coordinate of an input whose shape agrees with [D] off axis [d], moved
    along axis [d] by [o], lies inside [D] when the moved extent fits. *)
Lemma shift_inBounds (E D a : list nat) (d o : nat) :
  inBounds E a -> length E = length D -> d < length D ->
  (forall k, k < length D -> k <> d -> nth k E 0 = nth k D 0) ->
  nth d E 0 + o <= nth d D 0 ->
  inBounds D (<[d := a !!! d + o]> a).
Proof.
  intros [Hl Hb] HED Hd Hoff Hfit. split; [rewrite length_insert; lia|].
  intros k Hk. rewrite <- lookup_total_nth.
  destruct (decide (k = d)) as [->|Hne].
  - rewrite list_lookup_total_insert_eq by lia. rewrite lookup_total_nth.
    specialize (Hb d ltac:(lia)). lia.
  - rewrite list_lookup_total_insert_ne by done. rewrite lookup_total_nth.
    rewrite <- (Hoff k Hk Hne). apply Hb. lia.
Qed.

Lemma dims_insertTensors (t s : Tensor) (o : list nat) :
  dims (insertTensors t s o) = dims t.
Proof.
  unfold insertTensors. apply (fold_left_inv (fun u => dims u = dims t)); [done|].
  intros u i _ Hu. by rewrite setAt_dims.
Qed.

Lemma length_insertTensors (t s : Tensor) (o : list nat) :
  length (fdata (insertTensors t s o)) = length (fdata t).
Proof.
  unfold insertTensors. apply (fold_left_inv (fun u => length (fdata u) = length (fdata t))); [done|].
  intros u i _ Hu. by rewrite length_setAt.
Qed.

Lemma insertTensors_keep (t s : Tensor) (o : list nat) (p : nat) :
  (forall i, i < size s -> flatIndex (dims t) (zip_with Nat.add (unflatten (dims s) i) o) <> p) ->
  raw (insertTensors t s o) p = raw t p.
Proof.
  intros H. unfold insertTensors.
  apply (fold_setAt_keep (dims t) (fun i => zip_with Nat.add (unflatten (dims s) i) o) (raw s)); [done|].
  intros i Hi. apply H. apply elem_of_seq in Hi. lia.
Qed.

(** [insertTensors] puts the element of [s] at [cs] at [cs + offset]. *)
Lemma insertTensors_at (t s : Tensor) (o cs : list nat) :
  inBounds (dims s) cs -> length (fdata t) = product (dims t) -> length (dims s) <= length o ->
  (forall a, inBounds (dims s) a -> inBounds (dims t) (zip_with Nat.add a o)) ->
  at' (insertTensors t s o) (zip_with Nat.add cs o) = at' s cs.
Proof.
  intros Hcs Hlt Ho Hin. unfold at'. rewrite dims_insertTensors.
  set (g := fun i => zip_with Nat.add (unflatten (dims s) i) o).
  set (i0 := flatIndex (dims s) cs).
  assert (Hi0 : i0 < product (dims s)) by (by apply flatIndex_lt).
  assert (Hg0 : g i0 = zip_with Nat.add cs o) by (unfold g, i0; by rewrite unflatten_flatIndex).
  rewrite <- Hg0. unfold insertTensors.
  apply (fold_setAt_point (dims t) g (raw s) (seq 0 (size s)) t i0).
  - done.
  - apply NoDup_seq.
  - apply elem_of_seq. unfold size. lia.
  - rewrite Hlt. apply flatIndex_lt. rewrite Hg0. by apply Hin.
  - intros i Hi Hne Heq. apply elem_of_seq in Hi. unfold size in Hi.
    assert (Hbi : inBounds (dims s) (unflatten (dims s) i)) by (apply unflatten_inBounds; lia).
    assert (Hbi0 : inBounds (dims s) (unflatten (dims s) i0)) by (apply unflatten_inBounds; lia).
    apply flatIndex_inj in Heq; [|apply Hin; done|apply Hin; done].
    apply zip_add_inj in Heq; [| destruct Hbi, Hbi0; lia | destruct Hbi; lia].
    apply Hne. rewrite <- (flatIndex_unflatten (dims s) i), <- (flatIndex_unflatten (dims s) i0) by lia.
    by rewrite Heq.
Qed.

Lemma sum_take_le {X : Type} (f : X -> nat) (l : list X) (k : nat) (v : X) :
  l !! k = Some v -> sum_list_with f (take k l) + f v <= sum_list_with f l.
Proof.
  intros Hk. rewrite <- (take_drop (S k) l) at 2. rewrite sum_list_with_app.
  rewrite (take_S_r l k v Hk), sum_list_with_app. cbn. lia.
Qed.


(** The state of the Concat forward after the inputs [l]: the offset vector,
    the untouched other weights, the destination's shape and the elements
    already inserted. *)
Lemma concat_prefix (ctx : Context) (I : ConcatInst) (l : list Value) :
  let dst := cc_dest I in
  let d := cc_dim I in
  let D := dims (weights ctx dst) in
  let L := size (weights ctx dst) in
  let ext := fun v => nth d (dims (weights ctx v)) 0 in
  length D <= L -> d < length D -> length (fdata (weights ctx dst)) = product D ->
  (forall v, v ∈ l -> v <> dst) ->
  (forall v, v ∈ l -> length (dims (weights ctx v)) = length D /\
     forall k, k < length D -> k <> d -> nth k (dims (weights ctx v)) 0 = nth k D 0) ->
  sum_list_with ext l <= nth d D 0 ->
  let acc := fold_left (fun acc v =>
     let ctx := acc.1 in
     let offset := acc.2 in
     let inW := weights ctx v in
     let ctx := setWeight ctx dst (insertTensors (weights ctx dst) inW offset) in
     (ctx, <[d := offset !!! d + nth d (dims inW) 0]> offset)) l (ctx, repeat 0 L) in
  acc.2 = <[d := sum_list_with ext l]> (repeat 0 L) /\
  (forall u, u <> dst -> weights acc.1 u = weights ctx u) /\
  dims (weights acc.1 dst) = D /\ length (fdata (weights acc.1 dst)) = product D /\
  (forall k v, l !! k = Some v -> forall cs, inBounds (dims (weights ctx v)) cs ->
     at' (weights acc.1 dst) (<[d := cs !!! d + sum_list_with ext (take k l)]> cs) =
     at' (weights ctx v) cs).
Proof.
  intros dst d D L ext HDL Hd Hlen. revert l.
  refine (rev_ind _ _ _).
  - intros _ _ _ acc. cbn in acc. unfold acc. cbn. split_and!.
    + rewrite list_insert_id'; [done|]. intros Hdl.
      destruct (lookup_lt_is_Some_2 _ _ Hdl) as [y Hy]. rewrite Hy. f_equal.
      apply list_elem_of_lookup_2, list_elem_of_In, repeat_spec in Hy. done.
    + done.
    + done.
    + done.
    + intros k v Hk. by rewrite lookup_nil in Hk.
  - intros x l IH Hne Hsh Hsum acc.
    assert (Hsl : sum_list_with ext (l ++ [x]) = sum_list_with ext l + ext x)
      by (rewrite sum_list_with_app; cbn; lia).
    destruct IH as (Hoff & Hw & HD & Hl & Hpts).
    + intros v Hv. apply Hne. apply elem_of_app. by left.
    + intros v Hv. apply Hsh. apply elem_of_app. by left.
    + lia.
    + unfold acc. rewrite fold_left_app. cbn [fold_left].
      set (acc0 := fold_left _ l (ctx, repeat 0 L)) in *.
      destruct acc0 as [c off]. cbn [fst snd] in *.
      assert (Hx : x <> dst) by (apply Hne; apply elem_of_app; right; by left).
      destruct (Hsh x ltac:(apply elem_of_app; right; by left)) as [HxL HxD].
      rewrite (Hw x Hx). fold (ext x).
      assert (HL : length (repeat 0 L) = L) by apply repeat_length.
      assert (Hoffd : off !!! d = sum_list_with ext l)
        by (rewrite Hoff; apply list_lookup_total_insert_eq; lia).
      assert (Hzip : forall a, length a = length D ->
                zip_with Nat.add a off = <[d := a !!! d + sum_list_with ext l]> a)
        by (intros a Ha; rewrite Hoff; apply zip_add_offset; lia).
      split_and!.
      * rewrite Hoffd, Hoff, list_insert_insert_eq. by rewrite Hsl.
      * intros u Hu. rewrite weights_setWeight_ne by done. by apply Hw.
      * rewrite weights_setWeight_eq, dims_insertTensors. done.
      * rewrite weights_setWeight_eq, length_insertTensors. done.
      * intros k v Hk cs Hcs. rewrite weights_setWeight_eq.
        apply lookup_app_Some in Hk as [Hk|[Hkl Hk]].
        -- (* an input inserted before: the new writes land elsewhere *)
           assert (Hkl : k < length l) by (by apply lookup_lt_Some in Hk).
           rewrite take_app_le by lia.
           assert (Hv : v ∈ l) by (by apply list_elem_of_lookup_2 in Hk).
           destruct (Hsh v ltac:(apply elem_of_app; by left)) as [HvL HvD].
           pose proof (sum_take_le ext l k v Hk) as Htk.
           unfold at'. rewrite dims_insertTensors.
           rewrite insertTensors_keep; [pose proof (Hpts k v Hk cs Hcs) as Hp; unfold at' in Hp; rewrite HD in Hp |- *; exact Hp|].
           intros i Hi Heq. unfold size in Hi.
           assert (Hbi : inBounds (dims (weights ctx x)) (unflatten (dims (weights ctx x)) i))
             by (by apply unflatten_inBounds).
           rewrite Hzip in Heq by (destruct Hbi; lia).
           rewrite HD in Heq. apply flatIndex_inj in Heq.
           ++ apply (f_equal (fun a => a !!! d)) in Heq.
              rewrite !insert_shift_at in Heq by (destruct Hbi, Hcs; lia).
              destruct Hcs as [Hcl Hcb]. specialize (Hcb d ltac:(lia)).
              rewrite <- lookup_total_nth in Hcb. unfold ext in *. lia.
           ++ apply (shift_inBounds (dims (weights ctx x))); try done.
              unfold ext in *. lia.
           ++ apply (shift_inBounds (dims (weights ctx v))); try done.
              unfold ext in *. lia.
        -- (* the input inserted now *)
           assert (k = length l) as -> by (apply lookup_lt_Some in Hk; cbn in Hk; lia).
           rewrite Nat.sub_diag in Hk. injection Hk as <-.
           rewrite take_app_length. rewrite <- Hzip by (destruct Hcs; lia).
           apply insertTensors_at.
           ++ done.
           ++ by rewrite HD, Hl.
           ++ rewrite Hoff, length_insert. lia.
           ++ intros a Ha. rewrite Hzip by (destruct Ha; lia). rewrite HD.
              apply (shift_inBounds (dims (weights ctx x))); try done.
              unfold ext in *. lia.
Qed.

(** X19: the Concat forward places its inputs side by side along axis [dim]:
    when the inputs are not the destination, agree with it off axis [dim],
    and their extents along [dim] add up to at most the destination's, the
    element of input [k] at coordinate [cs] is in the destination at [cs]
    with axis [dim] raised by the extents of inputs [0 .. k-1]; the other
    weights are unchanged. *)
Theorem fwd_concat_places_inputs :
  forall (ctx : Context) (I : ConcatInst),
    let dst := cc_dest I in
    let d := cc_dim I in
    let D := dims (weights ctx dst) in
    let ext := fun v => nth d (dims (weights ctx v)) 0 in
    length D <= size (weights ctx dst) -> d < length D ->
    length (fdata (weights ctx dst)) = product D ->
    (forall v, v ∈ cc_inputs I -> v <> dst) ->
    (forall v, v ∈ cc_inputs I -> length (dims (weights ctx v)) = length D /\
       forall k, k < length D -> k <> d -> nth k (dims (weights ctx v)) 0 = nth k D 0) ->
    sum_list_with ext (cc_inputs I) <= nth d D 0 ->
    (forall k v cs, cc_inputs I !! k = Some v -> inBounds (dims (weights ctx v)) cs ->
       wAt (fwdConcatInst ctx I) dst
         (<[d := cs !!! d + sum_list_with ext (take k (cc_inputs I))]> cs) = wAt ctx v cs) /\
    (forall u, u <> dst -> weights (fwdConcatInst ctx I) u = weights ctx u).
Proof.
  intros ctx I dst d D ext HDL Hd Hlen Hne Hsh Hsum.
  destruct (concat_prefix ctx I (cc_inputs I) HDL Hd Hlen Hne Hsh Hsum)
    as (_ & Hw & _ & _ & Hpts).
  unfold fwdConcatInst, wAt. split.
  - intros k v cs Hk Hcs. by apply Hpts.
  - exact Hw.
Qed.


Lemma fwd_concat_places_inputs_witness :
  wAt (fwdConcatInst ex_concat_ctx ex_concat) 0 [3] = wAt ex_concat_ctx 2 [1] /\
  wAt ex_concat_ctx 2 [1] = 4%Q.
Proof.
  split; [|reflexivity].
  assert (Hin : forall v, v ∈ [1; 2] -> v = 1 \/ v = 2).
  { intros v Hv. apply elem_of_cons in Hv as [->|Hv]; [by left|].
    apply elem_of_cons in Hv as [->|Hv]; [by right|]. by apply not_elem_of_nil in Hv. }
  assert (Hb : inBounds (dims (weights ex_concat_ctx 2)) [1]).
  { split; [reflexivity|]. intros k Hk. cbn in Hk. assert (k = 0) as -> by lia. cbn. lia. }
  exact (proj1 (fwd_concat_places_inputs ex_concat_ctx ex_concat
          ltac:(cbn; lia) ltac:(cbn; lia) eq_refl
          ltac:(intros v Hv; destruct (Hin v Hv) as [->| ->]; discriminate)
          ltac:(intros v Hv; destruct (Hin v Hv) as [->| ->];
                (split; [reflexivity|intros k Hk Hkd; vm_compute in Hk, Hkd; lia]))
          ltac:(cbn; lia)) 1 2 [1] eq_refl Hb).
Defined.


Lemma sumQ_cons {X : Type} (f : X -> Q) (a : X) (l : list X) :
  (sumQ f (a :: l) == f a + sumQ f l)%Q.
Proof. unfold sumQ. cbn. rewrite fold_sum_from. ring. Qed.

Lemma sumQ_app {X : Type} (f : X -> Q) (l1 l2 : list X) :
  (sumQ f (l1 ++ l2) == sumQ f l1 + sumQ f l2)%Q.
Proof. unfold sumQ. rewrite fold_left_app, fold_sum_from. reflexivity. Qed.

Lemma sumQ_ext_in (f g : nat -> Q) (l : list nat) :
  (forall t, t ∈ l -> f t == g t)%Q -> (sumQ f l == sumQ g l)%Q.
Proof. intros H. unfold sumQ. apply fold_sum_comp; [reflexivity|]. intros j Hj. by rewrite H. Qed.

Lemma sumQ_lin3 (f a b c : nat -> Q) (l : list nat) :
  (forall t, f t == a t - b t + c t)%Q -> (sumQ f l == sumQ a l - sumQ b l + sumQ c l)%Q.
Proof.
  intros H. induction l as [|t l IH]; [unfold sumQ; cbn; ring|].
  rewrite !sumQ_cons, IH, H. ring.
Qed.

(** The sum of the squares of the channels of the LRN window of channel [j]:
    the channels [t] with [j - half <= t <= j + half]. *)
Lemma lrn_window_base (x : nat -> Q) (half C : nat) :
  0 < C ->
  (fold_left (fun s c => s + x c * x c) (seq 1 (Nat.min half (C - 1))) 0 ==
   sumQ (fun t => if Nat.leb 0 (t + half) && Nat.leb t (0 + half) then x t * x t else 0)
     (seq 0 C) - x 0%nat * x 0%nat)%Q.
Proof.
  intros HC. destruct C as [|C']; [lia|]. cbn [seq]. rewrite sumQ_cons.
  replace (S C' - 1) with C' by lia. set (m := Nat.min half C').
  replace (seq 1 C') with (seq 1 m ++ seq (1 + m) (C' - m))
    by (rewrite <- seq_app; f_equal; lia).
  rewrite sumQ_app.
  rewrite (sumQ_ext_in _ (fun t => (x t * x t)%Q) (seq 1 m)).
  2: { intros t Ht. apply elem_of_seq in Ht.
       replace (Nat.leb 0 (t + half) && Nat.leb t (0 + half)) with true; [reflexivity|].
       symmetry. apply andb_true_iff. rewrite !Nat.leb_le. lia. }
  assert (H0 : (sumQ (fun t => if Nat.leb 0 (t + half) && Nat.leb t (0 + half)
                               then (x t * x t)%Q else 0%Q) (seq (1 + m) (C' - m)) == 0)%Q).
  { unfold sumQ. rewrite fold_sumQ_zero; [reflexivity|].
    intros t Ht. apply elem_of_seq in Ht.
    replace (Nat.leb 0 (t + half) && Nat.leb t (0 + half)) with false; [reflexivity|].
    symmetry. apply andb_false_iff. right. apply Nat.leb_gt. lia. }
  rewrite H0. cbn. fold (sumQ (fun c => (x c * x c)%Q) (seq 1 m)). ring.
Qed.

Lemma lrn_window_step (x : nat -> Q) (half C j : nat) :
  j < C ->
  let W := fun j => sumQ (fun t => if (j <=? t + half) && (t <=? j + half)
                                   then (x t * x t)%Q else 0%Q) (seq 0 C) in
  let sub := if half <=? j then x (j - half) else 0%Q in
  let add := if j + half + 1 <? C then x (j + half + 1) else 0%Q in
  (W (S j) == W j - sub * sub + add * add)%Q.
Proof.
  intros Hj W sub add. unfold W.
  rewrite (sumQ_lin3 _
    (fun t => if (j <=? t + half) && (t <=? j + half) then (x t * x t)%Q else 0%Q)
    (fun t => if Nat.eqb t (j - half) then (if half <=? j then (x t * x t)%Q else 0%Q) else 0%Q)
    (fun t => if Nat.eqb t (j + half + 1) then (x t * x t)%Q else 0%Q)).
  2: { intros t.
       destruct (Nat.leb_spec (S j) (t + half)), (Nat.leb_spec t (S j + half)),
         (Nat.leb_spec j (t + half)), (Nat.leb_spec t (j + half)),
         (Nat.eqb_spec t (j - half)), (Nat.leb_spec half j), (Nat.eqb_spec t (j + half + 1));
         cbn; try ring; lia. }
  rewrite (sumQ_indicator (fun t => if half <=? j then (x t * x t)%Q else 0%Q)) by lia.
  assert (Hsub : ((if half <=? j then x (j - half)%nat * x (j - half)%nat else 0) == sub * sub)%Q)
    by (unfold sub; destruct (half <=? j); ring).
  rewrite Hsub. f_equiv.
  unfold add. destruct (Nat.ltb_spec (j + half + 1) C) as [Hlt|Hge].
  - by rewrite sumQ_indicator.
  - unfold sumQ. rewrite fold_sumQ_zero; [ring|].
    intros t Ht. apply elem_of_seq in Ht.
    destruct (Nat.eqb_spec t (j + half + 1)); [lia|reflexivity].
Qed.

(** The running square sum of the LRN channel loop, started as the code
    starts it, is the window sum of the current channel minus the square of
    channel 0. *)
Lemma lrn_running_sum (x : nat -> Q) (half C j : nat) :
  0 < C -> j <= C ->
  let sub := fun c => if half <=? c then x (c - half) else 0%Q in
  let add := fun c => if c + half + 1 <? C then x (c + half + 1) else 0%Q in
  (fold_left (fun s c => s - sub c * sub c + add c * add c) (seq 0 j)
     (fold_left (fun s c => s + x c * x c) (seq 1 (Nat.min half (C - 1))) 0) ==
   sumQ (fun t => if Nat.leb j (t + half) && Nat.leb t (j + half) then x t * x t else 0)
     (seq 0 C) - x 0%nat * x 0%nat)%Q.
Proof.
  intros HC Hj sub add. induction j as [|j IH].
  - apply lrn_window_base. done.
  - rewrite seq_S, fold_left_app. cbn [fold_left Nat.add]. rewrite IH by lia.
    rewrite (lrn_window_step x half C j) by lia. unfold sub, add. ring.
Qed.


Lemma inBounds4 (N H W C n h w j : nat) :
  n < N -> h < H -> w < W -> j < C -> inBounds [N; H; W; C] [n; h; w; j].
Proof.
  intros. split; [done|]. intros k Hk. destruct k as [|[|[|[|k]]]]; cbn in *; lia.
Qed.

Lemma coord4_flat_ne (N H W C : nat) (a : list nat) (n h w j : nat) :
  inBounds [N; H; W; C] a -> n < N -> h < H -> w < W -> j < C -> a <> [n; h; w; j] ->
  flatIndex [N; H; W; C] [n; h; w; j] <> flatIndex [N; H; W; C] a.
Proof.
  intros Ha Hn Hh Hw Hj Hne Heq. apply flatIndex_inj in Heq; [by apply Hne|by apply inBounds4|done].
Qed.

(** The channel loop of the LRN forward pass, run on the first [m] channels. *)
Lemma lrn_channel_prefix (std_pow : Q -> Q -> Q) (c0 : Context)
    (I : LocalResponseNormalizationInst) (N H W C n h w : nat) (nA S0 : Q) (m : nat) :
  lrn_src I <> lrn_scale I -> lrn_src I <> lrn_dest I -> lrn_scale I <> lrn_dest I ->
  dims (weights c0 (lrn_scale I)) = [N; H; W; C] ->
  dims (weights c0 (lrn_dest I)) = [N; H; W; C] ->
  length (fdata (weights c0 (lrn_scale I))) = product [N; H; W; C] ->
  length (fdata (weights c0 (lrn_dest I))) = product [N; H; W; C] ->
  n < N -> h < H -> w < W -> m <= C ->
  let half := lrn_halfWindowSize I in
  let x := fun t => wAt c0 (lrn_src I) [n; h; w; t] in
  let run := fun j => fold_left (fun s c =>
      let sub := if half <=? c then x (c - half) else 0%Q in
      let add := if c + half + 1 <? C then x (c + half + 1) else 0%Q in
      (s - sub * sub + add * add)%Q) (seq 0 j) S0 in
  let acc := fold_left (fun (acc : Q * Context) c =>
    let squareSum := acc.1 in
    let ctx := acc.2 in
    let scale := (lrn_k I + nA * squareSum)%Q in
    let ctx := wSetAt ctx (lrn_scale I) [n; h; w; c] scale in
    let normFactor := std_pow scale (- lrn_beta I)%Q in
    let ctx := wSetAt ctx (lrn_dest I) [n; h; w; c]
                 (wAt ctx (lrn_src I) [n; h; w; c] * normFactor)%Q in
    let sub := if half <=? c then wAt ctx (lrn_src I) [n; h; w; c - half] else 0%Q in
    let add := if c + half + 1 <? C then wAt ctx (lrn_src I) [n; h; w; c + half + 1]
               else 0%Q in
    ((squareSum - sub * sub + add * add)%Q, ctx))
    (seq 0 m) (S0, c0) in
  acc.1 = run m /\
  (forall u, u <> lrn_scale I -> u <> lrn_dest I -> weights acc.2 u = weights c0 u) /\
  (forall v, v = lrn_scale I \/ v = lrn_dest I ->
     dims (weights acc.2 v) = [N; H; W; C] /\
     length (fdata (weights acc.2 v)) = product [N; H; W; C] /\
     forall cs, inBounds [N; H; W; C] cs -> (forall j, j < m -> cs <> [n; h; w; j]) ->
       wAt acc.2 v cs = wAt c0 v cs) /\
  (forall j, j < m ->
     wAt acc.2 (lrn_scale I) [n; h; w; j] = (lrn_k I + nA * run j)%Q /\
     wAt acc.2 (lrn_dest I) [n; h; w; j] =
       (x j * std_pow (lrn_k I + nA * run j) (- lrn_beta I))%Q).
Proof.
  intros Hss Hsd Hsc HDs HDd HLs HLd Hn Hh Hw Hm half x run.
  revert Hm. induction m as [|m IH]; intros Hm acc; subst acc.
  - cbn [seq fold_left fst snd]. split; [done|]. split; [done|]. split; [|intros; lia].
    intros v [-> | ->]; repeat split; done.
  - specialize (IH ltac:(lia)). cbv zeta in IH.
    rewrite seq_S, fold_left_app. cbn [fold_left].
    destruct (fold_left _ (seq 0 m) (S0, c0)) as [s c]. cbn [fst snd] in IH |- *.
    destruct IH as (Hs & Hwt & Hv & Hp).
    destruct (Hv (lrn_scale I) (or_introl eq_refl)) as (HDs' & HLs' & Hfs).
    destruct (Hv (lrn_dest I) (or_intror eq_refl)) as (HDd' & HLd' & Hfd).
    assert (Hsrc : forall cs y1 y2 c',
      wAt (wSetAt (wSetAt c (lrn_scale I) [n; h; w; m] y1) (lrn_dest I) c' y2) (lrn_src I) cs
      = wAt c0 (lrn_src I) cs).
    { intros. rewrite !wAt_wSetAt_other by done. unfold wAt. by rewrite Hwt. }
    assert (Hsrc1 : forall cs y1,
      wAt (wSetAt c (lrn_scale I) [n; h; w; m] y1) (lrn_src I) cs = wAt c0 (lrn_src I) cs).
    { intros. rewrite !wAt_wSetAt_other by done. unfold wAt. by rewrite Hwt. }
    rewrite !Hsrc, !Hsrc1.
    assert (Hin : inBounds [N; H; W; C] [n; h; w; m]) by (apply inBounds4; lia).
    split; [|split; [|split]].
    + rewrite Hs. unfold run. rewrite seq_S, fold_left_app. reflexivity.
    + intros u Hu1 Hu2. rewrite !weights_wSetAt_other by done. by apply Hwt.
    + intros v [-> | ->]; (split; [by rewrite !dims_wSetAt|split; [by rewrite !length_wSetAt|]]);
        intros cs Hcs Hne.
      * rewrite wAt_wSetAt_other by done. rewrite wAt_wSetAt_ne.
        -- apply Hfs; [done|]. intros j Hj. apply Hne. lia.
        -- rewrite HDs'. apply coord4_flat_ne; [done|lia..|]. apply Hne. lia.
      * rewrite wAt_wSetAt_ne.
        -- rewrite wAt_wSetAt_other by done. apply Hfd; [done|]. intros j Hj. apply Hne. lia.
        -- rewrite dims_wSetAt, HDd'. apply coord4_flat_ne; [done|lia..|]. apply Hne. lia.
    + intros j Hj. destruct (decide (j = m)) as [->|Hjm].
      * split.
        -- rewrite wAt_wSetAt_other by done. rewrite wAt_wSetAt_eq; [by rewrite Hs|].
           rewrite HDs', HLs'. by apply flatIndex_lt.
        -- rewrite wAt_wSetAt_eq; [by rewrite Hs|].
           rewrite dims_wSetAt, length_wSetAt, HDd', HLd'. by apply flatIndex_lt.
      * assert (Hb : inBounds [N; H; W; C] [n; h; w; j]) by (apply inBounds4; lia).
        assert (Hne : [n; h; w; j] <> [n; h; w; m]) by congruence.
        destruct (Hp j ltac:(lia)) as [Hp1 Hp2]. split.
        -- rewrite wAt_wSetAt_other by done. rewrite wAt_wSetAt_ne; [done|].
           rewrite HDs'. apply coord4_flat_ne; [done|lia..|done].
        -- rewrite wAt_wSetAt_ne; [rewrite wAt_wSetAt_other by done; done|].
           rewrite dims_wSetAt, HDd'. apply coord4_flat_ne; [done|lia..|done].
Qed.


(** A full run of the LRN channel loop at pixel [(n, h, w)]. *)
Lemma lrn_channel_loop (std_pow : Q -> Q -> Q) (c0 : Context)
    (I : LocalResponseNormalizationInst) (N H W C n h w : nat) (nA S0 : Q) :
  lrn_src I <> lrn_scale I -> lrn_src I <> lrn_dest I -> lrn_scale I <> lrn_dest I ->
  dims (weights c0 (lrn_scale I)) = [N; H; W; C] ->
  dims (weights c0 (lrn_dest I)) = [N; H; W; C] ->
  length (fdata (weights c0 (lrn_scale I))) = product [N; H; W; C] ->
  length (fdata (weights c0 (lrn_dest I))) = product [N; H; W; C] ->
  n < N -> h < H -> w < W ->
  let half := lrn_halfWindowSize I in
  let x := fun t => wAt c0 (lrn_src I) [n; h; w; t] in
  let run := fun j => fold_left (fun s c =>
      let sub := if half <=? c then x (c - half) else 0%Q in
      let add := if c + half + 1 <? C then x (c + half + 1) else 0%Q in
      (s - sub * sub + add * add)%Q) (seq 0 j) S0 in
  let c' := (lrnChannelLoop std_pow c0 I C n h w nA S0).2 in
  (forall u, u <> lrn_scale I -> u <> lrn_dest I -> weights c' u = weights c0 u) /\
  (forall v, v = lrn_scale I \/ v = lrn_dest I ->
     dims (weights c' v) = [N; H; W; C] /\
     length (fdata (weights c' v)) = product [N; H; W; C] /\
     forall cs, inBounds [N; H; W; C] cs -> (forall j, j < C -> cs <> [n; h; w; j]) ->
       wAt c' v cs = wAt c0 v cs) /\
  (forall j, j < C ->
     wAt c' (lrn_scale I) [n; h; w; j] = (lrn_k I + nA * run j)%Q /\
     wAt c' (lrn_dest I) [n; h; w; j] =
       (x j * std_pow (lrn_k I + nA * run j) (- lrn_beta I))%Q).
Proof.
  intros. exact (proj2 (lrn_channel_prefix std_pow c0 I N H W C n h w nA S0 C
    H0 H1 H2 H3 H4 H5 H6 H7 H8 H9 (le_n C))).
Qed.


(** X20: in the LRN forward pass the scale cache at channel [j] is
    [k + normedAlpha * (S - x_0^2)], where [S] is the sum of the squared
    inputs of the channels within [halfWindowSize] of [j] and [x_0] the input
    of channel 0 at the same pixel (the running sum starts at channel 1 but
    drops channel 0 when the window leaves it); the output is the input times
    [pow(scale, -beta)]. *)
Theorem fwd_lrn_scale_window (std_pow : Q -> Q -> Q) (ctx : Context)
    (I : LocalResponseNormalizationInst) (N H W C n h w j : nat) :
  lrn_src I <> lrn_scale I -> lrn_src I <> lrn_dest I -> lrn_scale I <> lrn_dest I ->
  dims (weights ctx (lrn_src I)) = [N; H; W; C] ->
  dims (weights ctx (lrn_scale I)) = [N; H; W; C] ->
  dims (weights ctx (lrn_dest I)) = [N; H; W; C] ->
  length (fdata (weights ctx (lrn_scale I))) = product [N; H; W; C] ->
  length (fdata (weights ctx (lrn_dest I))) = product [N; H; W; C] ->
  n < N -> h < H -> w < W -> j < C ->
  let res := fwdLocalResponseNormalizationInst std_pow ctx I in
  let half := lrn_halfWindowSize I in
  let x := fun t => wAt ctx (lrn_src I) [n; h; w; t] in
  let normedAlpha := (lrn_alpha I / float_of_size (2 * half + 1))%Q in
  (wAt res (lrn_scale I) [n; h; w; j] ==
     lrn_k I + normedAlpha *
       (sumQ (fun t => if Nat.leb j (t + half) && Nat.leb t (j + half) then x t * x t else 0)
          (seq 0 C) - x 0%nat * x 0%nat))%Q /\
  wAt res (lrn_dest I) [n; h; w; j] =
    (x j * std_pow (wAt res (lrn_scale I) [n; h; w; j]) (- lrn_beta I))%Q.
Proof.
  intros Hss Hsd Hsc HDsrc HDs HDd HLs HLd Hn Hh Hw Hj res half x nA.
  set (S0 := fold_left (fun s c => (s + x c * x c)%Q) (seq 1 (Nat.min half (C - 1))) 0%Q).
  set (run := fun j => fold_left (fun s c =>
      let sub := if half <=? c then x (c - half) else 0%Q in
      let add := if c + half + 1 <? C then x (c + half + 1) else 0%Q in
      (s - sub * sub + add * add)%Q) (seq 0 j) S0).
  set (V1 := (lrn_k I + nA * run j)%Q).
  assert (Hres : wAt res (lrn_scale I) [n; h; w; j] = V1 /\
                 wAt res (lrn_dest I) [n; h; w; j] = (x j * std_pow V1 (- lrn_beta I))%Q).
  { subst res. unfold fwdLocalResponseNormalizationInst. cbv zeta. rewrite HDsrc.
    cbn [nhwc sn sh sw sc].
    set (Inv := fun c : Context =>
      weights c (lrn_src I) = weights ctx (lrn_src I) /\
      dims (weights c (lrn_scale I)) = [N; H; W; C] /\
      dims (weights c (lrn_dest I)) = [N; H; W; C] /\
      length (fdata (weights c (lrn_scale I))) = product [N; H; W; C] /\
      length (fdata (weights c (lrn_dest I))) = product [N; H; W; C]).
    set (Qp := fun c : Context =>
      wAt c (lrn_scale I) [n; h; w; j] = V1 /\
      wAt c (lrn_dest I) [n; h; w; j] = (x j * std_pow V1 (- lrn_beta I))%Q).
    assert (Hbody : forall n' h' w' c, n' < N -> h' < H -> w' < W -> Inv c ->
      let c' := (lrnChannelLoop std_pow c I C n' h' w' nA
         (fold_left (fun s c0 =>
            (s + wAt c (lrn_src I) [n'; h'; w'; c0] * wAt c (lrn_src I) [n'; h'; w'; c0])%Q)
            (seq 1 (Nat.min half (C - 1))) 0%Q)).2 in
      Inv c' /\ ([n'; h'; w'] <> [n; h; w] -> Qp c -> Qp c') /\
      ([n'; h'; w'] = [n; h; w] -> Qp c')).
    { intros n' h' w' c Hn' Hh' Hw' (Hsrc & HDs' & HDd' & HLs' & HLd') c'.
      destruct (lrn_channel_loop std_pow c I N H W C n' h' w' nA
        (fold_left (fun s c0 =>
            (s + wAt c (lrn_src I) [n'; h'; w'; c0] * wAt c (lrn_src I) [n'; h'; w'; c0])%Q)
            (seq 1 (Nat.min half (C - 1))) 0%Q)
        Hss Hsd Hsc HDs' HDd' HLs' HLd' Hn' Hh' Hw') as (Hwt & Hv & Hp).
      fold c' in Hwt, Hv, Hp.
      destruct (Hv _ (or_introl eq_refl)) as (HDs2 & HLs2 & Hfs).
      destruct (Hv _ (or_intror eq_refl)) as (HDd2 & HLd2 & Hfd).
      split; [|split].
      - split; [rewrite Hwt; done|]. done.
      - intros Hne [Hq1 Hq2]. assert (Hb : inBounds [N; H; W; C] [n; h; w; j])
          by (apply inBounds4; lia).
        assert (Hc : forall j', j' < C -> [n; h; w; j] <> [n'; h'; w'; j']).
        { intros j' _ E. injection E as -> -> -> ->. by apply Hne. }
        split; [rewrite Hfs; done|rewrite Hfd; done].
      - intros E. injection E as -> -> ->. destruct (Hp j Hj) as [Hp1 Hp2].
        cbv zeta in Hp1, Hp2. unfold Qp. rewrite Hp1, Hp2.
        unfold V1, run, S0, x. unfold wAt. rewrite Hsrc. done. }
    assert (Hinv0 : Inv ctx) by done.
    apply (forN_point Inv Qp N n); [done|done| | |].
    - intros n' c Hn' Hc. apply forN_inv; [done|]. intros h' c1 Hh' Hc1.
      apply forN_inv; [done|]. intros w' c2 Hw' Hc2. apply Hbody; done.
    - intros c Hc. apply (forN_point Inv Qp H h); [done|done| | |].
      + intros h' c1 Hh' Hc1. apply forN_inv; [done|]. intros w' c2 Hw' Hc2. apply Hbody; done.
      + intros c1 Hc1. apply (forN_point Inv Qp W w); [done|done| | |].
        * intros w' c2 Hw' Hc2. apply Hbody; done.
        * intros c2 Hc2. destruct (Hbody n h w c2) as (_ & _ & Hk); [done..|]. by apply Hk.
        * intros w' c2 Hw' Hne Hc2 Hq. destruct (Hbody n h w' c2) as (_ & Hk & _); [done..|].
          apply Hk; [congruence|done].
      + intros h' c1 Hh' Hne Hc1 Hq.
        cut (Inv (forN W (fun w' c2 => (lrnChannelLoop std_pow c2 I C n h' w' nA
           (fold_left (fun s c0 =>
              (s + wAt c2 (lrn_src I) [n; h'; w'; c0] * wAt c2 (lrn_src I) [n; h'; w'; c0])%Q)
              (seq 1 (Nat.min half (C - 1))) 0%Q)).2) c1) /\ Qp (forN W (fun w' c2 => (lrnChannelLoop std_pow c2 I C n h' w' nA
           (fold_left (fun s c0 =>
              (s + wAt c2 (lrn_src I) [n; h'; w'; c0] * wAt c2 (lrn_src I) [n; h'; w'; c0])%Q)
              (seq 1 (Nat.min half (C - 1))) 0%Q)).2) c1)); [tauto|].
        apply (forN_inv (fun c => Inv c /\ Qp c)); [done|].
        intros w' c2 Hw' [Hc2 Hq2]. destruct (Hbody n h' w' c2) as (Hi & Hk & _); [done..|].
        split; [done|]. apply Hk; [congruence|done].
    - intros n' c Hn' Hne Hc Hq.
      cut (Inv (forN H (fun h' => forN W (fun w' c2 => (lrnChannelLoop std_pow c2 I C n' h' w' nA
           (fold_left (fun s c0 =>
              (s + wAt c2 (lrn_src I) [n'; h'; w'; c0] * wAt c2 (lrn_src I) [n'; h'; w'; c0])%Q)
              (seq 1 (Nat.min half (C - 1))) 0%Q)).2)) c) /\
           Qp (forN H (fun h' => forN W (fun w' c2 => (lrnChannelLoop std_pow c2 I C n' h' w' nA
           (fold_left (fun s c0 =>
              (s + wAt c2 (lrn_src I) [n'; h'; w'; c0] * wAt c2 (lrn_src I) [n'; h'; w'; c0])%Q)
              (seq 1 (Nat.min half (C - 1))) 0%Q)).2)) c)); [tauto|].
      apply (forN_inv (fun c => Inv c /\ Qp c)); [done|].
      intros h' c1 Hh' [Hc1 Hq1].
      apply (forN_inv (fun c => Inv c /\ Qp c)); [done|].
      intros w' c2 Hw' [Hc2 Hq2]. destruct (Hbody n' h' w' c2) as (Hi & Hk & _); [done..|].
      split; [done|]. apply Hk; [congruence|done]. }
  destruct Hres as [Hr1 Hr2]. split.
  - rewrite Hr1. unfold V1. apply Qplus_comp; [reflexivity|]. apply Qmult_comp; [reflexivity|].
    exact (lrn_running_sum x half C j ltac:(lia) ltac:(lia)).
  - by rewrite Hr2, Hr1.
Qed.


Lemma fwd_lrn_scale_window_witness :
  (wAt (fwdLocalResponseNormalizationInst (fun a _ => a) ex_lrn_ctx ex_lrn) 1%nat
     [0%nat; 0%nat; 0%nat; 1%nat] == 14)%Q.
Proof.
  refine (Qeq_trans _ _ _ (proj1 (fwd_lrn_scale_window (fun a _ => a) ex_lrn_ctx ex_lrn
            1 1 1 3 0 0 0 1 _ _ _ eq_refl eq_refl eq_refl eq_refl eq_refl _ _ _ _)) _);
    try discriminate; try lia.
  vm_compute. reflexivity.
Defined.

